(** * kas: include resolution, deep merge and lockfile reconciliation

    A shallow embedding of [kas/includehandler.py] and
    [kas/plugins/lock.py].  Parsed JSON/YAML data is a tree of [value]s
    whose mappings have string keys; Python exceptions are an explicit
    [result]; the recursion over the include graph, which the code does not
    bound, carries fuel; the handler's mutable [top_repo_path] is threaded
    through as state.  [_internal_dict_merge] is embedded twice: as a
    function on trees, and on a store of objects with addresses where
    assignment really overwrites; the two are proved to agree.  Floating-
    point scalars are not part of the data model, and [logging] calls are
    kept only where the lock plugin's behaviour is stated in terms of
    them. *)

From Stdlib Require Import ZArith Ascii String List Lia.
From stdpp Require Import base list strings gmap.

Local Open Scope string_scope.
Local Open Scope list_scope.

#[local] Set Default Proof Using "Type*".

(** ** Parsed configuration data *)

(** What [json.load] and [yaml.safe_load] hand back: [None], booleans,
    integers, strings, lists and dicts.  A dict keeps its insertion order,
    so it is a list of entries; a Python dict never holds a key twice
    ([unique_keysb] below). *)
#[local] Unset Elimination Schemes.
Inductive value : Type :=
| VNone
| VBool (b : bool)
| VInt (n : Z)
| VStr (s : string)
| VList (items : list value)
| VDict (entries : list (string * value)).
#[local] Set Elimination Schemes.

Abbreviation dict := (list (string * value)).

(** ** Exceptions and results *)

Inductive load_failure :=
| ExtensionNotRecognized
| ValidationErrors
| IncompatibleVersion (version_value : Z)
| ConfigurationFileNotFound.

Inductive exn :=
| LoadConfigException (why : load_failure) (filename : string)
| IncludeException (message : string)
| FileNotFoundError
| NotADirectoryError
| IsADirectoryError
| ParseError
| UnboundLocalError (name : string)
| KeyError (key : string)
| IndexError
| AttributeError
| TypeError
| ValueError.

(** How a call ends: it returns, it raises, or the model ran out of fuel
    before the call came to an end (only the functions that take fuel can
    end this way). *)
Inductive result (A : Type) :=
| Ok (a : A)
| Raise (e : exn)
| OutOfFuel.
Arguments Ok {A} a.
Arguments Raise {A} e.
Arguments OutOfFuel {A}.

#[global] Instance result_ret : MRet result := fun A a => Ok a.

#[global] Instance result_bind : MBind result := fun A B k r =>
  match r with
  | Ok a => k a
  | Raise e => Raise e
  | OutOfFuel => OutOfFuel
  end.

Definition is_LoadConfigError (e : exn) : bool :=
  match e with LoadConfigException _ _ => true | _ => false end.

Definition is_IncludeError (e : exn) : bool :=
  match e with IncludeException _ => true | _ => false end.

(** ** Dict operations *)

Definition is_mapping (v : value) : bool :=
  match v with VDict _ => true | _ => false end.

(** [d.get(key, None)] / [d[key]] *)
Fixpoint dict_get {A} (key : string) (d : list (string * A)) : option A :=
  match d with
  | [] => None
  | (k, v) :: rest => if String.eqb k key then Some v else dict_get key rest
  end.

(** [d[key] = v] on an ordered dict: an existing key keeps its place, a new
    key goes to the end. *)
Fixpoint dict_set {A} (key : string) (v : A) (d : list (string * A)) : list (string * A) :=
  match d with
  | [] => [(key, v)]
  | (k, x) :: rest =>
      if String.eqb k key then (k, v) :: rest else (k, x) :: dict_set key v rest
  end.

Definition dict_keys {A} (d : list (string * A)) : list string := map fst d.

Definition has_key {A} (key : string) (d : list (string * A)) : bool :=
  existsb (String.eqb key) (dict_keys d).

(** [set(list(dest.keys())) & set(updkeys)] is non-empty *)
Definition keys_intersect {A} (dest upd : list (string * A)) : bool :=
  existsb (fun k => has_key k upd) (dict_keys dest).

(** [for k in upd: dest[k] = upd[k]] *)
Fixpoint dict_update {A} (dest upd : list (string * A)) : list (string * A) :=
  match upd with
  | [] => dest
  | (k, v) :: rest => dict_update (dict_set k v dest) rest
  end.

(** The dict invariant, checked at every level of nested mappings. *)
Fixpoint unique_keysb (v : value) : bool :=
  match v with
  | VDict entries =>
      bool_decide (NoDup (dict_keys entries))
      && (fix all (es : dict) : bool :=
            match es with
            | [] => true
            | (_, x) :: rest => unique_keysb x && all rest
            end) entries
  | _ => true
  end.

(** ** The deep merger: [_internal_dict_merge] *)

(** [items] runs over [upd]; the entry's value is [upd[key]]. *)
Fixpoint _internal_dict_merge (dest upd : value) {struct upd} : result value :=
  match dest, upd with
  | VDict d, VDict u =>
      if keys_intersect d u then
        (fix loop (dest : dict) (items : dict) {struct items} : result value :=
           match items with
           | [] => Ok (VDict dest)
           | (key, val) :: rest =>
               match dict_get key dest, val with
               | Some (VDict sub), VDict _ =>
                   ret ← _internal_dict_merge (VDict sub) val;
                   loop (dict_set key ret dest) rest
               | _, _ => loop (dict_set key val dest) rest
               end
           end) d u
      else Ok (VDict (dict_update d u))
  | _, _ => Raise (IncludeException "Cannot merge using non-dict")
  end.

(** [functools.reduce(_internal_dict_merge, bodies)]: no initial value, so
    an empty sequence is a [TypeError] and a single body is returned as is. *)
Definition reduce_merge (bodies : list value) : result value :=
  match bodies with
  | [] => Raise TypeError
  | first :: others =>
      fold_left (fun acc body => a ← acc; _internal_dict_merge a body)
                others (Ok first)
  end.

(** The loop of [_internal_dict_merge] taken for intersecting key sets. *)
Fixpoint merge_loop (dest items : dict) : result value :=
  match items with
  | [] => Ok (VDict dest)
  | (key, val) :: rest =>
      match dict_get key dest, val with
      | Some (VDict sub), VDict _ =>
          ret ← _internal_dict_merge (VDict sub) val;
          merge_loop (dict_set key ret dest) rest
      | _, _ => merge_loop (dict_set key val dest) rest
      end
  end.

(** What one merge step does to a key of the incoming body: both sides
    mappings are merged by the same function, anything else is replaced. *)
Definition merge_rule (existing : option value) (incoming merged : value) : Prop :=
  match existing, incoming with
  | Some (VDict a), VDict b => _internal_dict_merge (VDict a) (VDict b) = Ok merged
  | _, _ => merged = incoming
  end.

(** ** Configuration files *)

(** The attributes of a [ConfigFile] object once [__init__] has returned. *)
Record ConfigFile := {
  filename : string;
  config : value;
  src_dir : value;
  is_lockfile : bool;
  is_external : bool;
}.

(** [current_config.filename], where a parameter called [filename] is in
    scope. *)
Definition filename_of (c : ConfigFile) : string := filename c.

(** [functools.reduce(_internal_dict_merge, map(lambda x: x.config, configs))] *)
Definition merge_configs (configs : list ConfigFile) : result value :=
  reduce_merge (map config configs).

(** ** Strings and paths

    The POSIX flavour of the [os.path] and [pathlib] functions the sources
    call, on plain strings. *)

Definition slice_to (i : nat) (s : string) : string := substring 0 i s.
Definition slice_from (i : nat) (s : string) : string :=
  substring i (String.length s - i) s.

(** [s.rfind(c)], as a position counted from [start]; [None] for -1. *)
Fixpoint rfind_from (c : ascii) (s : string) (start : nat) : option nat :=
  match s with
  | EmptyString => None
  | String a rest =>
      match rfind_from c rest (S start) with
      | Some i => Some i
      | None => if Ascii.eqb a c then Some start else None
      end
  end.
Definition rfind (c : ascii) (s : string) : option nat := rfind_from c s 0.

(** [s.split(sep)] *)
Fixpoint split_on (sep : ascii) (s : string) : list string :=
  match s with
  | EmptyString => [EmptyString]
  | String a rest =>
      if Ascii.eqb a sep then EmptyString :: split_on sep rest
      else match split_on sep rest with
           | [] => [String a EmptyString]
           | w :: ws => String a w :: ws
           end
  end.

Definition startswith (p s : string) : bool := String.prefix p s.

Fixpoint endswith_char (c : ascii) (s : string) : bool :=
  match s with
  | EmptyString => false
  | String a EmptyString => Ascii.eqb a c
  | String _ rest => endswith_char c rest
  end.

(** [s.rstrip('/')] *)
Fixpoint rstrip_slash (s : string) : string :=
  match s with
  | EmptyString => EmptyString
  | String a rest =>
      match rstrip_slash rest with
      | EmptyString => if Ascii.eqb a "/" then EmptyString else String a EmptyString
      | r => String a r
      end
  end.

Fixpoint all_chars (c : ascii) (s : string) : bool :=
  match s with
  | EmptyString => true
  | String a rest => Ascii.eqb a c && all_chars c rest
  end.

Module os_path.

(** [os.pathsep] is the separator of search paths, not of directories. *)
Definition pathsep : string := ":".

Definition isabs (p : string) : bool := startswith "/" p.

(** [os.path.splitext]: the extension starts at the last dot of the last
    component, unless only dots come before it there. *)
Definition splitext (p : string) : string * string :=
  match rfind "." p with
  | None => (p, "")
  | Some dotIndex =>
      let filenameIndex :=
        match rfind "/" p with None => 0 | Some sepIndex => S sepIndex end in
      if (filenameIndex <=? dotIndex)%nat
         && negb (all_chars "." (substring filenameIndex (dotIndex - filenameIndex) p))
      then (slice_to dotIndex p, slice_from dotIndex p)
      else (p, "")
  end.

(** [os.path.join(a, b)] *)
Definition join (a b : string) : string :=
  if startswith "/" b then b
  else if (a =? "") || endswith_char "/" a then a +:+ b
  else a +:+ "/" +:+ b.

(** [os.path.dirname] *)
Definition dirname (p : string) : string :=
  let head :=
    match rfind "/" p with None => "" | Some i => slice_to (S i) p end in
  if negb (head =? "") && negb (all_chars "/" head) then rstrip_slash head
  else head.

(** The component loop of [os.path.normpath]; [new_comps] is kept
    reversed. *)
Fixpoint normpath_comps (initial_slashes : nat) (comps new_comps : list string)
  : list string :=
  match comps with
  | [] => rev new_comps
  | comp :: rest =>
      if (comp =? "") || (comp =? ".") then
        normpath_comps initial_slashes rest new_comps
      else if negb (comp =? "..")
              || (Nat.eqb initial_slashes 0 && match new_comps with [] => true | _ => false end)
              || match new_comps with last :: _ => last =? ".." | [] => false end
      then normpath_comps initial_slashes rest (comp :: new_comps)
      else normpath_comps initial_slashes rest (tl new_comps)
  end.

Definition normpath (path : string) : string :=
  if path =? "" then "."
  else
    let initial_slashes :=
      if startswith "/" path then
        if startswith "//" path && negb (startswith "///" path) then 2 else 1
      else 0 in
    let comps := normpath_comps initial_slashes (split_on "/" path) [] in
    let joined := String.concat "/" comps in
    let path := match initial_slashes with
                | 0 => joined
                | 1 => "/" +:+ joined
                | _ => "//" +:+ joined
                end in
    if path =? "" then "." else path.

(** [os.path.abspath], with the working directory passed in. *)
Definition abspath (cwd path : string) : string :=
  normpath (if isabs path then path else join cwd path).

End os_path.

Module pathlib.

(** A [PurePosixPath]: its root and its parts after the root.  Empty and
    [.] components are dropped when the path is built; [..] is kept. *)
Record Path := { root : string; parts : list string }.

Definition of_string (s : string) : Path :=
  {| root := if startswith "/" s then
               if startswith "//" s && negb (startswith "///" s) then "//" else "/"
             else "";
     parts := List.filter (fun c => negb ((c =? "") || (c =? "."))) (split_on "/" s) |}.

Definition to_string (p : Path) : string :=
  match root p, parts p with
  | "", [] => "."
  | r, ps => r +:+ String.concat "/" ps
  end.

Definition name (p : Path) : string := List.last (parts p) "".

Definition parent (p : Path) : Path :=
  {| root := root p; parts := removelast (parts p) |}.

(** The position of the dot that starts the suffix: the last dot of the
    name, neither its first nor its last character. *)
Definition suffix_index (nm : string) : option nat :=
  match rfind "." nm with
  | Some i => if (0 <? i)%nat && (i <? String.length nm - 1)%nat then Some i else None
  | None => None
  end.

Definition suffix (p : Path) : string :=
  match suffix_index (name p) with
  | Some i => slice_from i (name p)
  | None => ""
  end.

Definition stem (p : Path) : string :=
  match suffix_index (name p) with
  | Some i => slice_to i (name p)
  | None => name p
  end.

(** [p / child] for a child made of one component. *)
Definition joinpath (p : Path) (child : string) : Path :=
  {| root := root p; parts := parts p ++ [child] |}.

(** [Path.relative_to] succeeds: same root, and the parts of [prefix]
    start the parts of [p]. *)
Definition is_relative_to (p prefix : Path) : bool :=
  (root p =? root prefix)
  && bool_decide (parts prefix = take (length (parts prefix)) (parts p)).

End pathlib.

(** ** Python built-ins on values *)

(** Truth value of an object, as tested by [if x:]. *)
Definition truthy (v : value) : bool :=
  match v with
  | VNone => false
  | VBool b => b
  | VInt n => negb (n =? 0)%Z
  | VStr s => negb (s =? "")
  | VList items => match items with [] => false | _ => true end
  | VDict entries => match entries with [] => false | _ => true end
  end.

(** [v[key]] for a string key *)
Definition subscript (v : value) (key : string) : result value :=
  match v with
  | VDict d =>
      match dict_get key d with
      | Some x => Ok x
      | None => Raise (KeyError key)
      end
  | _ => Raise TypeError
  end.

(** [v.get(key, default)] *)
Definition method_get (v : value) (key : string) (default : value) : result value :=
  match v with
  | VDict d => Ok (from_option id default (dict_get key d))
  | _ => Raise AttributeError
  end.

(** The elements a [for] loop over [v] sees: the items of a list, the keys
    of a dict, the characters of a string. *)
Definition iter_value (v : value) : result (list value) :=
  match v with
  | VList items => Ok items
  | VDict entries => Ok (map VStr (dict_keys entries))
  | VStr s => Ok (map (fun c => VStr (String c EmptyString)) (list_ascii_of_string s))
  | _ => Raise TypeError
  end.

(** The values [for include in header.get('includes', [])] runs over, with
    [header = config.get('header', {})]. *)
Definition header_includes (config : value) : result (list value) :=
  header ← method_get config "header" (VDict []);
  includes ← method_get header "includes" (VList []);
  iter_value includes.

(** A path argument of an [os.path] function must be a string. *)
Definition fspath (v : value) : result string :=
  match v with
  | VStr s => Ok s
  | _ => Raise TypeError
  end.

(** ** A reading of [int] for the examples

    [int(s)] on a string is the interpreter's: which characters count as
    digits and white space, and how many digits it accepts, are not
    fixed by these sources.  The examples run with the reading below,
    which knows the ASCII characters only. *)

Definition is_space (c : ascii) : bool :=
  let n := nat_of_ascii c in
  ((9 <=? n) && (n <=? 13) || (28 <=? n) && (n <=? 32))%nat.

Definition digit_of (c : ascii) : option Z :=
  let n := nat_of_ascii c in
  if ((48 <=? n) && (n <=? 57))%nat then Some (Z.of_nat n - 48)%Z else None.

Fixpoint lstrip (s : string) : string :=
  match s with
  | String c rest => if is_space c then lstrip rest else s
  | EmptyString => s
  end.

Fixpoint rstrip (s : string) : string :=
  match s with
  | EmptyString => EmptyString
  | String c rest =>
      match rstrip rest with
      | EmptyString => if is_space c then EmptyString else String c EmptyString
      | r => String c r
      end
  end.

(** Decimal digits, single underscores allowed between two digits. *)
Fixpoint parse_digits (s : string) (acc : Z) (after_digit : bool) : option Z :=
  match s with
  | EmptyString => if after_digit then Some acc else None
  | String c rest =>
      match digit_of c with
      | Some d => parse_digits rest (10 * acc + d)%Z true
      | None =>
          if Ascii.eqb c "_" && after_digit then
            match rest with
            | String c' _ =>
                if is_Some_dec (digit_of c') then parse_digits rest acc false else None
            | EmptyString => None
            end
          else None
      end
  end.

(** Surrounding white space, an optional sign, decimal digits. *)
Definition example_int (s : string) : option Z :=
  match rstrip (lstrip s) with
  | String "-" digits => Z.opp <$> parse_digits digits 0 false
  | String "+" digits => parse_digits digits 0 false
  | digits => parse_digits digits 0 false
  end.

(** Structural equality of values. *)
Fixpoint value_eqb (a b : value) : bool :=
  match a, b with
  | VNone, VNone => true
  | VBool x, VBool y => Bool.eqb x y
  | VInt x, VInt y => (x =? y)%Z
  | VStr x, VStr y => x =? y
  | VList xs, VList ys =>
      (fix go (xs ys : list value) : bool :=
         match xs, ys with
         | [], [] => true
         | x :: xs', y :: ys' => value_eqb x y && go xs' ys'
         | _, _ => false
         end) xs ys
  | VDict xs, VDict ys =>
      (fix go (xs ys : dict) : bool :=
         match xs, ys with
         | [], [] => true
         | (k, x) :: xs', (l, y) :: ys' => (k =? l) && value_eqb x y && go xs' ys'
         | _, _ => false
         end) xs ys
  | _, _ => false
  end.

(** Python hashes and compares [True] as [1] and [False] as [0]. *)
Definition hash_key (v : value) : value :=
  match v with
  | VBool b => VInt (if b then 1 else 0)
  | _ => v
  end.

(** [a == b] on the objects that can be dict keys (lists and dicts cannot). *)
Definition py_eqb (a b : value) : bool := value_eqb (hash_key a) (hash_key b).

(** [x in l] *)
Definition py_in (x : value) (l : list value) : bool := existsb (py_eqb x) l.

(** [for repo in reps: if repo not in missing_repos: missing_repos.append(repo)] *)
Definition append_unseen (missing_repos reps : list value) : list value :=
  fold_left (fun acc repo => if py_in repo acc then acc else acc ++ [repo])
            reps missing_repos.

(** No two elements of [l] are equal keys. *)
Fixpoint py_distinctb (l : list value) : bool :=
  match l with
  | [] => true
  | x :: rest => negb (py_in x rest) && py_distinctb rest
  end.

(** First-seen order without repeats, said directly: the head stays, and
    nothing equal to it stays behind it. *)
Fixpoint first_occurrences (l : list value) : list value :=
  match l with
  | [] => []
  | x :: rest => x :: List.filter (fun y => negb (py_eqb y x)) (first_occurrences rest)
  end.

(** [list(OrderedDict.fromkeys(l))]: the first occurrence of every key, in
    order. *)
Definition fromkeys (l : list value) : list value := append_unseen [] l.

(** ** The file system

    A tree of directories and regular files, without symbolic links.
    [nodes] tells what is at an absolute path written without [.], [..],
    empty components and trailing slash; the root is a directory.  A
    regular file stands for what the parser selected by the file's
    extension makes of its bytes. *)

Inductive contents :=
| Malformed
| Parsed (v : value).

Inductive node :=
| Directory
| RegularFile (c : contents).

Record filesystem := {
  cwd : string;
  nodes : string -> option node;
}.

(** What the operating system answers for a path: [ENOENT], [ENOTDIR],
    or what it has found. *)
Inductive lookup :=
| NoEntry
| NotADirectory
| Found (n : node).

(** Pathname resolution, one component at a time: [here] is what has been
    reached, at the path [dir].  Every component, also an empty one, [.]
    and [..], is resolved in a directory. *)
Fixpoint walk (nodes : string -> option node) (dir : string) (here : node)
         (comps : list string) : lookup :=
  match comps with
  | [] => Found here
  | comp :: rest =>
      match here with
      | RegularFile _ => NotADirectory
      | Directory =>
          if (comp =? "") || (comp =? ".") then walk nodes dir Directory rest
          else if comp =? ".." then walk nodes (os_path.dirname dir) Directory rest
          else
            match nodes (os_path.join dir comp) with
            | None => NoEntry
            | Some n => walk nodes (os_path.join dir comp) n rest
            end
      end
  end.

(** What [open] and [stat] find for [path]: resolution starts at the root
    for an absolute path and at the working directory for a relative
    one; the empty path names nothing. *)
Definition stat (sys : filesystem) (path : string) : lookup :=
  if path =? "" then NoEntry
  else walk (nodes sys) "/" Directory
            (split_on "/" (if os_path.isabs path then path
                           else os_path.join (cwd sys) path)).

(** [os.path.exists] / [Path.exists] *)
Definition path_exists (sys : filesystem) (path : string) : bool :=
  match stat sys path with
  | Found _ => true
  | _ => false
  end.

(** [file.parent / (file.stem + '.lock' + file.suffix)] *)
Definition lock_sibling (file : string) : string :=
  let file := pathlib.of_string file in
  pathlib.to_string
    (pathlib.joinpath (pathlib.parent file)
                      (pathlib.stem file +:+ ".lock" +:+ pathlib.suffix file)).

(** The extensions [_load_config] knows a parser for. *)
Definition recognized_extension (filename : string) : bool :=
  let ext := (os_path.splitext filename).2 in
  (ext =? ".json") || (ext =? ".yml") || (ext =? ".yaml").

Definition SOURCE_DIR_OVERRIDE_KEY : string := "_source_dir".

(** ** [ConfigFile] and [IncludeHandler] *)

Record IncludeHandler := {
  top_files : list string;
  top_repo_path : value;
  use_lock : bool;
}.

Definition set_top_repo_path (self : IncludeHandler) (path : value) : IncludeHandler :=
  {| top_files := top_files self; top_repo_path := path; use_lock := use_lock self |}.

(** What [_internal_include_handler] returns, together with the handler
    object as the call leaves it. *)
Definition visited : Type := list ConfigFile * list value * IncludeHandler.

(** ** Objects with identity

    [_internal_dict_merge] once more, on a store of mutable objects: a dict
    or a list lives at an address, a reference to it is the address, and
    [dest[key] = v] overwrites the dict stored there.  Allocation appends
    to the store. *)
Module Heap.

Abbreviation loc := nat.

Inductive ref :=
| RNone
| RBool (b : bool)
| RInt (n : Z)
| RStr (s : string)
| RObj (l : loc).

Inductive object :=
| ODict (entries : list (string * ref))
| OList (items : list ref).

Abbreviation heap := (list object).

(** [isinstance(r, Mapping)] *)
Definition is_Mapping (h : heap) (r : ref) : bool :=
  match r with
  | RObj l => match h !! l with Some (ODict _) => true | _ => false end
  | _ => false
  end.

(** [d.get(key, None)], [None] for the Python [None] as well. *)
Definition getitem (h : heap) (l : loc) (key : string) : option ref :=
  match h !! l with
  | Some (ODict entries) => dict_get key entries
  | _ => None
  end.

(** [d[key] = r] for the dict at address [l] *)
Definition setitem (h : heap) (l : loc) (key : string) (r : ref) : heap :=
  match h !! l with
  | Some (ODict entries) => <[l := ODict (dict_set key r entries)]> h
  | _ => h
  end.

(** [OrderedDict(dest)]: a new dict object with the entries of [d]. *)
Definition copy_dict (h : heap) (d : list (string * ref)) : heap * loc :=
  (h ++ [ODict d], length h).

Section step.

Variable recurse : heap -> ref -> ref -> result (heap * ref).

(** [for key in updkeys: ...] with [dest] the copy at [new] and [upd]
    the dict at [lu]. *)
Fixpoint merge_keys (new lu : loc) (updkeys : list string) (h : heap)
  : result heap :=
  match updkeys with
  | [] => Ok h
  | key :: rest =>
      match getitem h lu key with
      | None => Raise (KeyError key)
      | Some val =>
          let dest_subkey := default RNone (getitem h new key) in
          if is_Mapping h dest_subkey && is_Mapping h val then
            '(h, ret) ← recurse h dest_subkey val;
            merge_keys new lu rest (setitem h new key ret)
          else merge_keys new lu rest (setitem h new key val)
      end
  end.

(** [for k in upd: dest[k] = upd[k]] *)
Fixpoint update_keys (new lu : loc) (keys : list string) (h : heap)
  : result heap :=
  match keys with
  | [] => Ok h
  | k :: rest =>
      match getitem h lu k with
      | None => Raise (KeyError k)
      | Some val => update_keys new lu rest (setitem h new k val)
      end
  end.

Definition merge_body (h : heap) (dest upd : ref) : result (heap * ref) :=
  match dest, upd with
  | RObj ld, RObj lu =>
      match h !! ld, h !! lu with
      | Some (ODict d), Some (ODict u) =>
          let '(h, new) := copy_dict h d in
          let updkeys := dict_keys u in
          if keys_intersect d u then
            h ← merge_keys new lu updkeys h;
            Ok (h, RObj new)
          else
            h ← update_keys new lu updkeys h;
            Ok (h, RObj new)
      | _, _ => Raise (IncludeException "Cannot merge using non-dict")
      end
  | _, _ => Raise (IncludeException "Cannot merge using non-dict")
  end.

End step.

Fixpoint _internal_dict_merge (fuel : nat) (h : heap) (dest upd : ref)
  : result (heap * ref) :=
  match fuel with
  | O => OutOfFuel
  | S fuel => merge_body (_internal_dict_merge fuel) h dest upd
  end.

(** [functools.reduce(_internal_dict_merge, bodies)] *)
Fixpoint reduce_from (fuel : nat) (h : heap) (acc : ref) (bodies : list ref)
  : result (heap * ref) :=
  match bodies with
  | [] => Ok (h, acc)
  | body :: rest =>
      '(h, acc) ← _internal_dict_merge fuel h acc body;
      reduce_from fuel h acc rest
  end.

Definition reduce_merge (fuel : nat) (h : heap) (bodies : list ref)
  : result (heap * ref) :=
  match bodies with
  | [] => Raise TypeError
  | first :: others => reduce_from fuel h first others
  end.

(** The tree a reference stands for, read off the store down to [depth]
    levels of objects. *)
Fixpoint reify (depth : nat) (h : heap) (r : ref) : option value :=
  match r with
  | RNone => Some VNone
  | RBool b => Some (VBool b)
  | RInt n => Some (VInt n)
  | RStr s => Some (VStr s)
  | RObj l =>
      match depth with
      | O => None
      | S depth =>
          match h !! l with
          | Some (ODict entries) =>
              VDict <$> mapM (fun e => pair e.1 <$> reify depth h e.2) entries
          | Some (OList items) => VList <$> mapM (reify depth h) items
          | None => None
          end
      end
  end.

(** Two bodies that share the key [a], both with a nested mapping. *)
Definition example : heap :=
  [ODict [("a", RObj 1); ("b", RInt 1)];
   ODict [("x", RInt 1)];
   ODict [("a", RObj 3)];
   ODict [("y", RInt 2)]].

End Heap.

(** ** The lock plugin: [kas/plugins/lock.py] *)
Module Lock.

(** Modelled from the spec: the repository reference ([kas.repos.Repo] is
    not among the sources), with the attributes the plugin reads: a
    name, a checkout path, the pinned [commit] (absent if floating), the
    resolved [revision] and the operations-disabled flag. *)
Record Repo := {
  name : string;
  path : string;
  commit : option string;
  revision : option string;
  operations_disabled : bool;
}.

#[global] Instance Repo_eq_dec : EqDecision Repo.
Proof. solve_decision. Defined.

(** What the pass writes with [logging] and hands to [Dump.dump_config]. *)
Inductive record :=
| InfoUpToDate (name : string) (revision : option string)
| InfoUpdating (name : string) (old : value) (new : option string)
| WarningRemoteLockfile (name : string) (lockfile : string)
| InfoUpdatingLockfile (lockfile : string)
| Dumped (lockfile : string) (config : value) (format : string).

(** [self.repos] *)
Record Lock := { repos : list (string * Repo) }.

(** [Lock._path_is_relative_to] *)
Definition _path_is_relative_to (path prefix : string) : bool :=
  pathlib.is_relative_to (pathlib.of_string path) (pathlib.of_string prefix).

(** [Lock._is_external_lockfile] *)
Definition _is_external_lockfile (self : Lock) (lockfile : ConfigFile) : bool :=
  existsb (fun '(_, r) =>
             _path_is_relative_to (filename lockfile) (path r)
             && negb (operations_disabled r))
          (repos self).

(** [r.revision] as a Python object *)
Definition revision_value (r : Repo) : value :=
  match revision r with
  | Some rev => VStr rev
  | None => VNone
  end.

(** The variables of [_update_lockfile] that change while it runs:
    [table] is the dict [lockfile_config['overrides']['repos']] whose
    entries are assigned to in place, [repos_to_lock] the list entries are
    removed from. *)
Record pass := {
  table : dict;
  repos_to_lock : list (string * Repo);
  changed : bool;
  log : list record;
}.

(** What [_update_lockfile] returns: the list as the pass leaves it. *)
Definition returned (st : pass) : list (string * Repo) := repos_to_lock st.

(** [l.remove(x)]: the first element equal to [x] goes. *)
Fixpoint list_remove (x : string * Repo) (l : list (string * Repo))
  : list (string * Repo) :=
  match l with
  | [] => []
  | y :: rest => if decide (y = x) then rest else y :: list_remove x rest
  end.

(** The body of [if k == rk:] *)
Definition on_match (self : Lock) (lockfile : ConfigFile)
           (k : string) (rk : string) (r : Repo) (st : pass) : result pass :=
  let repos_to_lock := list_remove (rk, r) (repos_to_lock st) in
  let v := default VNone (dict_get k (table st)) in
  commit ← subscript v "commit";
  if py_eqb commit (revision_value r) then
    Ok {| table := table st; repos_to_lock := repos_to_lock; changed := changed st;
          log := log st ++ [InfoUpToDate (name r) (revision r)] |}
  else if negb (_is_external_lockfile self lockfile) then
    match v with
    | VDict entries =>
        Ok {| table := dict_set k (VDict (dict_set "commit" (revision_value r) entries))
                                (table st);
              repos_to_lock := repos_to_lock; changed := true;
              log := log st ++ [InfoUpdating (name r) commit (revision r)] |}
    | _ => Raise TypeError
    end
  else
    Ok {| table := table st; repos_to_lock := repos_to_lock; changed := changed st;
          log := log st ++ [WarningRemoteLockfile (name r) (filename lockfile)] |}.

(** [for rk, r in repos_to_lock:] for one [k].  A list iterator is a
    position: after a removal the element that moves into the current
    position is skipped.  [steps] bounds the number of turns by the length
    of the list when the loop starts. *)
Fixpoint scan (self : Lock) (lockfile : ConfigFile) (k : string)
         (steps position : nat) (st : pass) : result pass :=
  match steps with
  | O => Ok st
  | S steps =>
      match repos_to_lock st !! position with
      | None => Ok st
      | Some (rk, r) =>
          if String.eqb k rk then
            st ← on_match self lockfile k rk r st;
            scan self lockfile k steps (S position) st
          else scan self lockfile k steps (S position) st
      end
  end.

(** [for k, v in lockfile_config['overrides']['repos'].items():] *)
Fixpoint each_lock (self : Lock) (lockfile : ConfigFile) (keys : list string)
         (st : pass) : result pass :=
  match keys with
  | [] => Ok st
  | k :: rest =>
      st ← scan self lockfile k (length (repos_to_lock st)) 0 st;
      each_lock self lockfile rest st
  end.

(** The lock document's body with its [overrides.repos] as the pass left
    it. *)
Definition with_table (config : value) (table : dict) : value :=
  match config with
  | VDict top =>
      match dict_get "overrides" top with
      | Some (VDict overrides) =>
          VDict (dict_set "overrides" (VDict (dict_set "repos" (VDict table) overrides))
                          top)
      | _ => config
      end
  | _ => config
  end.

(** [lockfile_config['overrides']['repos']] *)
Definition lock_table (lockfile : ConfigFile) : result value :=
  overrides ← subscript (config lockfile) "overrides";
  subscript overrides "repos".

(** [Lock._update_lockfile]: the state when it returns; [repos_to_lock]
    of it is the return value. *)
Definition _update_lockfile (self : Lock) (lockfile : ConfigFile)
           (repos_to_lock : list (string * Repo)) : result pass :=
  repos ← lock_table lockfile;
  match repos with
  | VDict items =>
      st ← each_lock self lockfile (dict_keys items)
                     {| table := items; repos_to_lock := repos_to_lock;
                        changed := false; log := [] |};
      if negb (changed st) then Ok st
      else
        let format :=
          if pathlib.suffix (pathlib.of_string (filename lockfile)) =? ".json"
          then "json" else "yaml" in
        Ok {| table := table st; repos_to_lock := returned st;
              changed := changed st;
              log := log st ++ [InfoUpdatingLockfile (filename lockfile);
                                Dumped (filename lockfile)
                                       (with_table (config lockfile) (table st))
                                       format] |}
  | _ => Raise AttributeError
  end.

(** The pin of [key] recorded in a table. *)
Definition pin (table : dict) (key : string) : option value :=
  match dict_get key table with
  | Some (VDict entries) => dict_get "commit" entries
  | _ => None
  end.

(** Every entry of the table is a mapping that records a [commit]. *)
Definition records_pins (table : dict) : Prop :=
  forall key v, dict_get key table = Some v ->
                exists entries c, v = VDict entries /\ dict_get "commit" entries = Some c.

(** The scenario of the specification: the lock document pins [r1] to
    [AAA] while the checkout of the floating [r1] is at [BBB]. *)
Definition r1 : Repo :=
  {| name := "r1"; path := "/work/build/r1"; commit := None;
     revision := Some "BBB"; operations_disabled := false |}.

Definition pins_AAA : value :=
  VDict [("header", VDict [("version", VInt 14)]);
         ("overrides",
          VDict [("repos", VDict [("r1", VDict [("commit", VStr "AAA")])])])].

Definition lock_at (file : string) : ConfigFile :=
  {| filename := file; config := pins_AAA; src_dir := VNone;
     is_lockfile := true; is_external := false |}.

Definition plugin : Lock := {| repos := [("r1", r1)] |}.

End Lock.

(** The scenario of the specification: [a.yml] includes the local [b.yml]
    and [c.yml] of repository [x]. *)
Module Scenario.

Definition a : value :=
  VDict [("header",
          VDict [("version", VInt 14);
                 ("includes",
                  VList [VStr "b.yml";
                         VDict [("repo", VStr "x"); ("file", VStr "c.yml")]])]);
         ("machine", VStr "qemux86-64")].

Definition b : value :=
  VDict [("header", VDict [("version", VInt 14)]);
         ("machine", VStr "qemuarm"); ("distro", VStr "poky")].

Definition c : value :=
  VDict [("header", VDict [("version", VInt 14)]);
         ("target", VList [VStr "core-image-minimal"])].

Definition sys : filesystem :=
  {| cwd := "/work";
     nodes := fun path =>
       if path =? "/work" then Some Directory
       else if path =? "/work/a.yml" then Some (RegularFile (Parsed a))
       else if path =? "/work/b.yml" then Some (RegularFile (Parsed b))
       else if path =? "/path" then Some Directory
       else if path =? "/path/c.yml" then Some (RegularFile (Parsed c))
       else None |}.

Definition handler : IncludeHandler :=
  {| top_files := ["a.yml"]; top_repo_path := VStr "/work"; use_lock := true |}.

Definition doc_a : ConfigFile :=
  {| filename := "a.yml"; config := a; src_dir := VNone;
     is_lockfile := false; is_external := false |}.

Definition doc_b : ConfigFile :=
  {| filename := "/work/b.yml"; config := b; src_dir := VNone;
     is_lockfile := false; is_external := false |}.

Definition doc_c : ConfigFile :=
  {| filename := "/path/c.yml"; config := c; src_dir := VNone;
     is_lockfile := false; is_external := true |}.

Definition no_repos : gmap string string := ∅.
Definition known_repos : gmap string string := {[ "x" := "/path" ]}.

End Scenario.

(** A lock document next to [a.yml] that has a lock sibling of its own. *)
Module LockChain.

Definition plain : value := VDict [("header", VDict [("version", VInt 14)])].

Definition pins (commit : string) : value :=
  VDict [("header", VDict [("version", VInt 14)]);
         ("overrides",
          VDict [("repos", VDict [("r1", VDict [("commit", VStr commit)])])])].

Definition sys : filesystem :=
  {| cwd := "/work";
     nodes := fun path =>
       if path =? "/work" then Some Directory
       else if path =? "/work/a.yml" then Some (RegularFile (Parsed plain))
       else if path =? "/work/a.lock.yml" then Some (RegularFile (Parsed (pins "AAA")))
       else if path =? "/work/a.lock.lock.yml" then Some (RegularFile (Parsed (pins "BBB")))
       else None |}.

Definition handler : IncludeHandler :=
  {| top_files := ["/work/a.yml"]; top_repo_path := VStr "/work"; use_lock := true |}.

Definition doc (file : string) (body : value) (lock : bool) : ConfigFile :=
  {| filename := file; config := body; src_dir := VNone;
     is_lockfile := lock; is_external := false |}.

End LockChain.

(** Cross-repository includes that name no file, and a repository named by
    several documents. *)
Module Incomplete.

Definition top (includes : list value) : value :=
  VDict [("header", VDict [("version", VInt 14); ("includes", VList includes)])].

Definition cross (repo : string) : value := VDict [("repo", VStr repo)].
Definition cross_file (repo file : string) : value :=
  VDict [("repo", VStr repo); ("file", VStr file)].

Definition a : value := top [cross "x"].
Definition t1 : value :=
  top [cross_file "x" "c.yml"; cross_file "y" "d.yml"; cross_file "x" "e.yml"].
Definition t2 : value := top [cross_file "y" "d.yml"; cross_file "z" "f.yml"].

Definition sys : filesystem :=
  {| cwd := "/work";
     nodes := fun path =>
       if path =? "/work" then Some Directory
       else if path =? "/work/a.yml" then Some (RegularFile (Parsed a))
       else if path =? "/work/t1.yml" then Some (RegularFile (Parsed t1))
       else if path =? "/work/t2.yml" then Some (RegularFile (Parsed t2))
       else None |}.

Definition handler (files : list string) : IncludeHandler :=
  {| top_files := files; top_repo_path := VStr "/work"; use_lock := true |}.

Definition doc (file : string) (body : value) : ConfigFile :=
  {| filename := file; config := body; src_dir := VNone;
     is_lockfile := false; is_external := false |}.

Definition known_x : gmap string string := {[ "x" := "/path" ]}.

End Incomplete.

(** A checkout [/path] of repository [x] whose [c.yml] includes its
    neighbour [d.yml], each of the two with a lock sibling; a top file
    that includes from [x] and from a repository [y]; and a generated top
    file that names its source directory. *)
Module Checkout.

Definition plain : value := VDict [("header", VDict [("version", VInt 14)])].

Definition c : value :=
  VDict [("header", VDict [("version", VInt 14); ("includes", VList [VStr "d.yml"])])].

Definition top_header : value :=
  VDict [("version", VInt 14);
         ("includes",
          VList [VDict [("repo", VStr "x"); ("file", VStr "c.yml")];
                 VDict [("repo", VStr "y"); ("file", VStr "e.yml")]])].

Definition top : value := VDict [("header", top_header)].

Definition generated : value :=
  VDict [("header", VDict [("version", VInt 14)]); ("_source_dir", VStr "/src")].

Definition sys : filesystem :=
  {| cwd := "/work";
     nodes := fun path =>
       if (path =? "/work") || (path =? "/path") || (path =? "/src") then Some Directory
       else if path =? "/path/c.yml" then Some (RegularFile (Parsed c))
       else if path =? "/path/c.lock.yml" then
         Some (RegularFile (Parsed (LockChain.pins "AAA")))
       else if path =? "/path/d.yml" then Some (RegularFile (Parsed plain))
       else if path =? "/path/d.lock.yml" then
         Some (RegularFile (Parsed (LockChain.pins "BBB")))
       else if path =? "/work/top.yml" then Some (RegularFile (Parsed top))
       else if path =? "/work/generated.yml" then Some (RegularFile (Parsed generated))
       else None |}.

Definition handler (file : string) (root : string) : IncludeHandler :=
  {| top_files := [file]; top_repo_path := VStr root; use_lock := true |}.

Definition doc (file : string) (body : value) (lock external : bool) : ConfigFile :=
  {| filename := file; config := body; src_dir := VNone;
     is_lockfile := lock; is_external := external |}.

Definition known_x : gmap string string := {[ "x" := "/path" ]}.

End Checkout.

(** Documents of several versions: a current one, one from a later
    release, and one with the version string of the first format. *)
Module Versions.

Definition versioned (version : value) : value :=
  VDict [("header", VDict [("version", version)]); ("machine", VStr "qemux86-64")].

Definition sys : filesystem :=
  {| cwd := "/work";
     nodes := fun path =>
       if path =? "/work" then Some Directory
       else if path =? "/work/current.yml" then
         Some (RegularFile (Parsed (versioned (VInt 14))))
       else if path =? "/work/later.yml" then
         Some (RegularFile (Parsed (versioned (VInt 99))))
       else if path =? "/work/first.yml" then
         Some (RegularFile (Parsed (versioned (VStr "0.10"))))
       else None |}.

End Versions.

(** A validator to run the examples with: it accepts a mapping whose
    [header] is a mapping with a [version]. *)
Definition example_schema (v : value) : bool :=
  match v with
  | VDict top =>
      match dict_get "header" top with
      | Some (VDict header) => bool_decide (is_Some (dict_get "version" header))
      | _ => false
      end
  | _ => false
  end.

Section Kas.

(** [kas.__file_version__], [kas.__compatible_file_version__] and the
    verdict of the validator built from [kas.CONFIGSCHEMA] (true when
    [iter_errors] yields nothing) are defined outside these sources. *)
Variable __file_version__ : Z.
Variable __compatible_file_version__ : Z.
Variable schema_valid : value -> bool.

(** [int(s)] for a string [s]: the integer it denotes, [None] where
    [int] raises [ValueError].  Which strings denote an integer is the
    interpreter's to say. *)
Variable int_of_str : string -> option Z.

(** [int(v)] *)
Definition py_int (v : value) : result Z :=
  match v with
  | VInt n => Ok n
  | VBool b => Ok (if b then 1 else 0)%Z
  | VStr s =>
      match int_of_str s with
      | Some n => Ok n
      | None => Raise ValueError
      end
  | _ => Raise TypeError
  end.

(** [int(self.config['header']['version'])], 1 on [ValueError] *)
Definition version_value (config : value) : result Z :=
  header ← subscript config "header";
  version ← subscript header "version";
  match py_int version with
  | Raise ValueError => Ok 1%Z
  | r => r
  end.

(** [ConfigFile._load_config]: the loaded [config] and [src_dir]. *)
Definition _load_config (sys : filesystem) (filename : string)
  : result (value * value) :=
  let ext := (os_path.splitext filename).2 in
  if (ext =? ".json") || (ext =? ".yml") || (ext =? ".yaml") then
    match stat sys filename with
    | NoEntry => Raise FileNotFoundError
    | NotADirectory => Raise NotADirectoryError
    | Found Directory => Raise IsADirectoryError
    | Found (RegularFile Malformed) => Raise ParseError
    | Found (RegularFile (Parsed config)) =>
        if negb (schema_valid config) then
          Raise (LoadConfigException ValidationErrors filename)
        else
          version_value ← version_value config;
          if (version_value <? __compatible_file_version__)%Z
             || (version_value >? __file_version__)%Z
          then Raise (LoadConfigException (IncompatibleVersion version_value) filename)
          else
            _ ← method_get config "proxy_config" VNone;
            src_dir ← method_get config SOURCE_DIR_OVERRIDE_KEY VNone;
            Ok (config, src_dir)
    end
  else Raise (LoadConfigException ExtensionNotRecognized filename).

(** [ConfigFile(filename, is_lockfile, is_external)] *)
Definition ConfigFile_init (sys : filesystem) (filename : string)
           (is_lockfile is_external : bool) : result ConfigFile :=
  '(config, src_dir) ← _load_config sys filename;
  Ok {| filename := filename; config := config; src_dir := src_dir;
        is_lockfile := is_lockfile; is_external := is_external |}.

(** [IncludeHandler.get_lockfile] *)
Definition get_lockfile (self : IncludeHandler) (kasfile : option string)
  : result string :=
  file ← match kasfile with
         | Some f => if negb (f =? "") then Ok f
                     else match top_files self with
                          | f0 :: _ => Ok f0
                          | [] => Raise IndexError
                          end
         | None => match top_files self with
                   | f0 :: _ => Ok f0
                   | [] => Raise IndexError
                   end
         end;
  Ok (lock_sibling file).

Section get_config.

Variable sys : filesystem.
(** [repos], after [repos = repos or {}] *)
Variable repos : gmap string string.

(** [repos.get(includerepo, None)] *)
Definition repos_get (includerepo : value) : result (option string) :=
  match includerepo with
  | VStr key => Ok (repos !! key)
  | VList _ | VDict _ => Raise TypeError
  | _ => Ok None
  end.

Section includes.

(** The recursive call, and the variables of the enclosing call the
    loop body reads. *)
Variable recurse :
  IncludeHandler -> string -> value -> bool -> bool -> result visited.
Variable current_config : ConfigFile.
Variable repo_path : value.
Variable is_external : bool.

(** The file a local include names. *)
Definition local_includefile (include : string) : result string :=
  if startswith os_path.pathsep include then Ok include
  else
    root ← fspath repo_path;
    let includefile := os_path.abspath (cwd sys) (os_path.join root include) in
    if negb (path_exists sys includefile) then
      let alternate :=
        os_path.abspath (cwd sys)
          (os_path.join (os_path.dirname (filename current_config)) include) in
      if path_exists sys alternate then Ok alternate else Ok includefile
    else Ok includefile.

(** One turn of [for include in header.get('includes', [])]. *)
Definition include_step (self : IncludeHandler) (configs : list ConfigFile)
           (missing_repos : list value) (include : value) : result visited :=
  match include with
  | VStr inc =>
      includefile ← local_includefile inc;
      '(cfg, rep, self) ← recurse self includefile repo_path false is_external;
      Ok (configs ++ cfg, missing_repos ++ rep, self)
  | VDict inc =>
      let includerepo := from_option id VNone (dict_get "repo" inc) in
      includedir ← repos_get includerepo;
      match includedir with
      | Some includedir =>
          match dict_get "file" inc with
          | None => Raise (IncludeException "file is not specified")
          | Some includefile =>
              let abs_includedir := os_path.abspath (cwd sys) includedir in
              includefile ← fspath includefile;
              '(cfg, rep, self) ←
                recurse self (os_path.join abs_includedir includefile)
                        (VStr abs_includedir) false true;
              Ok (configs ++ cfg, missing_repos ++ rep, self)
          end
      | None => Ok (configs, missing_repos ++ [includerepo], self)
      end
  | _ => Ok (configs, missing_repos, self)
  end.

Fixpoint include_loop (includes : list value) (self : IncludeHandler)
         (configs : list ConfigFile) (missing_repos : list value)
  : result visited :=
  match includes with
  | [] => Ok (configs, missing_repos, self)
  | include :: rest =>
      '(configs, missing_repos, self) ←
        include_step self configs missing_repos include;
      include_loop rest self configs missing_repos
  end.

(** The documents an include contributes to [configs]: all the
    documents of one recursive call for a local include and for a
    cross-repository include of a known repository, none otherwise. *)
Definition include_block (include : value) (block : list ConfigFile) : Prop :=
  match include with
  | VStr inc =>
      exists includefile self rep self',
        local_includefile inc = Ok includefile
        /\ recurse self includefile repo_path false is_external
            = Ok (block, rep, self')
  | VDict inc =>
      match repos_get (from_option id VNone (dict_get "repo" inc)) with
      | Ok (Some includedir) =>
          exists includefile self rep self',
            dict_get "file" inc = Some (VStr includefile)
            /\ recurse self
                  (os_path.join (os_path.abspath (cwd sys) includedir) includefile)
                  (VStr (os_path.abspath (cwd sys) includedir)) false true
                = Ok (block, rep, self')
      | _ => block = []
      end
  | _ => block = []
  end.

End includes.

(** The statements of the [try] block after [current_config] is bound:
    the lock sibling is visited first, then [src_dir] takes over as
    repository root.  Returns the lists built so far, the handler and
    the local [repo_path]. *)
Definition try_block
           (recurse : IncludeHandler -> string -> value -> bool -> bool -> result visited)
           (self : IncludeHandler) (current_config : ConfigFile)
           (filename : string) (repo_path : value) (is_external : bool)
  : result (visited * value) :=
  lockfile ← get_lockfile self (Some filename);
  '(configs, missing_repos, self) ←
    (if use_lock self && path_exists sys lockfile
     then recurse self lockfile repo_path true is_external
     else Ok ([], [], self));
  if truthy (src_dir current_config)
  then Ok (configs, missing_repos,
           set_top_repo_path self (src_dir current_config),
           src_dir current_config)
  else Ok (configs, missing_repos, self, repo_path).

(** The statements after the [try] statement. *)
Definition after_try
           (recurse : IncludeHandler -> string -> value -> bool -> bool -> result visited)
           (dedup : bool) (current_config : ConfigFile) (is_external : bool)
           (state : visited * value) : result visited :=
  let '(configs, missing_repos, self, repo_path) := state in
  if negb (is_mapping (config current_config)) then
    Raise (IncludeException
             "Configuration file does not contain a dictionary as base type")
  else
    includes ← header_includes (config current_config);
    '(configs, missing_repos, self) ←
      include_loop recurse current_config repo_path is_external
                   includes self configs missing_repos;
    Ok (configs ++ [current_config],
        if dedup then fromkeys missing_repos else missing_repos,
        self).

(** The body of [_internal_include_handler].  When [ConfigFile(...)]
    raises [FileNotFoundError] the handler reads [current_config], which
    the failed assignment has left unbound.  [dedup] is true in the
    code; with false the unresolved keys are kept as met (used as the
    reference for the order of the missing repos). *)
Definition handler_body
           (recurse : IncludeHandler -> string -> value -> bool -> bool -> result visited)
           (dedup : bool) (self : IncludeHandler) (filename : string)
           (repo_path : value) (is_lockfile is_external : bool) : result visited :=
  match ConfigFile_init sys filename is_lockfile is_external with
  | Raise FileNotFoundError => Raise (UnboundLocalError "current_config")
  | Raise e => Raise e
  | OutOfFuel => OutOfFuel
  | Ok current_config =>
      match try_block recurse self current_config filename repo_path is_external with
      | Raise FileNotFoundError =>
          Raise (LoadConfigException ConfigurationFileNotFound
                                     (filename_of current_config))
      | Raise e => Raise e
      | OutOfFuel => OutOfFuel
      | Ok state => after_try recurse dedup current_config is_external state
      end
  end.

Fixpoint _internal_include_handler (fuel : nat) (self : IncludeHandler)
         (filename : string) (repo_path : value) (is_lockfile is_external : bool)
  : result visited :=
  match fuel with
  | O => OutOfFuel
  | S fuel =>
      handler_body (_internal_include_handler fuel) true
                   self filename repo_path is_lockfile is_external
  end.

(** The loop of [get_config] over [self.top_files]. *)
Fixpoint top_files_loop (fuel : nat) (files : list string) (self : IncludeHandler)
         (configs : list ConfigFile) (missing_repos : list value) : result visited :=
  match files with
  | [] => Ok (configs, missing_repos, self)
  | configfile :: rest =>
      '(cfgs, reps, self) ←
        _internal_include_handler fuel self configfile (top_repo_path self) false false;
      top_files_loop fuel rest self (configs ++ cfgs) (append_unseen missing_repos reps)
  end.

(** The ordered documents and the missing repos [get_config] has
    collected when it starts to merge. *)
Definition resolve (fuel : nat) (self : IncludeHandler) : result visited :=
  top_files_loop fuel (top_files self) self [] [].

(** [IncludeHandler.get_config] *)
Definition get_config (fuel : nat) (self : IncludeHandler)
  : result (value * list value * IncludeHandler) :=
  '(configs, missing_repos, self) ← resolve fuel self;
  config ← merge_configs configs;
  Ok (config, missing_repos, self).

(** The same traversal with every unresolved repository key kept as it
    is met, repeats included. *)
Fixpoint traversal (fuel : nat) (self : IncludeHandler)
         (filename : string) (repo_path : value) (is_lockfile is_external : bool)
  : result visited :=
  match fuel with
  | O => OutOfFuel
  | S fuel =>
      handler_body (traversal fuel) false
                   self filename repo_path is_lockfile is_external
  end.

Fixpoint top_files_traversal (fuel : nat) (files : list string) (self : IncludeHandler)
         (configs : list ConfigFile) (missing_repos : list value) : result visited :=
  match files with
  | [] => Ok (configs, missing_repos, self)
  | configfile :: rest =>
      '(cfgs, reps, self) ←
        traversal fuel self configfile (top_repo_path self) false false;
      top_files_traversal fuel rest self (configs ++ cfgs) (missing_repos ++ reps)
  end.

End get_config.

(** C5 as the specification words it: the visit of a lock document never
    brings in the lock sibling of that lock document. *)
Definition lock_sibling_never_visited : Prop :=
  forall sys repos fuel self file repo_path ie configs missing self',
    use_lock self = true ->
    _internal_include_handler sys repos fuel self file repo_path true ie
      = Ok (configs, missing, self') ->
    lock_sibling file ∉ map filename_of configs.

(** C7 as the specification words it: the visit of a document that lists
    a mapping-shaped include without a [file] key raises
    [IncludeException]. *)
Definition include_without_file_always_fails : Prop :=
  forall sys repos self file repo_path il ie current before inc after,
    ConfigFile_init sys file il ie = Ok current ->
    header_includes (config current) = Ok (before ++ VDict inc :: after) ->
    dict_get "file" inc = None ->
    exists fuel message,
      _internal_include_handler sys repos fuel self file repo_path il ie
        = Raise (IncludeException message).

(** [deduped] returns what [plain] returns, its keys reduced to their
    first occurrences. *)
Definition refines
           (deduped plain : IncludeHandler -> string -> value -> bool -> bool
                            -> result visited) : Prop :=
  forall self file repo_path il ie configs missing self',
    deduped self file repo_path il ie = Ok (configs, missing, self') ->
    exists raw, plain self file repo_path il ie = Ok (configs, raw, self')
                /\ missing = fromkeys raw.

(** What a merge step does to the store: it only adds objects, and the
    mapping it returns is the first of them. *)
Definition heap_merge_adds
           (depth : nat) (merge : Heap.heap -> Heap.ref -> Heap.ref
                                  -> result (Heap.heap * Heap.ref)) : Prop :=
  forall h dest upd,
    Heap.is_Mapping h dest = true -> Heap.is_Mapping h upd = true ->
    is_Some (Heap.reify depth h upd) ->
    exists new_objects,
      merge h dest upd = Ok (h ++ new_objects, Heap.RObj (length h))
      /\ Heap.is_Mapping (h ++ new_objects) (Heap.RObj (length h)) = true.

(** [r'] is what [r] becomes with more fuel: the same outcome, unless [r]
    had run out. *)
Definition settles {A} (r r' : result A) : Prop := r = OutOfFuel \/ r = r'.

(** The entries of a dict object read as the entries of a tree. *)
Definition reifies (depth : nat) (h : Heap.heap)
           (entries : list (string * Heap.ref)) (d : dict) : Prop :=
  Forall2 (fun e x => e.1 = x.1 /\ Heap.reify depth h e.2 = Some x.2) entries d.

(** Every dict object holds each of its keys once. *)
Definition heap_unique_keys (h : Heap.heap) : Prop :=
  forall l entries, h !! l = Some (Heap.ODict entries) -> NoDup (dict_keys entries).

(** On bodies that live in the part [p] of the store, the merger on the
    store returns a new mapping that reads as the result of the merger on
    trees, whatever else ([rest]) the store holds behind [p]. *)
Definition heap_merge_computes (depth : nat) (p : Heap.heap) : Prop :=
  forall rest dest upd d u,
    Heap.reify depth p dest = Some (VDict d) ->
    Heap.reify depth p upd = Some (VDict u) ->
    exists new merged,
      Heap._internal_dict_merge depth (p ++ rest) dest upd
        = Ok (p ++ rest ++ new, Heap.RObj (length (p ++ rest)))
      /\ _internal_dict_merge (VDict d) (VDict u) = Ok (VDict merged)
      /\ forall rest', length rest' = length rest ->
           Heap.reify depth (p ++ rest' ++ new) (Heap.RObj (length (p ++ rest)))
           = Some (VDict merged).

(** ** What a visit is made of

    The include loop read as a relation: what one include, and a list of
    them, contributes to [configs] and [missing_repos], and the handler it
    leaves. *)
Section contributions.

Variable sys : filesystem.
Variable repos : gmap string string.
Variable recurse :
  IncludeHandler -> string -> value -> bool -> bool -> result visited.
Variable current_config : ConfigFile.
Variable repo_path : value.
Variable is_external : bool.

Inductive include_outcome (self : IncludeHandler)
  : value -> list ConfigFile -> list value -> IncludeHandler -> Prop :=
| local_include inc includefile cfg rep self' :
    local_includefile sys current_config repo_path inc = Ok includefile ->
    recurse self includefile repo_path false is_external = Ok (cfg, rep, self') ->
    include_outcome self (VStr inc) cfg rep self'
| cross_include inc includedir includefile cfg rep self' :
    repos_get repos (from_option id VNone (dict_get "repo" inc)) = Ok (Some includedir) ->
    dict_get "file" inc = Some (VStr includefile) ->
    recurse self (os_path.join (os_path.abspath (cwd sys) includedir) includefile)
            (VStr (os_path.abspath (cwd sys) includedir)) false true
      = Ok (cfg, rep, self') ->
    include_outcome self (VDict inc) cfg rep self'
| missing_repo inc :
    repos_get repos (from_option id VNone (dict_get "repo" inc)) = Ok None ->
    include_outcome self (VDict inc) []
                    [from_option id VNone (dict_get "repo" inc)] self
| other_include include :
    match include with VStr _ | VDict _ => False | _ => True end ->
    include_outcome self include [] [] self.

Inductive loop_outcome
  : IncludeHandler -> list value -> list ConfigFile -> list value -> IncludeHandler
    -> Prop :=
| loop_done self : loop_outcome self [] [] [] self
| loop_turn self include rest cfg rep self1 cfgs reps self' :
    include_outcome self include cfg rep self1 ->
    loop_outcome self1 rest cfgs reps self' ->
    loop_outcome self (include :: rest) (cfg ++ cfgs) (rep ++ reps) self'.

End contributions.

(** What a visit may have done to the handler object: [top_files] and
    [use_lock] are as before, and [top_repo_path] is as before or the
    [src_dir] of one of the documents [docs]. *)
Definition handler_moved (self : IncludeHandler) (docs : list ConfigFile)
           (self' : IncludeHandler) : Prop :=
  top_files self' = top_files self /\ use_lock self' = use_lock self
  /\ (top_repo_path self' = top_repo_path self
      \/ exists d, d ∈ docs /\ truthy (src_dir d) = true
                   /\ top_repo_path self' = src_dir d).

(** If [r] is an [IncludeException], its message is [message]. *)
Definition only_IncludeException {A} (message : string) (r : result A) : Prop :=
  forall msg, r = Raise (IncludeException msg) -> msg = message.

(** The two ways a missing file could be reported: Python's own
    [FileNotFoundError], and the [LoadConfigException] the handler of
    [FileNotFoundError] is written to raise. *)
Definition reports_missing_file (e : exn) : bool :=
  match e with
  | FileNotFoundError => true
  | LoadConfigException ConfigurationFileNotFound _ => true
  | _ => false
  end.

Definition not_reported_missing {A} (r : result A) : Prop :=
  forall e, r = Raise e -> reports_missing_file e = false.

(** ** [Lock.run], once the checkout is done

    [ctx.config.repo_dict], [ctx.config.get_lockfiles()] and the default
    lock document come from outside these sources; the statements of [run]
    that work on them are embedded with them as arguments.  The lock
    documents are distinct objects. *)

(** [_filter_enabled] *)
Definition _filter_enabled (repos : list (string * Lock.Repo))
  : list (string * Lock.Repo) :=
  List.filter (fun '(_, r) => negb (Lock.operations_disabled r)) repos.

(** [not r.commit] *)
Definition not_commit (r : Lock.Repo) : bool :=
  match Lock.commit r with
  | None => true
  | Some c => c =? ""
  end.

(** [[(k, r) for k, r in _filter_enabled(self.repos) if not r.commit]] *)
Definition floating_repos (self : Lock.Lock) : list (string * Lock.Repo) :=
  List.filter (fun '(_, r) => not_commit r) (_filter_enabled (Lock.repos self)).

(** [for lock in lockfiles: repos_to_lock = self._update_lockfile(lock,
    repos_to_lock, args)]: the state every pass ended in, and the list
    that is left. *)
Fixpoint update_locks (self : Lock.Lock) (lockfiles : list ConfigFile)
         (repos_to_lock : list (string * Lock.Repo)) (passes : list Lock.pass)
  : result (list Lock.pass * list (string * Lock.Repo)) :=
  match lockfiles with
  | [] => Ok (passes, repos_to_lock)
  | lock :: rest =>
      st ← Lock._update_lockfile self lock repos_to_lock;
      update_locks self rest (Lock.returned st) (passes ++ [st])
  end.

(** [for kr, _ in repos_to_lock:
       lock.config['overrides']['repos'][kr] = {'commit': None}] *)
Fixpoint add_locks (lock : value) (repos_to_lock : list (string * Lock.Repo))
  : result value :=
  match repos_to_lock with
  | [] => Ok lock
  | (kr, _) :: rest =>
      overrides ← subscript lock "overrides";
      repos ← subscript overrides "repos";
      match repos with
      | VDict table =>
          add_locks (Lock.with_table lock (dict_set kr (VDict [("commit", VNone)]) table))
                    rest
      | _ => Raise TypeError
      end
  end.

(** The last statements of [run]: the uncovered repos get an entry
    without a commit in [lock], and a pass over [lock] fills them in. *)
Definition add_new_locks (self : Lock.Lock) (lock : ConfigFile)
           (repos_to_lock : list (string * Lock.Repo)) : result Lock.pass :=
  body ← add_locks (config lock) repos_to_lock;
  Lock._update_lockfile self
    {| filename := filename lock; config := body; src_dir := src_dir lock;
       is_lockfile := is_lockfile lock; is_external := is_external lock |}
    repos_to_lock.

(** ** More examples *)

(** A document whose only include is its own file. *)
Definition loop_doc : value :=
  VDict [("header", VDict [("version", VInt 14); ("includes", VList [VStr "loop.yml"])])].

Definition loop_sys : filesystem :=
  {| cwd := "/work";
     nodes := fun path =>
       if path =? "/work" then Some Directory
       else if path =? "/work/loop.yml" then Some (RegularFile (Parsed loop_doc))
       else None |}.

(** A second floating repo, which the lock document of the scenario has
    no entry for. *)
Definition r2 : Lock.Repo :=
  {| Lock.name := "r2"; Lock.path := "/work/build/r2"; Lock.commit := None;
     Lock.revision := Some "CCC"; Lock.operations_disabled := false |}.

(** ** Reasoning about values and dicts *)

Lemma bind_Ok {A B} (a : A) (k : A -> result B) : (x ← Ok a; k x) = k a.
Proof. reflexivity. Qed.

Lemma bind_Raise {A B} (e : exn) (k : A -> result B) : (x ← Raise e; k x) = Raise e.
Proof. reflexivity. Qed.

Lemma bind_OutOfFuel {A B} (k : A -> result B) : (x ← OutOfFuel; k x) = OutOfFuel.
Proof. reflexivity. Qed.

Lemma bind_Ok_inv {A B} (r : result A) (k : A -> result B) b :
(x ← r; k x) = Ok b -> exists a, r = Ok a /\ k a = Ok b.
Proof. destruct r; [ eauto | discriminate | discriminate ]. Qed.

Ltac bind_simpl :=
repeat (rewrite bind_Ok || rewrite bind_Raise || rewrite bind_OutOfFuel).


Section value_induction.
Variable P : value -> Prop.
Hypothesis HNone : P VNone.
Hypothesis HBool : forall b, P (VBool b).
Hypothesis HInt : forall n, P (VInt n).
Hypothesis HStr : forall s, P (VStr s).
Hypothesis HList : forall items, Forall P items -> P (VList items).
Hypothesis HDict : forall entries, Forall (fun e => P e.2) entries -> P (VDict entries).

Lemma value_nested_ind : forall v, P v.
Proof.
fix IH 1. intros [ | b | n | s | items | entries ].
- exact HNone.
- apply HBool.
- apply HInt.
- apply HStr.
- apply HList. induction items as [ | x xs IHxs ]; constructor;
    [ apply IH | exact IHxs ].
- apply HDict. induction entries as [ | [k x] es IHes ]; constructor;
    [ apply IH | exact IHes ].
Qed.
End value_induction.

Lemma dict_get_set_eq {A} key (v : A) d : dict_get key (dict_set key v d) = Some v.
Proof.
induction d as [ | [k x] rest IH ]; simpl.
- by rewrite String.eqb_refl.
- destruct (String.eqb k key) eqn:E; simpl; rewrite E; auto.
Qed.

Lemma dict_get_set_ne {A} key key' (v : A) d :
key <> key' -> dict_get key' (dict_set key v d) = dict_get key' d.
Proof.
intros Hne. induction d as [ | [k x] rest IH ]; simpl.
- destruct (String.eqb_spec key key'); congruence.
- destruct (String.eqb_spec k key) as [-> | Hk]; simpl.
  + destruct (String.eqb_spec key key'); congruence.
  + destruct (String.eqb_spec k key'); auto.
Qed.

Lemma dict_set_same {A} key (v : A) d : dict_get key d = Some v -> dict_set key v d = d.
Proof.
induction d as [ | [k x] rest IH ]; simpl; [ discriminate | ].
destruct (String.eqb k key); intros H.
- congruence.
- by rewrite IH.
Qed.

Lemma dict_keys_set {A} key (v : A) d k :
k ∈ dict_keys (dict_set key v d) <-> k = key \/ k ∈ dict_keys d.
Proof.
unfold dict_keys. induction d as [ | [k0 x] rest IH ]; simpl.
- rewrite list_elem_of_singleton. split; [ auto | intros [ | H ]; [ done | ] ].
  by apply elem_of_nil in H.
- destruct (String.eqb_spec k0 key) as [-> | Hk]; simpl.
  + rewrite !elem_of_cons. split; [ intros [ | ]; auto | intros [ | [ | ] ]; auto ].
  + rewrite !elem_of_cons, IH.
    split; [ intros [ | [ | ] ]; auto | intros [ | [ | ] ]; auto ].
Qed.

Lemma dict_get_None {A} key (d : list (string * A)) : dict_get key d = None <-> key ∉ dict_keys d.
Proof.
unfold dict_keys. induction d as [ | [k x] rest IH ]; simpl.
- split; [ intros _; apply not_elem_of_nil | done ].
- rewrite not_elem_of_cons. destruct (String.eqb_spec k key) as [-> | Hk].
  + split; [ discriminate | intros [Hk _]; by destruct Hk ].
  + rewrite IH. split; [ auto | intros [_ Hr]; exact Hr ].
Qed.

Lemma dict_get_Some_key {A} key (v : A) d : dict_get key d = Some v -> key ∈ dict_keys d.
Proof.
intros H. destruct (decide (key ∈ dict_keys d)) as [ | Hn ]; auto.
apply dict_get_None in Hn. congruence.
Qed.

Lemma has_key_spec {A} key (d : list (string * A)) : has_key key d = true <-> key ∈ dict_keys d.
Proof.
unfold has_key. rewrite existsb_exists. split.
- intros (k & Hin & Heq). apply String.eqb_eq in Heq. subst.
  by apply list_elem_of_In.
- intros Hin. exists key. split; [ by apply list_elem_of_In | apply String.eqb_refl ].
Qed.

Lemma keys_intersect_false {A} (dest upd : list (string * A)) :
keys_intersect dest upd = false ->
forall k, k ∈ dict_keys dest -> k ∉ dict_keys upd.
Proof.
unfold keys_intersect. intros H k Hk Hu.
assert (existsb (fun k => has_key k upd) (dict_keys dest) = true); [ | congruence ].
apply existsb_exists. exists k. split; [ by apply list_elem_of_In | by apply has_key_spec ].
Qed.

(** Entry lookup in a dict with unique keys. *)
Lemma dict_get_entry {A} key (v : A) d :
NoDup (dict_keys d) -> (key, v) ∈ d -> dict_get key d = Some v.
Proof.
unfold dict_keys. induction d as [ | [k x] rest IH ]; simpl; intros Hnd Hin.
- by apply elem_of_nil in Hin.
- apply NoDup_cons in Hnd as [Hk Hnd]. apply elem_of_cons in Hin as [Heq | Hin].
  + inversion Heq; subst. by rewrite String.eqb_refl.
  + destruct (String.eqb_spec k key) as [-> | _]; auto.
    exfalso. apply Hk. apply list_elem_of_fmap. by exists (key, v).
Qed.

Lemma _internal_dict_merge_unfold d u :
_internal_dict_merge (VDict d) (VDict u) =
if keys_intersect d u then merge_loop d u else Ok (VDict (dict_update d u)).
Proof.
simpl. destruct (keys_intersect d u); [ | done ].
generalize d. induction u as [ | [key val] rest IH ]; intros dest; [ done | ].
simpl. destruct (dict_get key dest) as [ [ | | | | | sub ] | ]; try apply IH.
destruct val; try apply IH.
destruct (_internal_dict_merge (VDict sub) (VDict entries)); simpl; [ apply IH | done | done ].
Qed.

Lemma merge_loop_total items :
Forall (fun e => forall d u, e.2 = VDict u ->
          exists r, _internal_dict_merge (VDict d) (VDict u) = Ok (VDict r)) items ->
forall dest, exists r, merge_loop dest items = Ok (VDict r).
Proof.
induction 1 as [ | [key val] rest Hval _ IH ]; intros dest; simpl.
- eauto.
- destruct (dict_get key dest) as [ [ | | | | | sub ] | ]; try apply IH.
  destruct val as [ | | | | | u ]; try apply IH.
  destruct (Hval sub u eq_refl) as [r ->]. simpl. apply IH.
Qed.

Lemma _internal_dict_merge_total u d :
exists r, _internal_dict_merge (VDict d) (VDict u) = Ok (VDict r).
Proof.
revert d. generalize (eq_refl (VDict u)). generalize (VDict u) at 1 as v.
intros v. revert u. induction v using value_nested_ind; try discriminate.
intros u [= <-] d. rewrite _internal_dict_merge_unfold.
destruct (keys_intersect d entries); [ | eauto ].
apply merge_loop_total. eapply Forall_impl; [ exact H | ].
intros [k x] IHx d' u' Hx. simpl in IHx, Hx. by apply IHx.
Qed.

Lemma dict_update_get {A} (dest items : list (string * A)) :
NoDup (dict_keys items) ->
(forall key val, (key, val) ∈ items -> dict_get key (dict_update dest items) = Some val)
/\ (forall key, key ∉ dict_keys items ->
      dict_get key (dict_update dest items) = dict_get key dest).
Proof.
unfold dict_keys. revert dest.
induction items as [ | [k v] rest IH ]; intros dest Hnd; simpl.
- split; [ intros ? ? Hin; by apply elem_of_nil in Hin | done ].
- apply NoDup_cons in Hnd as [Hk Hnd]. destruct (IH (dict_set k v dest) Hnd) as [IHa IHb].
  split.
  + intros key val Hin. apply elem_of_cons in Hin as [[= -> ->] | Hin]; [ | by apply IHa ].
    rewrite IHb by done. apply dict_get_set_eq.
  + intros key Hn. apply not_elem_of_cons in Hn as [Hne Hn].
    rewrite IHb by done. by apply dict_get_set_ne.
Qed.

Lemma merge_loop_get items :
NoDup (dict_keys items) ->
forall dest r, merge_loop dest items = Ok (VDict r) ->
(forall key val, (key, val) ∈ items ->
   exists v', dict_get key r = Some v' /\ merge_rule (dict_get key dest) val v')
/\ (forall key, key ∉ dict_keys items -> dict_get key r = dict_get key dest).
Proof.
unfold dict_keys.
induction items as [ | [k v] rest IH ]; intros Hnd dest r Hr; simpl in Hnd, Hr |- *.
- injection Hr as <-. split; [ intros ? ? Hin; by apply elem_of_nil in Hin | done ].
- apply NoDup_cons in Hnd as [Hk Hnd].
  assert (exists ret, merge_loop (dict_set k ret dest) rest = Ok (VDict r)
                      /\ merge_rule (dict_get k dest) v ret) as (ret & Hloop & Hrule).
  { unfold merge_rule.
    destruct (dict_get k dest) as [ [ | | | | | sub ] | ]; eauto.
    destruct v as [ | | | | | u ]; eauto.
    destruct (_internal_dict_merge (VDict sub) (VDict u)) as [ret | | ]; [ | done | done ].
    simpl in Hr. eauto. }
  destruct (IH Hnd _ _ Hloop) as [IHa IHb]. split.
  + intros key val Hin. apply elem_of_cons in Hin as [[= -> ->] | Hin].
    * exists ret. split; [ | done ]. rewrite IHb by done. apply dict_get_set_eq.
    * destruct (IHa key val Hin) as (v' & Hget & Hv'). exists v'. split; [ done | ].
      rewrite dict_get_set_ne in Hv'; [ done | ].
      intros ->. apply Hk. apply list_elem_of_fmap. by exists (key, val).
  + intros key Hn. apply not_elem_of_cons in Hn as [Hne Hn].
    rewrite IHb by done. by apply dict_get_set_ne.
Qed.

Lemma dict_update_keys {A} (dest items : list (string * A)) key :
key ∈ dict_keys (dict_update dest items) <->
key ∈ dict_keys dest \/ key ∈ dict_keys items.
Proof.
revert dest. induction items as [ | [k v] rest IH ]; intros dest; simpl.
- split; [ auto | intros [ | H ]; [ done | by apply elem_of_nil in H ] ].
- rewrite IH, dict_keys_set, elem_of_cons. simpl.
  split; [ intros [ [ | ] | ]; auto | intros [ | [ | ] ]; auto ].
Qed.

Lemma merge_loop_keys items :
forall dest r key, merge_loop dest items = Ok (VDict r) ->
key ∈ dict_keys r <-> key ∈ dict_keys dest \/ key ∈ dict_keys items.
Proof.
induction items as [ | [k v] rest IH ]; intros dest r key Hr; simpl in Hr |- *.
- injection Hr as <-.
  split; [ auto | intros [ | H ]; [ done | by apply elem_of_nil in H ] ].
- assert (exists ret, merge_loop (dict_set k ret dest) rest = Ok (VDict r))
    as (ret & Hloop).
  { destruct (dict_get k dest) as [ [ | | | | | sub ] | ]; eauto.
    destruct v as [ | | | | | u ]; eauto.
    destruct (_internal_dict_merge (VDict sub) (VDict u)) as [ret | | ]; [ | done | done ].
    simpl in Hr. eauto. }
  rewrite (IH _ _ _ Hloop), dict_keys_set, elem_of_cons.
  split; [ intros [ [ | ] | ]; auto | intros [ | [ | ] ]; auto ].
Qed.

Lemma _internal_dict_merge_keys d u r key :
_internal_dict_merge (VDict d) (VDict u) = Ok (VDict r) ->
key ∈ dict_keys r <-> key ∈ dict_keys d \/ key ∈ dict_keys u.
Proof.
rewrite _internal_dict_merge_unfold. destruct (keys_intersect d u).
- apply merge_loop_keys.
- intros [= <-]. apply dict_update_keys.
Qed.

Lemma dict_get_In {A} key (val : A) d : dict_get key d = Some val -> (key, val) ∈ d.
Proof.
induction d as [ | [k x] rest IH ]; simpl; [ discriminate | ].
destruct (String.eqb_spec k key) as [-> | _].
- intros [= ->]. apply elem_of_cons. auto.
- intros H. apply elem_of_cons. auto.
Qed.

Lemma reduce_merge_keys (others : list dict) : forall acc : dict,
exists merged,
  fold_left (fun acc body => a ← acc; _internal_dict_merge a body)
            (map VDict others) (Ok (VDict acc)) = Ok (VDict merged)
  /\ forall key, key ∈ dict_keys merged <->
       key ∈ dict_keys acc \/ exists body, body ∈ others /\ key ∈ dict_keys body.
Proof.
induction others as [ | b bs IH ]; intros acc; cbn [fold_left map].
- exists acc. split; [ done | ]. intros key. split; [ auto | ].
  intros [ | (body & Hb & _) ]; [ done | by apply elem_of_nil in Hb ].
- destruct (_internal_dict_merge_total b acc) as [r Hr].
  rewrite bind_Ok, Hr.
  destruct (IH r) as (merged & -> & Hkeys). exists merged. split; [ done | ].
  intros key. rewrite Hkeys, (_internal_dict_merge_keys _ _ _ _ Hr). split.
  + intros [ [ | Hb ] | (body & Hin & Hk) ]; auto.
    * right. exists b. split; [ apply elem_of_cons; auto | done ].
    * right. exists body. split; [ apply elem_of_cons; auto | done ].
  + intros [ | (body & Hin & Hk) ]; auto.
    apply elem_of_cons in Hin as [-> | Hin]; eauto.
Qed.

Lemma unique_keysb_dict entries :
unique_keysb (VDict entries) = true ->
NoDup (dict_keys entries) /\ Forall (fun e => unique_keysb e.2 = true) entries.
Proof.
simpl. intros H. apply andb_prop in H as [Hnd Hall].
split; [ by apply bool_decide_eq_true in Hnd | ].
clear Hnd. induction entries as [ | [k x] rest IH ]; constructor.
- simpl. by apply andb_prop in Hall as [? _].
- apply IH. by apply andb_prop in Hall as [_ ?].
Qed.

Lemma merge_loop_self (d : dict) :
NoDup (dict_keys d) ->
Forall (fun e => forall u, e.2 = VDict u ->
          _internal_dict_merge (VDict u) (VDict u) = Ok (VDict u)) d ->
forall items, (forall e, e ∈ items -> e ∈ d) -> merge_loop d items = Ok (VDict d).
Proof.
intros Hnd Hself.
induction items as [ | [key val] rest IH ]; intros Hsub; simpl; [ done | ].
assert (Hin : (key, val) ∈ d) by (apply Hsub, elem_of_cons; auto).
assert (Hrest : merge_loop d rest = Ok (VDict d)).
{ apply IH. intros e He. apply Hsub, elem_of_cons. auto. }
pose proof (dict_get_entry _ _ _ Hnd Hin) as Hget. rewrite Hget.
destruct val as [ | | | | | u ]; try (by rewrite (dict_set_same _ _ _ Hget)).
rewrite Forall_forall in Hself.
rewrite (Hself (key, VDict u)); [ | done | done ].
rewrite bind_Ok. by rewrite (dict_set_same _ _ _ Hget).
Qed.

Lemma _internal_dict_merge_self v :
forall d, v = VDict d -> unique_keysb v = true -> _internal_dict_merge v v = Ok v.
Proof.
induction v as [ | | | | | entries IH ] using value_nested_ind; try discriminate.
intros d _ Huk. apply unique_keysb_dict in Huk as [Hnd Hall].
rewrite _internal_dict_merge_unfold.
destruct (keys_intersect entries entries) eqn:Hint.
- apply merge_loop_self; auto.
  rewrite Forall_forall in Hall, IH |- *. intros e He u Hu.
  rewrite <- Hu. eapply IH; eauto.
- destruct entries as [ | [k x] rest ]; [ done | ].
  exfalso. eapply (keys_intersect_false _ _ Hint k); simpl; apply elem_of_cons; auto.
Qed.

(** C9: folding a document with itself gives back its body,
  [merge([D, D]) == D.body], for every document whose body is a mapping
  (a Python dict, so no key occurs twice at any level). *)
Theorem C9_merge_idempotent (D : ConfigFile) :
is_mapping (config D) = true ->
unique_keysb (config D) = true ->
merge_configs [D; D] = Ok (config D).
Proof.
intros Hmap Huk. unfold merge_configs, reduce_merge. cbn [map fold_left].
rewrite bind_Ok. destruct (config D) as [ | | | | | d ] eqn:E; try discriminate.
by eapply _internal_dict_merge_self.
Qed.

(** C2: one merge step treats every key of the incoming body by the rule
  (both values mappings: merged by the same function; otherwise the
  incoming value replaces), keeps the value of every other key, and the
  fold over the whole document sequence has as key set the union of the
  key sets of all bodies. *)
Theorem C2_merge_step_and_key_union (acc incoming : dict) (others : list dict) :
NoDup (dict_keys incoming) ->
(exists merged,
    _internal_dict_merge (VDict acc) (VDict incoming) = Ok (VDict merged)
    /\ (forall key val, dict_get key incoming = Some val ->
          exists v', dict_get key merged = Some v'
                     /\ merge_rule (dict_get key acc) val v')
    /\ (forall key, dict_get key incoming = None ->
          dict_get key merged = dict_get key acc))
/\ (exists merged,
      reduce_merge (map VDict (acc :: others)) = Ok (VDict merged)
      /\ forall key, key ∈ dict_keys merged <->
           exists body, body ∈ acc :: others /\ key ∈ dict_keys body).
Proof.
intros Hnd. split.
- destruct (_internal_dict_merge_total incoming acc) as [merged Hm].
  exists merged. split; [ done | ].
  rewrite _internal_dict_merge_unfold in Hm.
  destruct (keys_intersect acc incoming) eqn:Hint.
  + destruct (merge_loop_get _ Hnd _ _ Hm) as [Ha Hb]. split.
    * intros key val Hget. apply Ha. by apply dict_get_In.
    * intros key Hget. apply Hb. by apply dict_get_None.
  + injection Hm as <-. destruct (dict_update_get acc incoming Hnd) as [Ha Hb]. split.
    * intros key val Hget. exists val. split; [ by apply Ha, dict_get_In | ].
      assert (dict_get key acc = None) as ->; [ | done ].
      apply dict_get_None. intros Hk.
      by apply (keys_intersect_false _ _ Hint key Hk), (dict_get_Some_key _ val).
    * intros key Hget. apply Hb. by apply dict_get_None.
- destruct (reduce_merge_keys others acc) as (merged & Hm & Hkeys).
  exists merged. split; [ exact Hm | ].
  intros key. rewrite Hkeys. split.
  + intros [ | (body & Hin & Hk) ].
    * exists acc. split; [ apply elem_of_cons; auto | done ].
    * exists body. split; [ apply elem_of_cons; auto | done ].
  + intros (body & Hin & Hk). apply elem_of_cons in Hin as [-> | Hin]; eauto.
Qed.

(** ** The loader *)

(** C6: the version of a document is what its [header.version] holds:
  an integer as it stands, a string as [int] reads it, and 1 for a
  string [int] refuses (a truth value counts as 1 or 0, as [int] has
  it).  For a document that parses and validates, loading fails with
  [LoadConfigException] when this number lies outside
  [[__compatible_file_version__, __file_version__]], and returns the
  document when it lies inside. *)
Theorem C6_version_window sys filename top header version n :
recognized_extension filename = true ->
stat sys filename = Found (RegularFile (Parsed (VDict top))) ->
schema_valid (VDict top) = true ->
dict_get "header" top = Some (VDict header) ->
dict_get "version" header = Some version ->
(version = VInt n
 \/ (exists b : bool, version = VBool b /\ n = if b then 1%Z else 0%Z)
 \/ (exists s, version = VStr s /\ n = from_option id 1%Z (int_of_str s))) ->
((n < __compatible_file_version__ \/ __file_version__ < n)%Z ->
   _load_config sys filename =
     Raise (LoadConfigException (IncompatibleVersion n) filename))
/\ ((__compatible_file_version__ <= n <= __file_version__)%Z ->
      _load_config sys filename =
        Ok (VDict top, from_option id VNone (dict_get SOURCE_DIR_OVERRIDE_KEY top))).
Proof.
intros Hext Hstat Hvalid Hheader Hversion Hreads.
assert (Hver : version_value (VDict top) = Ok n).
{ unfold version_value, subscript. rewrite Hheader, bind_Ok, Hversion, bind_Ok.
  destruct Hreads as [ -> | [ (b & -> & ->) | (s & -> & ->) ] ]; [ done | done | ].
  unfold py_int. by destruct (int_of_str s). }
unfold _load_config.
fold (recognized_extension filename). rewrite Hext, Hstat, Hvalid, Hver.
cbn [negb]. rewrite bind_Ok. split.
- intros Hout.
  assert ((n <? __compatible_file_version__)%Z || (n >? __file_version__)%Z = true)
    as ->; [ | done ].
  apply orb_true_iff. rewrite Z.ltb_lt, Z.gtb_gt. lia.
- intros Hin.
  assert ((n <? __compatible_file_version__)%Z || (n >? __file_version__)%Z = false)
    as ->; [ | done ].
  apply orb_false_iff. rewrite Z.ltb_ge, Z.gtb_ltb, Z.ltb_ge. lia.
Qed.

Lemma recognized_extension_nonempty filename :
recognized_extension filename = true -> (filename =? "") = false.
Proof. destruct filename; [ discriminate | done ]. Qed.

Lemma _load_config_not_found sys filename :
recognized_extension filename = true ->
stat sys filename = NoEntry ->
_load_config sys filename = Raise FileNotFoundError.
Proof.
intros Hext Hstat. unfold _load_config.
fold (recognized_extension filename). by rewrite Hext, Hstat.
Qed.

Lemma _load_config_Ok_extension sys filename r :
_load_config sys filename = Ok r -> recognized_extension filename = true.
Proof.
unfold _load_config. fold (recognized_extension filename).
by destruct (recognized_extension filename).
Qed.

Lemma ConfigFile_init_Ok sys file il ie c :
ConfigFile_init sys file il ie = Ok c ->
filename_of c = file /\ is_lockfile c = il /\ is_external c = ie
/\ recognized_extension file = true.
Proof.
unfold ConfigFile_init. destruct (_load_config sys file) as [ [cfg sd] | | ] eqn:E;
  [ | discriminate | discriminate ].
intros [= <-]. repeat split; eauto using _load_config_Ok_extension.
Qed.

(** ** The include resolver *)

Section handler_facts.

Variable sys : filesystem.
Variable repos : gmap string string.
Variable recurse : IncludeHandler -> string -> value -> bool -> bool -> result visited.

Lemma handler_body_Ok dedup self file repo_path il ie r :
handler_body sys repos recurse dedup self file repo_path il ie = Ok r ->
exists current state,
  ConfigFile_init sys file il ie = Ok current
  /\ try_block sys recurse self current file repo_path ie = Ok state
  /\ after_try sys repos recurse dedup current ie state = Ok r.
Proof.
unfold handler_body.
destruct (ConfigFile_init sys file il ie) as [ current | [] | ]; try discriminate.
destruct (try_block sys recurse self current file repo_path ie)
  as [ state | [] | ] eqn:Htry; try discriminate.
intros Hafter. exists current, state. auto.
Qed.

Lemma try_block_Ok self current file repo_path ie configs missing self' repo_path' :
recognized_extension file = true ->
try_block sys recurse self current file repo_path ie
  = Ok (configs, missing, self', repo_path') ->
exists self1,
  (if use_lock self && path_exists sys (lock_sibling file)
   then recurse self (lock_sibling file) repo_path true ie
   else Ok ([], [], self)) = Ok (configs, missing, self1)
  /\ use_lock self' = use_lock self1.
Proof.
intros Hext. unfold try_block, get_lockfile.
rewrite (recognized_extension_nonempty _ Hext). cbn [negb]. rewrite !bind_Ok.
intros H. apply bind_Ok_inv in H as (a & Hlock & H).
destruct a as [[c m] s].
destruct (truthy (src_dir current)); simplify_eq; eauto.
Qed.

End handler_facts.

Section resolver_facts.

Variable sys : filesystem.
Variable repos : gmap string string.
Variable recurse : IncludeHandler -> string -> value -> bool -> bool -> result visited.

Lemma after_try_Ok dedup current ie configs0 missing0 self0 repo_path r :
after_try sys repos recurse dedup current ie (configs0, missing0, self0, repo_path)
  = Ok r ->
exists includes configs missing self',
  is_mapping (config current) = true
  /\ header_includes (config current) = Ok includes
  /\ include_loop sys repos recurse current repo_path ie
                  includes self0 configs0 missing0 = Ok (configs, missing, self')
  /\ r = (configs ++ [current], if dedup then fromkeys missing else missing, self').
Proof.
unfold after_try. destruct (is_mapping (config current)); [ | discriminate ].
cbn [negb]. intros H.
apply bind_Ok_inv in H as (includes & Hinc & H).
apply bind_Ok_inv in H as ([[configs missing] self'] & Hloop & H).
injection H as <-. exists includes, configs, missing, self'. auto.
Qed.

Lemma include_step_block current repo_path ie self configs missing include r :
include_step sys repos recurse current repo_path ie self configs missing include
  = Ok r ->
exists block, include_block sys repos recurse current repo_path ie include block
              /\ r.1.1 = configs ++ block.
Proof.
unfold include_step, include_block.
destruct include as [ | | | inc | | inc ];
  try (intros [= <-]; exists []; by rewrite app_nil_r).
- intros H. apply bind_Ok_inv in H as (includefile & Hfile & H).
  apply bind_Ok_inv in H as ([[cfg rep] self'] & Hrec & H).
  injection H as <-. exists cfg. split; [ | done ].
  exists includefile, self, rep, self'. auto.
- intros H. apply bind_Ok_inv in H as (includedir & Hdir & H). rewrite Hdir.
  destruct includedir as [includedir | ].
  + destruct (dict_get "file" inc) as [ includefile | ]; [ | discriminate ].
    apply bind_Ok_inv in H as (file & Hfile & H).
    apply bind_Ok_inv in H as ([[cfg rep] self'] & Hrec & H).
    injection H as <-. exists cfg. split; [ | done ].
    destruct includefile; try discriminate. injection Hfile as ->.
    exists file, self, rep, self'. auto.
  + injection H as <-. exists []. by rewrite app_nil_r.
Qed.

Lemma include_step_local current repo_path ie self configs missing inc
    includefile cfg rep self' :
local_includefile sys current repo_path inc = Ok includefile ->
recurse self includefile repo_path false ie = Ok (cfg, rep, self') ->
include_step sys repos recurse current repo_path ie self configs missing (VStr inc)
  = Ok (configs ++ cfg, missing ++ rep, self').
Proof. intros Hfile Hrec. unfold include_step. by rewrite Hfile, bind_Ok, Hrec. Qed.

Lemma include_step_unknown_repo current repo_path ie self configs missing inc :
repos_get repos (from_option id VNone (dict_get "repo" inc)) = Ok None ->
include_step sys repos recurse current repo_path ie self configs missing (VDict inc)
  = Ok (configs, missing ++ [from_option id VNone (dict_get "repo" inc)], self).
Proof. intros Hrepo. unfold include_step. by rewrite Hrepo. Qed.

Lemma include_step_known_repo current repo_path ie self configs missing inc
    includedir includefile cfg rep self' :
repos_get repos (from_option id VNone (dict_get "repo" inc)) = Ok (Some includedir) ->
dict_get "file" inc = Some (VStr includefile) ->
recurse self (os_path.join (os_path.abspath (cwd sys) includedir) includefile)
        (VStr (os_path.abspath (cwd sys) includedir)) false true
  = Ok (cfg, rep, self') ->
include_step sys repos recurse current repo_path ie self configs missing (VDict inc)
  = Ok (configs ++ cfg, missing ++ rep, self').
Proof.
intros Hrepo Hfile Hrec. unfold include_step.
rewrite Hrepo, bind_Ok, Hfile. cbn [fspath]. by rewrite bind_Ok, Hrec.
Qed.

Lemma include_loop_blocks current repo_path ie includes :
forall self configs missing r,
include_loop sys repos recurse current repo_path ie includes self configs missing
  = Ok r ->
exists blocks,
  Forall2 (include_block sys repos recurse current repo_path ie) includes blocks
  /\ r.1.1 = configs ++ concat blocks.
Proof.
induction includes as [ | include rest IH ]; intros self configs missing r; simpl.
- intros [= <-]. exists []. split; [ constructor | by rewrite app_nil_r ].
- intros H. apply bind_Ok_inv in H as ([[c m] s] & Hstep & H).
  apply include_step_block in Hstep as (block & Hblock & Hc). simpl in Hc. subst c.
  apply IH in H as (blocks & Hblocks & ->).
  exists (block :: blocks). split; [ by constructor | ].
  simpl. by rewrite app_assoc.
Qed.

End resolver_facts.

Section visit.

Variable sys : filesystem.
Variable repos : gmap string string.

Abbreviation visit := (_internal_include_handler sys repos).

(** A missing file with a known extension: the [except] clause fails on
  the unbound [current_config]. *)
Lemma visit_missing_file fuel self file repo_path il ie :
recognized_extension file = true ->
stat sys file = NoEntry ->
visit (S fuel) self file repo_path il ie = Raise (UnboundLocalError "current_config").
Proof.
intros Hext Hstat. cbn [_internal_include_handler].
unfold handler_body, ConfigFile_init.
by rewrite (_load_config_not_found _ _ Hext Hstat).
Qed.

(** A file whose extension is not known is rejected before it is opened. *)
Lemma visit_unknown_extension fuel self file repo_path il ie :
recognized_extension file = false ->
visit (S fuel) self file repo_path il ie
  = Raise (LoadConfigException ExtensionNotRecognized file).
Proof.
intros Hext. cbn [_internal_include_handler].
unfold handler_body, ConfigFile_init, _load_config.
fold (recognized_extension file). by rewrite Hext.
Qed.

(** The shape of every successful visit: the documents of the lock
  sibling (if it is visited), then one block per include in listed
  order, then the document itself. *)
Lemma visit_children_before_parent fuel self file repo_path il ie configs missing self' :
visit (S fuel) self file repo_path il ie = Ok (configs, missing, self') ->
exists current lock_block includes blocks repo_path',
  ConfigFile_init sys file il ie = Ok current
  /\ (if use_lock self && path_exists sys (lock_sibling file)
      then exists rep self1,
             visit fuel self (lock_sibling file) repo_path true ie
               = Ok (lock_block, rep, self1)
      else lock_block = [])
  /\ header_includes (config current) = Ok includes
  /\ Forall2 (include_block sys repos (visit fuel) current repo_path' ie)
             includes blocks
  /\ configs = lock_block ++ concat blocks ++ [current].
Proof.
cbn [_internal_include_handler]. intros H.
apply handler_body_Ok in H as (current & [[[c0 m0] s0] rp'] & Hinit & Htry & Hafter).
pose proof (ConfigFile_init_Ok _ _ _ _ _ Hinit) as (_ & _ & _ & Hext).
apply (try_block_Ok _ _ _ _ _ _ _ _ _ _ _ Hext) in Htry as (self1 & Hlock & _).
apply after_try_Ok in Hafter as (includes & c & m & s & _ & Hinc & Hloop & Hr).
apply include_loop_blocks in Hloop as (blocks & Hblocks & Hc). simpl in Hc.
injection Hr as -> _ _. subst c.
exists current, c0, includes, blocks, rp'. repeat split; auto.
- destruct (use_lock self && path_exists sys (lock_sibling file)).
  + eauto.
  + by injection Hlock as <- _ _.
- by rewrite app_assoc.
Qed.

Lemma visit_last fuel self file repo_path il ie configs missing self' :
visit fuel self file repo_path il ie = Ok (configs, missing, self') ->
exists before current,
  configs = before ++ [current]
  /\ filename_of current = file /\ is_lockfile current = il
  /\ is_external current = ie.
Proof.
destruct fuel as [ | fuel ]; [ discriminate | ]. intros H.
apply visit_children_before_parent in H
  as (current & lb & incs & blocks & rp' & Hinit & _ & _ & _ & ->).
apply ConfigFile_init_Ok in Hinit as (Hf & Hl & He & _).
exists (lb ++ concat blocks), current. by rewrite app_assoc.
Qed.

(** C5 (as amended): with [use_lock] on, the visit of a lock document
  looks for the lock sibling of that lock document like the visit of any
  other document.  If it exists it is visited as a lock document and its
  documents come first in the result; only if it does not exist does the
  result hold no lock-sibling block for this level. *)
Theorem C5_lock_sibling_of_lock_document
      fuel self file repo_path ie configs missing self' :
use_lock self = true ->
visit (S fuel) self file repo_path true ie = Ok (configs, missing, self') ->
(path_exists sys (lock_sibling file) = true ->
   exists cfg rep self1 rest doc,
     visit fuel self (lock_sibling file) repo_path true ie = Ok (cfg, rep, self1)
     /\ configs = cfg ++ rest
     /\ doc ∈ cfg /\ filename_of doc = lock_sibling file /\ is_lockfile doc = true)
/\ (path_exists sys (lock_sibling file) = false ->
      exists current includes blocks repo_path',
        ConfigFile_init sys file true ie = Ok current
        /\ header_includes (config current) = Ok includes
        /\ Forall2 (include_block sys repos (visit fuel) current repo_path' ie)
                   includes blocks
        /\ configs = concat blocks ++ [current]).
Proof.
intros Hlock H.
apply visit_children_before_parent in H
  as (current & lb & incs & blocks & rp' & Hinit & Hsib & Hinc & Hblocks & ->).
rewrite Hlock in Hsib. cbn [andb] in Hsib. split; intros Hex; rewrite Hex in Hsib.
- destruct Hsib as (rep & self1 & Hvisit).
  destruct (visit_last _ _ _ _ _ _ _ _ _ Hvisit) as (before & doc & -> & Hf & Hl & _).
  exists (before ++ [doc]), rep, self1, (concat blocks ++ [current]), doc.
  repeat split; auto. apply elem_of_app. right. apply list_elem_of_singleton. done.
- subst lb. exists current, incs, blocks, rp'. auto.
Qed.

End visit.

Section missing_file_key.

Variable sys : filesystem.
Variable repos : gmap string string.

Lemma include_loop_app recurse current repo_path ie before after :
forall self configs missing configs1 missing1 self1,
include_loop sys repos recurse current repo_path ie before self configs missing
  = Ok (configs1, missing1, self1) ->
include_loop sys repos recurse current repo_path ie (before ++ after)
             self configs missing
= include_loop sys repos recurse current repo_path ie after self1 configs1 missing1.
Proof.
induction before as [ | include rest IH ]; intros self configs missing c1 m1 s1; simpl.
- by intros [= -> -> ->].
- intros H. apply bind_Ok_inv in H as ([[c m] s] & Hstep & H).
  rewrite Hstep, bind_Ok. by apply IH.
Qed.

(** C7 (as amended): a mapping-shaped include without a [file] key makes
  the visit fail with [IncludeException] when its repository is among
  the known repos and the visit gets to the entry (the document loads
  and the includes listed before it resolve); when its repository is
  not known, the entry only adds the repository to the missing repos. *)
Theorem C7_missing_file_key
      fuel self file repo_path il ie current configs0 missing0 self0 repo_path'
      before inc after configs1 missing1 self1 :
ConfigFile_init sys file il ie = Ok current ->
try_block sys (_internal_include_handler sys repos fuel) self current file repo_path ie
  = Ok (configs0, missing0, self0, repo_path') ->
is_mapping (config current) = true ->
header_includes (config current) = Ok (before ++ VDict inc :: after) ->
include_loop sys repos (_internal_include_handler sys repos fuel)
             current repo_path' ie before self0 configs0 missing0
  = Ok (configs1, missing1, self1) ->
dict_get "file" inc = None ->
(forall includedir,
    repos_get repos (from_option id VNone (dict_get "repo" inc)) = Ok (Some includedir) ->
    _internal_include_handler sys repos (S fuel) self file repo_path il ie
      = Raise (IncludeException "file is not specified"))
/\ (repos_get repos (from_option id VNone (dict_get "repo" inc)) = Ok None ->
      include_step sys repos (_internal_include_handler sys repos fuel)
                   current repo_path' ie self1 configs1 missing1 (VDict inc)
        = Ok (configs1,
              missing1 ++ [from_option id VNone (dict_get "repo" inc)], self1)).
Proof.
intros Hinit Htry Hmap Hinc Hloop Hfile. split.
- intros includedir Hrepo.
  cbn [_internal_include_handler]. unfold handler_body. rewrite Hinit, Htry.
  unfold after_try. rewrite Hmap, Hinc. cbn [negb]. rewrite bind_Ok.
  rewrite (include_loop_app _ _ _ _ _ _ _ _ _ _ _ _ Hloop).
  cbn [include_loop]. unfold include_step at 1. rewrite Hrepo, bind_Ok, Hfile.
  reflexivity.
- intros Hrepo. unfold include_step. by rewrite Hrepo, bind_Ok.
Qed.

End missing_file_key.

(** ** More fuel never changes an outcome *)

Lemma settles_refl {A} (r : result A) : settles r r.
Proof. by right. Qed.

Lemma settles_bind {A B} (m m' : result A) (k k' : A -> result B) :
settles m m' -> (forall a, settles (k a) (k' a)) ->
settles (x ← m; k x) (x ← m'; k' x).
Proof.
intros [-> | <-] Hk; [ by left | ].
destruct m as [ a | e | ]; [ apply Hk | by right | by left ].
Qed.

Section fuel.

Variable sys : filesystem.
Variable repos : gmap string string.
Variables less more : IncludeHandler -> string -> value -> bool -> bool -> result visited.
Hypothesis Hmore : forall self file repo_path il ie,
  settles (less self file repo_path il ie) (more self file repo_path il ie).

Lemma include_step_settles current repo_path ie self configs missing include :
settles (include_step sys repos less current repo_path ie self configs missing include)
        (include_step sys repos more current repo_path ie self configs missing include).
Proof.
unfold include_step. destruct include as [ | | | inc | | inc ]; try apply settles_refl.
- apply settles_bind; [ apply settles_refl | ]. intros includefile.
  apply settles_bind; [ apply Hmore | ]. intros [[cfg rep] s]. apply settles_refl.
- apply settles_bind; [ apply settles_refl | ]. intros [ includedir | ];
    [ | apply settles_refl ].
  destruct (dict_get "file" inc); [ | apply settles_refl ].
  apply settles_bind; [ apply settles_refl | ]. intros includefile.
  apply settles_bind; [ apply Hmore | ]. intros [[cfg rep] s]. apply settles_refl.
Qed.

Lemma include_loop_settles current repo_path ie includes :
forall self configs missing,
settles (include_loop sys repos less current repo_path ie includes self configs missing)
        (include_loop sys repos more current repo_path ie includes self configs missing).
Proof.
induction includes as [ | include rest IH ]; intros self configs missing; simpl.
- apply settles_refl.
- apply settles_bind; [ apply include_step_settles | ]. intros [[c m] s]. apply IH.
Qed.

Lemma handler_body_settles dedup self file repo_path il ie :
settles (handler_body sys repos less dedup self file repo_path il ie)
        (handler_body sys repos more dedup self file repo_path il ie).
Proof.
unfold handler_body.
destruct (ConfigFile_init sys file il ie) as [ current | e | ]; try apply settles_refl.
assert (Htry : settles (try_block sys less self current file repo_path ie)
                       (try_block sys more self current file repo_path ie)).
{ unfold try_block. apply settles_bind; [ apply settles_refl | ]. intros lockfile.
  apply settles_bind; [ | intros [[c m] s]; apply settles_refl ].
  destruct (use_lock self && path_exists sys lockfile);
    [ apply Hmore | apply settles_refl ]. }
destruct Htry as [-> | <-]; [ by left | ].
destruct (try_block sys less self current file repo_path ie)
  as [ [[[c0 m0] s0] rp'] | e | ]; try apply settles_refl.
unfold after_try. destruct (negb (is_mapping (config current))); [ apply settles_refl | ].
apply settles_bind; [ apply settles_refl | ]. intros includes.
apply settles_bind; [ apply include_loop_settles | ]. intros [[c m] s].
apply settles_refl.
Qed.

End fuel.

(** Once a visit has come to an end with some fuel, it ends the same way
  with any larger amount. *)
Lemma visit_fuel_settles sys repos fuel extra self file repo_path il ie :
settles (_internal_include_handler sys repos fuel self file repo_path il ie)
        (_internal_include_handler sys repos (fuel + extra) self file repo_path il ie).
Proof.
revert self file repo_path il ie.
induction fuel as [ | fuel IH ]; intros self file repo_path il ie; [ by left | ].
cbn [Nat.add _internal_include_handler]. by apply handler_body_settles.
Qed.

(** ** The scenario of the specification *)

Lemma _load_config_Ok sys file d n :
recognized_extension file = true ->
stat sys file = Found (RegularFile (Parsed (VDict d))) ->
schema_valid (VDict d) = true ->
version_value (VDict d) = Ok n ->
(__compatible_file_version__ <= n <= __file_version__)%Z ->
_load_config sys file
  = Ok (VDict d, from_option id VNone (dict_get SOURCE_DIR_OVERRIDE_KEY d)).
Proof.
intros Hext Hstat Hvalid Hver Hwin. unfold _load_config.
fold (recognized_extension file). rewrite Hext, Hstat, Hvalid, Hver.
cbn [negb]. rewrite bind_Ok.
assert ((n <? __compatible_file_version__)%Z || (n >? __file_version__)%Z = false)
  as ->; [ | done ].
apply orb_false_iff. rewrite Z.ltb_ge, Z.gtb_ltb, Z.ltb_ge. lia.
Qed.

(** A visit whose document loads, has no lock sibling on disk and no
  [_source_dir], reduced to its loop over the includes. *)
Lemma visit_no_lock sys repos fuel self file repo_path il ie d n includes :
recognized_extension file = true ->
stat sys file = Found (RegularFile (Parsed (VDict d))) ->
schema_valid (VDict d) = true ->
version_value (VDict d) = Ok n ->
(__compatible_file_version__ <= n <= __file_version__)%Z ->
dict_get SOURCE_DIR_OVERRIDE_KEY d = None ->
path_exists sys (lock_sibling file) = false ->
header_includes (VDict d) = Ok includes ->
let current := {| filename := file; config := VDict d; src_dir := VNone;
                  is_lockfile := il; is_external := ie |} in
_internal_include_handler sys repos (S fuel) self file repo_path il ie
= ('(configs, missing_repos, self) ←
     include_loop sys repos (_internal_include_handler sys repos fuel)
                  current repo_path ie includes self [] [];
   Ok (configs ++ [current], fromkeys missing_repos, self)).
Proof.
intros Hext Hstat Hvalid Hver Hwin Hsrc Hlock Hinc current.
cbn [_internal_include_handler]. unfold handler_body, ConfigFile_init.
rewrite (_load_config_Ok _ _ _ _ Hext Hstat Hvalid Hver Hwin), Hsrc, bind_Ok.
cbn [from_option]. fold current. unfold try_block, get_lockfile.
rewrite (recognized_extension_nonempty _ Hext). cbn [negb]. rewrite !bind_Ok.
rewrite Hlock, andb_false_r, bind_Ok. cbn [truthy src_dir current].
unfold after_try. cbn [is_mapping config current negb]. by rewrite Hinc, bind_Ok.
Qed.

Lemma scenario_resolve fuel :
(__compatible_file_version__ <= 14 <= __file_version__)%Z ->
schema_valid Scenario.a = true ->
schema_valid Scenario.b = true ->
schema_valid Scenario.c = true ->
resolve Scenario.sys Scenario.no_repos (S (S fuel)) Scenario.handler
  = Ok ([Scenario.doc_b; Scenario.doc_a], [VStr "x"], Scenario.handler)
/\ resolve Scenario.sys Scenario.known_repos (S (S fuel)) Scenario.handler
   = Ok ([Scenario.doc_b; Scenario.doc_c; Scenario.doc_a], [], Scenario.handler).
Proof.
intros Hwin Ha Hb Hc.
assert (Hleaf_b : forall repos self,
  _internal_include_handler Scenario.sys repos (S fuel) self "/work/b.yml"
                            (VStr "/work") false false
  = Ok ([Scenario.doc_b], [], self)).
{ intros. erewrite (visit_no_lock _ _ _ _ _ _ _ _ _ 14%Z);
    [ | reflexivity | reflexivity | exact Hb | reflexivity | exact Hwin
      | reflexivity | reflexivity | vm_compute; reflexivity ].
  reflexivity. }
assert (Hleaf_c : forall repos self,
  _internal_include_handler Scenario.sys repos (S fuel) self "/path/c.yml"
                            (VStr "/path") false true
  = Ok ([Scenario.doc_c], [], self)).
{ intros. erewrite (visit_no_lock _ _ _ _ _ _ _ _ _ 14%Z);
    [ | reflexivity | reflexivity | exact Hc | reflexivity | exact Hwin
      | reflexivity | reflexivity | vm_compute; reflexivity ].
  reflexivity. }
unfold resolve. cbn [top_files Scenario.handler top_files_loop top_repo_path].
split.
- erewrite (visit_no_lock _ _ _ _ _ _ _ _ _ 14%Z);
    [ | reflexivity | reflexivity | exact Ha | reflexivity | exact Hwin
      | reflexivity | reflexivity | vm_compute; reflexivity ].
  cbn [include_loop].
  erewrite include_step_local; [ | vm_compute; reflexivity | apply Hleaf_b ].
  rewrite bind_Ok.
  erewrite include_step_unknown_repo; [ | vm_compute; reflexivity ].
  rewrite !bind_Ok. reflexivity.
- erewrite (visit_no_lock _ _ _ _ _ _ _ _ _ 14%Z);
    [ | reflexivity | reflexivity | exact Ha | reflexivity | exact Hwin
      | reflexivity | reflexivity | vm_compute; reflexivity ].
  cbn [include_loop].
  erewrite include_step_local; [ | vm_compute; reflexivity | apply Hleaf_b ].
  rewrite bind_Ok.
  erewrite include_step_known_repo;
    [ | vm_compute; reflexivity | reflexivity | apply Hleaf_c ].
  rewrite !bind_Ok. reflexivity.
Qed.

(** ** Keys, membership and first occurrences *)

Lemma value_eqb_refl a : value_eqb a a = true.
Proof.
induction a as [ | b | n | s | items IH | entries IH ] using value_nested_ind; simpl.
- done.
- by destruct b.
- apply Z.eqb_refl.
- apply String.eqb_refl.
- induction IH as [ | x xs Hx _ IHxs ]; [ done | ]. by rewrite Hx, IHxs.
- induction IH as [ | [k x] xs Hx _ IHxs ]; [ done | ].
  simpl in Hx. by rewrite String.eqb_refl, Hx, IHxs.
Qed.

Lemma value_eqb_eq a : forall b, value_eqb a b = true -> a = b.
Proof.
induction a as [ | x | n | s | items IH | entries IH ] using value_nested_ind;
  intros [ | y | m | t | items' | entries' ]; simpl; try discriminate; intros H.
- done.
- f_equal. by apply Bool.eqb_prop.
- f_equal. by apply Z.eqb_eq.
- f_equal. by apply String.eqb_eq.
- f_equal. revert items' H.
  induction IH as [ | x xs Hx _ IHxs ]; intros [ | y ys ] H; try discriminate; [ done | ].
  apply andb_prop in H as [Hxy Hrest]. f_equal; auto.
- f_equal. revert entries' H.
  induction IH as [ | [k x] xs Hx _ IHxs ]; intros [ | [l y] ys ] H;
    try discriminate; [ done | ].
  apply andb_prop in H as [H Hrest]. apply andb_prop in H as [Hk Hxy].
  apply String.eqb_eq in Hk. simpl in Hx. f_equal; [ f_equal | ]; auto.
Qed.

Lemma py_eqb_true a b : py_eqb a b = true <-> hash_key a = hash_key b.
Proof.
unfold py_eqb. split; [ apply value_eqb_eq | intros ->; apply value_eqb_refl ].
Qed.

Lemma py_eqb_refl a : py_eqb a a = true.
Proof. by apply py_eqb_true. Qed.

Lemma py_eqb_sym a b : py_eqb a b = py_eqb b a.
Proof.
destruct (py_eqb a b) eqn:E1, (py_eqb b a) eqn:E2; try done.
- apply py_eqb_true in E1. symmetry in E1. apply py_eqb_true in E1. congruence.
- apply py_eqb_true in E2. symmetry in E2. apply py_eqb_true in E2. congruence.
Qed.

Lemma py_eqb_proper a a' b : py_eqb a a' = true -> py_eqb a b = py_eqb a' b.
Proof. unfold py_eqb. intros H. apply value_eqb_eq in H. by rewrite H. Qed.

Lemma py_in_proper x y l : py_eqb x y = true -> py_in x l = py_in y l.
Proof.
intros H. unfold py_in. induction l as [ | z l IH ]; simpl; [ done | ].
by rewrite IH, (py_eqb_proper _ _ _ H).
Qed.

Lemma py_in_app x a b : py_in x (a ++ b) = py_in x a || py_in x b.
Proof. apply existsb_app. Qed.

Lemma py_in_elem x l : x ∈ l -> py_in x l = true.
Proof.
intros H. apply existsb_exists. exists x.
split; [ by apply list_elem_of_In | apply py_eqb_refl ].
Qed.

Lemma append_unseen_cons acc x l :
append_unseen acc (x :: l)
= append_unseen (if py_in x acc then acc else acc ++ [x]) l.
Proof. reflexivity. Qed.

Lemma append_unseen_app acc l1 l2 :
append_unseen acc (l1 ++ l2) = append_unseen (append_unseen acc l1) l2.
Proof. apply fold_left_app. Qed.

Lemma py_in_append_unseen x l : forall acc,
py_in x (append_unseen acc l) = py_in x acc || py_in x l.
Proof.
induction l as [ | y l IH ]; intros acc.
- simpl. by rewrite orb_false_r.
- rewrite append_unseen_cons, IH. change (py_in x (y :: l)) with (py_eqb x y || py_in x l).
  destruct (py_in y acc) eqn:Hy.
  + destruct (py_eqb x y) eqn:Hxy; [ | done ].
    by rewrite (py_in_proper _ _ _ Hxy), Hy.
  + rewrite py_in_app. simpl. rewrite orb_false_r. by rewrite orb_assoc.
Qed.

Lemma append_unseen_absorb b : forall acc seen,
append_unseen acc (append_unseen seen b) = append_unseen (append_unseen acc seen) b.
Proof.
induction b as [ | x b IH ]; intros acc seen; [ done | ].
rewrite !append_unseen_cons, IH. f_equal.
rewrite py_in_append_unseen. destruct (py_in x seen) eqn:Hseen.
- by rewrite orb_true_r.
- rewrite orb_false_r, append_unseen_app, append_unseen_cons.
  by rewrite py_in_append_unseen, Hseen, orb_false_r.
Qed.

Lemma append_unseen_fromkeys acc b :
append_unseen acc (fromkeys b) = append_unseen acc b.
Proof. unfold fromkeys. by rewrite append_unseen_absorb. Qed.

Lemma fromkeys_app a b : fromkeys (a ++ b) = append_unseen (fromkeys a) b.
Proof. apply append_unseen_app. Qed.

Lemma py_distinctb_snoc acc x :
py_distinctb (acc ++ [x]) = py_distinctb acc && negb (py_in x acc).
Proof.
induction acc as [ | y acc IH ]; simpl; [ done | ].
rewrite IH, py_in_app. simpl. rewrite orb_false_r, (py_eqb_sym x y).
destruct (py_in y acc), (py_eqb y x), (py_distinctb acc), (py_in x acc); done.
Qed.

Lemma py_distinctb_append_unseen l : forall acc,
py_distinctb acc = true -> py_distinctb (append_unseen acc l) = true.
Proof.
induction l as [ | x l IH ]; intros acc Hacc; [ done | ].
rewrite append_unseen_cons. apply IH. destruct (py_in x acc) eqn:Hx; [ done | ].
by rewrite py_distinctb_snoc, Hacc, Hx.
Qed.

Lemma py_distinctb_NoDup l : py_distinctb l = true -> NoDup l.
Proof.
induction l as [ | x l IH ]; simpl; intros H; constructor.
- apply andb_prop in H as [H _]. intros Hin. by rewrite (py_in_elem _ _ Hin) in H.
- apply IH. by apply andb_prop in H as [_ ?].
Qed.

Lemma append_unseen_first_occurrences l : forall acc,
append_unseen acc l
= acc ++ List.filter (fun y => negb (py_in y acc)) (fromkeys l).
Proof.
induction l as [ | y l IH ] using rev_ind; intros acc.
- simpl. by rewrite app_nil_r.
- rewrite fromkeys_app, append_unseen_app, !append_unseen_cons.
  cbn [append_unseen fold_left].
  rewrite (py_in_append_unseen y l acc).
  unfold fromkeys at 1. rewrite (py_in_append_unseen y l []).
  fold (fromkeys l). cbn [py_in existsb orb]. rewrite IH.
  destruct (py_in y acc) eqn:Hacc, (py_in y l) eqn:Hl; cbn [orb]; try done.
  + rewrite List.filter_app. simpl. by rewrite Hacc, app_nil_r.
  + rewrite List.filter_app. simpl. by rewrite Hacc, app_assoc.
Qed.

Lemma fromkeys_first_occurrences l : fromkeys l = first_occurrences l.
Proof.
induction l as [ | x l IH ]; [ done | ].
unfold fromkeys. rewrite append_unseen_cons. cbn [py_in existsb app].
rewrite append_unseen_first_occurrences, IH. simpl. f_equal.
apply List.filter_ext. intros y. by rewrite orb_false_r.
Qed.

(** ** The missing repos against the plain traversal *)

Section dedup_refinement.

Variable sys : filesystem.
Variable repos : gmap string string.

Variables deduped plain : IncludeHandler -> string -> value -> bool -> bool
                        -> result visited.
Hypothesis Hrefines : refines deduped plain.

Lemma fromkeys_app_congr m1 m2 rep raw :
fromkeys m1 = fromkeys m2 -> rep = fromkeys raw ->
fromkeys (m1 ++ rep) = fromkeys (m2 ++ raw).
Proof. intros H ->. by rewrite !fromkeys_app, append_unseen_fromkeys, H. Qed.

Lemma include_step_refines current repo_path ie self configs m1 m2 include c m1' s :
fromkeys m1 = fromkeys m2 ->
include_step sys repos deduped current repo_path ie self configs m1 include
  = Ok (c, m1', s) ->
exists m2',
  include_step sys repos plain current repo_path ie self configs m2 include
    = Ok (c, m2', s)
  /\ fromkeys m1' = fromkeys m2'.
Proof.
intros Hm. unfold include_step.
destruct include as [ | | | inc | | inc ]; try (intros [= <- <- <-]; eauto).
- intros H. apply bind_Ok_inv in H as (includefile & -> & H).
  apply bind_Ok_inv in H as ([[cfg rep] self'] & Hrec & H). injection H as <- <- <-.
  apply Hrefines in Hrec as (raw & Hrec & ->). bind_simpl. rewrite Hrec. bind_simpl.
  eexists. split; [ done | ]. by apply fromkeys_app_congr.
- intros H. apply bind_Ok_inv in H as (includedir & -> & H). bind_simpl.
  destruct includedir as [includedir | ].
  + destruct (dict_get "file" inc) as [ includefile | ]; [ | discriminate ].
    apply bind_Ok_inv in H as (file & -> & H).
    apply bind_Ok_inv in H as ([[cfg rep] self'] & Hrec & H). injection H as <- <- <-.
    apply Hrefines in Hrec as (raw & Hrec & ->). bind_simpl. rewrite Hrec. bind_simpl.
    eexists. split; [ done | ]. by apply fromkeys_app_congr.
  + injection H as <- <- <-. eexists. split; [ done | ].
    by rewrite !fromkeys_app, Hm.
Qed.

Lemma include_loop_refines current repo_path ie includes :
forall self configs m1 m2 c m1' s,
fromkeys m1 = fromkeys m2 ->
include_loop sys repos deduped current repo_path ie includes self configs m1
  = Ok (c, m1', s) ->
exists m2',
  include_loop sys repos plain current repo_path ie includes self configs m2
    = Ok (c, m2', s)
  /\ fromkeys m1' = fromkeys m2'.
Proof.
induction includes as [ | include rest IH ]; intros self configs m1 m2 c m1' s Hm; simpl.
- intros [= <- <- <-]. eauto.
- intros H. apply bind_Ok_inv in H as ([[c0 m0] s0] & Hstep & H).
  destruct (include_step_refines _ _ _ _ _ _ m2 _ _ _ _ Hm Hstep) as (m0' & -> & Hm0).
  bind_simpl. by eapply IH.
Qed.

Lemma fromkeys_idempotent raw : fromkeys (fromkeys raw) = fromkeys raw.
Proof. unfold fromkeys at 1. by rewrite append_unseen_fromkeys. Qed.

Lemma handler_body_refines self file repo_path il ie configs missing self' :
handler_body sys repos deduped true self file repo_path il ie
  = Ok (configs, missing, self') ->
exists raw,
  handler_body sys repos plain false self file repo_path il ie
    = Ok (configs, raw, self')
  /\ missing = fromkeys raw.
Proof.
intros H.
apply handler_body_Ok in H as (current & [[[c0 m0] s0] rp'] & Hinit & Htry & Hafter).
apply after_try_Ok in Hafter as (includes & c & m & s & Hmap & Hinc & Hloop & Hr).
injection Hr as -> -> ->.
assert (exists raw0,
  try_block sys plain self current file repo_path ie = Ok (c0, raw0, s0, rp')
  /\ fromkeys m0 = fromkeys raw0) as (raw0 & Htry' & Hm0).
{ revert Htry. unfold try_block.
  destruct (get_lockfile self (Some file)) as [ lockfile | | ];
    [ | discriminate | discriminate ].
  bind_simpl. destruct (use_lock self && path_exists sys lockfile).
  - intros H. apply bind_Ok_inv in H as ([[cl ml] sl] & Hrec & H).
    apply Hrefines in Hrec as (rawl & Hrec & ->). rewrite Hrec. bind_simpl.
    destruct (truthy (src_dir current)); simplify_eq;
      eexists; (split; [ done | apply fromkeys_idempotent ]).
  - bind_simpl. intros H. exists m0. split; [ exact H | done ]. }
destruct (include_loop_refines _ _ _ _ _ _ _ raw0 _ _ _ Hm0 Hloop) as (raw & Hloop' & Hraw).
exists raw. split; [ | done ].
unfold handler_body. rewrite Hinit, Htry'. unfold after_try.
rewrite Hmap, Hinc. cbn [negb]. by rewrite bind_Ok, Hloop', bind_Ok.
Qed.

End dedup_refinement.

Lemma visit_refines_traversal sys repos fuel :
refines (_internal_include_handler sys repos fuel) (traversal sys repos fuel).
Proof.
induction fuel as [ | fuel IH ]; intros self file repo_path il ie configs missing self'.
- discriminate.
- cbn [_internal_include_handler traversal]. by apply handler_body_refines.
Qed.

Lemma top_files_loop_refines sys repos fuel files :
forall self configs missing raw c m s,
missing = fromkeys raw ->
top_files_loop sys repos fuel files self configs missing = Ok (c, m, s) ->
exists raw',
  top_files_traversal sys repos fuel files self configs raw = Ok (c, raw', s)
  /\ m = fromkeys raw'.
Proof.
induction files as [ | configfile rest IH ]; intros self configs missing raw c m s Hm; simpl.
- intros [= <- <- <-]. eauto.
- intros H. apply bind_Ok_inv in H as ([[cfgs reps] self1] & Hvisit & H).
  apply visit_refines_traversal in Hvisit as (raw1 & Hvisit & ->).
  rewrite Hvisit. bind_simpl.
  eapply IH; [ | exact H ].
  by rewrite Hm, fromkeys_app, append_unseen_fromkeys.
Qed.


(** ** The merger on the object store *)

Lemma heap_is_Mapping_app h ext r :
Heap.is_Mapping h r = true -> Heap.is_Mapping (h ++ ext) r = true.
Proof.
destruct r as [ | | | | l ]; simpl; try done.
destruct (h !! l) as [ o | ] eqn:E; [ | done ].
by rewrite (lookup_app_l_Some _ _ _ _ E).
Qed.

Lemma heap_getitem_app h ext l entries key :
h !! l = Some (Heap.ODict entries) ->
Heap.getitem (h ++ ext) l key = dict_get key entries.
Proof. intros E. unfold Heap.getitem. by rewrite (lookup_app_l_Some _ _ _ _ E). Qed.

(** An assignment to a dict allocated after [h] leaves [h] alone. *)
Lemma heap_setitem_app h ext new key r :
length h <= new ->
Heap.is_Mapping (h ++ ext) (Heap.RObj new) = true ->
exists ext', Heap.setitem (h ++ ext) new key r = h ++ ext'
             /\ Heap.is_Mapping (h ++ ext') (Heap.RObj new) = true.
Proof.
intros Hnew. unfold Heap.setitem, Heap.is_Mapping.
destruct ((h ++ ext) !! new) as [ [ entries | ] | ] eqn:E; try done. intros _.
exists (<[new - length h := Heap.ODict (dict_set key r entries)]> ext).
rewrite <- insert_app_r_alt by done. split; [ done | ].
rewrite list_lookup_insert_eq; [ done | ]. by eapply lookup_lt_Some.
Qed.

Lemma heap_reify_app depth : forall h ext r v,
Heap.reify depth h r = Some v -> Heap.reify depth (h ++ ext) r = Some v.
Proof.
induction depth as [ | depth IH ]; intros h ext [ | | | | l ] v; simpl; try done.
destruct (h !! l) as [ [ entries | items ] | ] eqn:E; [ | | done ];
  rewrite (lookup_app_l_Some _ _ _ _ E); intros H;
  apply fmap_Some in H as (vs & Hvs & ->); apply fmap_Some; exists vs;
  (split; [ | done ]); apply mapM_Some; apply mapM_Some in Hvs;
  eapply Forall2_impl; [ exact Hvs | | exact Hvs | ]; simpl.
- intros e y Hy. apply fmap_Some in Hy as (x & Hx & ->).
  by rewrite (IH _ _ _ _ Hx).
- intros x y Hy. by apply IH.
Qed.

Lemma heap_reify_entries depth h l entries key val :
h !! l = Some (Heap.ODict entries) ->
is_Some (Heap.reify (S depth) h (Heap.RObj l)) ->
dict_get key entries = Some val ->
is_Some (Heap.reify depth h val).
Proof.
intros E [v Hv] Hget. simpl in Hv. rewrite E in Hv.
apply fmap_Some in Hv as (vs & Hvs & _). apply mapM_Some in Hvs.
apply dict_get_In in Hget. apply list_elem_of_lookup in Hget as [i Hi].
destruct (Forall2_lookup_l _ _ _ _ _ Hvs Hi) as (y & _ & Hy). simpl in Hy.
apply fmap_Some in Hy as (x & Hx & _). eauto.
Qed.

Section heap_loops.

Variable depth : nat.
Variable recurse : Heap.heap -> Heap.ref -> Heap.ref -> result (Heap.heap * Heap.ref).
Hypothesis Hrecurse : heap_merge_adds depth recurse.

Variable h : Heap.heap.
Variables new lu : Heap.loc.
Variable u : list (string * Heap.ref).
Hypothesis Hnew : length h <= new.
Hypothesis Hlu : h !! lu = Some (Heap.ODict u).
Hypothesis Hfinite : is_Some (Heap.reify (S depth) h (Heap.RObj lu)).

Lemma heap_merge_keys_adds updkeys : forall ext,
(forall key, key ∈ updkeys -> key ∈ dict_keys u) ->
Heap.is_Mapping (h ++ ext) (Heap.RObj new) = true ->
exists ext', Heap.merge_keys recurse new lu updkeys (h ++ ext) = Ok (h ++ ext')
             /\ Heap.is_Mapping (h ++ ext') (Heap.RObj new) = true.
Proof.
induction updkeys as [ | key rest IH ]; intros ext Hkeys Hmap; simpl; [ eauto | ].
rewrite (heap_getitem_app _ _ _ _ _ Hlu).
destruct (dict_get key u) as [ val | ] eqn:Hget.
2: { exfalso. apply dict_get_None in Hget. apply Hget, Hkeys, elem_of_cons. auto. }
assert (Hrest : forall k, k ∈ rest -> k ∈ dict_keys u)
  by (intros k Hk; apply Hkeys, elem_of_cons; auto).
destruct (Heap.is_Mapping (h ++ ext) (default Heap.RNone (Heap.getitem (h ++ ext) new key))
          && Heap.is_Mapping (h ++ ext) val) eqn:Hboth.
- apply andb_prop in Hboth as [Hsub Hval].
  destruct (Hrecurse (h ++ ext) _ val Hsub Hval) as (ext2 & -> & _).
  { destruct (heap_reify_entries _ _ _ _ _ _ Hlu Hfinite Hget) as [v Hv].
    exists v. by apply heap_reify_app. }
  bind_simpl. rewrite <- app_assoc.
  destruct (heap_setitem_app h (ext ++ ext2) new key (Heap.RObj (length (h ++ ext))) Hnew)
    as (ext3 & -> & Hmap3).
  { rewrite app_assoc. by apply heap_is_Mapping_app. }
  by apply IH.
- destruct (heap_setitem_app h ext new key val Hnew Hmap) as (ext3 & -> & Hmap3).
  by apply IH.
Qed.

Lemma heap_update_keys_adds keys : forall ext,
(forall key, key ∈ keys -> key ∈ dict_keys u) ->
Heap.is_Mapping (h ++ ext) (Heap.RObj new) = true ->
exists ext', Heap.update_keys new lu keys (h ++ ext) = Ok (h ++ ext')
             /\ Heap.is_Mapping (h ++ ext') (Heap.RObj new) = true.
Proof using Hnew Hlu.
induction keys as [ | key rest IH ]; intros ext Hkeys Hmap; simpl; [ eauto | ].
rewrite (heap_getitem_app _ _ _ _ _ Hlu).
destruct (dict_get key u) as [ val | ] eqn:Hget.
2: { exfalso. apply dict_get_None in Hget. apply Hget, Hkeys, elem_of_cons. auto. }
destruct (heap_setitem_app h ext new key val Hnew Hmap) as (ext3 & -> & Hmap3).
apply IH; [ | done ]. intros k Hk. apply Hkeys, elem_of_cons. auto.
Qed.

End heap_loops.

Lemma heap_merge_adds_objects depth :
heap_merge_adds depth (Heap._internal_dict_merge depth).
Proof.
induction depth as [ | depth IH ]; intros h dest upd Hdest Hupd Hfinite.
- destruct upd; try done. by destruct Hfinite.
- cbn [Heap._internal_dict_merge]. unfold Heap.merge_body.
  destruct dest as [ | | | | ld ]; try done. destruct upd as [ | | | | lu ]; try done.
  simpl in Hdest, Hupd.
  destruct (h !! ld) as [ [ d | ] | ]; try done.
  destruct (h !! lu) as [ [ u | ] | ] eqn:Hlu; try done.
  cbn [Heap.copy_dict].
  assert (Hmap : Heap.is_Mapping (h ++ [Heap.ODict d]) (Heap.RObj (length h)) = true).
  { simpl. by rewrite lookup_app_r, Nat.sub_diag by done. }
  destruct (keys_intersect d u).
  + destruct (heap_merge_keys_adds depth _ IH h (length h) lu u (le_n _) Hlu Hfinite
                (dict_keys u) [Heap.ODict d] (fun _ H => H) Hmap) as (ext & -> & Hext).
    bind_simpl. eauto.
  + destruct (heap_update_keys_adds h (length h) lu u (le_n _) Hlu
                (dict_keys u) [Heap.ODict d] (fun _ H => H) Hmap) as (ext & -> & Hext).
    bind_simpl. eauto.
Qed.

Lemma heap_reduce_from_adds depth h bodies : forall ext acc,
Heap.is_Mapping (h ++ ext) acc = true ->
Forall (fun body => Heap.is_Mapping h body = true
                    /\ is_Some (Heap.reify depth h body)) bodies ->
exists ext' merged,
  Heap.reduce_from depth (h ++ ext) acc bodies = Ok (h ++ ext', merged)
  /\ Heap.is_Mapping (h ++ ext') merged = true.
Proof.
induction bodies as [ | body rest IH ]; intros ext acc Hacc Hbodies; simpl; [ eauto | ].
apply Forall_cons in Hbodies as [[Hmap [v Hv]] Hrest].
destruct (heap_merge_adds_objects depth (h ++ ext) acc body Hacc)
  as (ext2 & -> & Hnew).
{ by apply heap_is_Mapping_app. }
{ exists v. by apply heap_reify_app. }
bind_simpl. rewrite <- app_assoc in Hnew |- *. by apply IH.
Qed.

(** C10: the merger never assigns into an object it was given.  A merge
  step on two mappings returns a mapping allocated by this very step, and
  the store after the step is the store before it followed by the new
  objects; so after the fold over a document sequence every object that
  was there before, and with it every input body, reads as it did. *)
Theorem C10_merge_never_mutates_inputs depth h dest upd others :
Heap.is_Mapping h dest = true ->
Forall (fun body => Heap.is_Mapping h body = true
                    /\ is_Some (Heap.reify depth h body)) (upd :: others) ->
(exists new_objects,
    Heap._internal_dict_merge depth h dest upd
      = Ok (h ++ new_objects, Heap.RObj (length h))
    /\ Heap.is_Mapping (h ++ new_objects) (Heap.RObj (length h)) = true
    /\ h !! length h = None)
/\ (exists new_objects merged,
      Heap.reduce_merge depth h (dest :: upd :: others) = Ok (h ++ new_objects, merged)
      /\ (forall l o, h !! l = Some o -> (h ++ new_objects) !! l = Some o)
      /\ (forall body d v,
            body ∈ dest :: upd :: others ->
            Heap.reify d h body = Some v ->
            Heap.reify d (h ++ new_objects) body = Some v)).
Proof.
intros Hdest Hbodies. split.
- apply Forall_cons in Hbodies as [[Hupd Hfinite] _].
  destruct (heap_merge_adds_objects depth h dest upd Hdest Hupd Hfinite)
    as (new_objects & Hmerge & Hnew).
  exists new_objects. repeat split; auto. by apply lookup_ge_None.
- destruct (heap_reduce_from_adds depth h (upd :: others) [] dest)
    as (new_objects & merged & Hfold & _).
  { by rewrite app_nil_r. }
  { done. }
  rewrite app_nil_r in Hfold. exists new_objects, merged.
  split; [ exact Hfold | ]. split.
  + intros l o. apply lookup_app_l_Some.
  + intros body d v _. apply heap_reify_app.
Qed.

(** ** The lock reconciliation pass *)

Lemma bind_ret {A} (r : result A) : (x ← r; Ok x) = r.
Proof. by destruct r. Qed.

Lemma list_remove_get (R : list (string * Lock.Repo)) k r :
NoDup (dict_keys R) -> dict_get k R = Some r ->
NoDup (dict_keys (Lock.list_remove (k, r) R))
/\ forall k', dict_get k' (Lock.list_remove (k, r) R)
              = if decide (k' = k) then None else dict_get k' R.
Proof.
unfold dict_keys. induction R as [ | [k1 r1] rest IH ]; simpl; [ discriminate | ].
intros Hnd Hget. apply NoDup_cons in Hnd as [Hk1 Hnd].
destruct (String.eqb_spec k1 k) as [-> | Hne].
- injection Hget as ->. rewrite decide_True by done. split; [ done | ].
  intros k'. destruct (decide (k' = k)) as [-> | Hk'].
  + apply dict_get_None. exact Hk1.
  + destruct (String.eqb_spec k k'); congruence.
- rewrite decide_False by congruence. destruct (IH Hnd Hget) as [IHnd IHget]. split.
  + simpl. apply NoDup_cons. split; [ | done ].
    intros Hin. destruct (dict_get k1 (Lock.list_remove (k, r) rest)) eqn:E.
    * rewrite IHget, decide_False in E by done.
      apply dict_get_Some_key in E. by apply Hk1.
    * apply dict_get_None in E. by apply E.
  + intros k'. simpl. destruct (String.eqb_spec k1 k') as [-> | Hk'].
    * rewrite decide_False by done. done.
    * apply IHget.
Qed.

Section lock_pass.

Variable self : Lock.Lock.
Variable lockfile : ConfigFile.

Lemma pin_subscript table k commit :
subscript (default VNone (dict_get k table)) "commit" = Ok commit <->
Lock.pin table k = Some commit.
Proof.
unfold Lock.pin, subscript.
destruct (dict_get k table) as [ [ | | | | | entries ] | ]; simpl; try (split; discriminate).
destruct (dict_get "commit" entries); split; congruence.
Qed.

Lemma pin_set_eq table k entries rev :
Lock.pin (dict_set k (VDict (dict_set "commit" rev entries)) table) k = Some rev.
Proof. unfold Lock.pin. by rewrite !dict_get_set_eq. Qed.

Lemma pin_set_ne table k k' v :
k <> k' -> Lock.pin (dict_set k v table) k' = Lock.pin table k'.
Proof. intros Hne. unfold Lock.pin. by rewrite dict_get_set_ne. Qed.

(** The three ways the body of [if k == rk:] can end. *)
Lemma on_match_Ok k rk r st st' :
Lock.on_match self lockfile k rk r st = Ok st' ->
Lock.repos_to_lock st' = Lock.list_remove (rk, r) (Lock.repos_to_lock st)
/\ exists commit,
     Lock.pin (Lock.table st) k = Some commit
     /\ ((py_eqb commit (Lock.revision_value r) = true
          /\ Lock.table st' = Lock.table st
          /\ Lock.changed st' = Lock.changed st
          /\ Lock.log st' = Lock.log st ++ [Lock.InfoUpToDate (Lock.name r) (Lock.revision r)])
         \/ (py_eqb commit (Lock.revision_value r) = false
             /\ Lock._is_external_lockfile self lockfile = false
             /\ (exists entries,
                    Lock.table st'
                    = dict_set k (VDict (dict_set "commit" (Lock.revision_value r) entries))
                               (Lock.table st))
             /\ Lock.changed st' = true
             /\ Lock.log st'
                = Lock.log st ++ [Lock.InfoUpdating (Lock.name r) commit (Lock.revision r)])
         \/ (py_eqb commit (Lock.revision_value r) = false
             /\ Lock._is_external_lockfile self lockfile = true
             /\ Lock.table st' = Lock.table st
             /\ Lock.changed st' = Lock.changed st
             /\ Lock.log st'
                = Lock.log st ++ [Lock.WarningRemoteLockfile (Lock.name r)
                                                             (filename lockfile)])).
Proof.
unfold Lock.on_match. intros H. apply bind_Ok_inv in H as (commit & Hc & H).
pose proof (proj1 (pin_subscript _ _ _) Hc) as Hpin.
destruct (py_eqb commit (Lock.revision_value r)) eqn:Heq.
- injection H as <-. split; [ done | ]. exists commit. split; [ done | ]. left. done.
- destruct (Lock._is_external_lockfile self lockfile) eqn:Hext; cbn [negb] in H.
  + injection H as <-. split; [ done | ]. exists commit. split; [ done | ].
    right. right. done.
  + destruct (default VNone (dict_get k (Lock.table st))) as [ | | | | | entries ];
      try discriminate.
    injection H as <-. split; [ done | ]. exists commit. split; [ done | ].
    right. left. repeat split; eauto.
Qed.

Lemma scan_none k steps : forall position st,
k ∉ dict_keys (Lock.repos_to_lock st) ->
Lock.scan self lockfile k steps position st = Ok st.
Proof.
induction steps as [ | steps IH ]; intros position st Hk; simpl; [ done | ].
destruct (Lock.repos_to_lock st !! position) as [ [rk r] | ] eqn:E; [ | done ].
destruct (String.eqb_spec k rk) as [-> | _]; [ | by apply IH ].
exfalso. apply Hk. apply list_elem_of_fmap. exists (rk, r).
split; [ done | ]. by eapply list_elem_of_lookup_2.
Qed.

Lemma scan_from k steps : forall position st,
NoDup (dict_keys (Lock.repos_to_lock st)) ->
k ∉ dict_keys (take position (Lock.repos_to_lock st)) ->
length (drop position (Lock.repos_to_lock st)) <= steps ->
Lock.scan self lockfile k steps position st
= match dict_get k (drop position (Lock.repos_to_lock st)) with
  | Some r => Lock.on_match self lockfile k k r st
  | None => Ok st
  end.
Proof.
induction steps as [ | steps IH ]; intros position st Hnd Hbefore Hlen; simpl.
- destruct (drop position (Lock.repos_to_lock st)); [ done | simpl in Hlen; lia ].
- destruct (Lock.repos_to_lock st !! position) as [ [rk r] | ] eqn:E.
  + rewrite (drop_S _ _ _ E) in Hlen |- *. simpl in Hlen. simpl.
    destruct (String.eqb_spec rk k) as [-> | Hne].
    * rewrite String.eqb_refl.
      destruct (Lock.on_match self lockfile k k r st) as [ st' | | ] eqn:Hmatch;
        [ | done | done ].
      bind_simpl. apply scan_none.
      apply on_match_Ok in Hmatch as [-> _].
      assert (Hget : dict_get k (Lock.repos_to_lock st) = Some r).
      { rewrite <- (take_drop position (Lock.repos_to_lock st)), (drop_S _ _ _ E).
        clear -Hbefore. induction (take position (Lock.repos_to_lock st)) as [ | [k1 r1] l IH ].
        - simpl. by rewrite String.eqb_refl.
        - simpl in Hbefore |- *. apply not_elem_of_cons in Hbefore as [Hk1 Hl].
          destruct (String.eqb_spec k1 k); [ congruence | by apply IH ]. }
      destruct (list_remove_get _ _ _ Hnd Hget) as [_ Hrem].
      apply dict_get_None. by rewrite Hrem, decide_True.
    * destruct (String.eqb_spec k rk) as [-> | _]; [ done | ].
      apply IH; [ done | | lia ].
      rewrite (take_S_r _ _ _ E). unfold dict_keys. rewrite map_app. simpl.
      intros Hin. apply elem_of_app in Hin as [Hin | Hin]; [ by apply Hbefore | ].
      apply list_elem_of_singleton in Hin. congruence.
  + apply lookup_ge_None in E. by rewrite drop_ge.
Qed.

(** The inner loop for one [k] on a list with unique keys. *)
Lemma scan_spec k st :
NoDup (dict_keys (Lock.repos_to_lock st)) ->
Lock.scan self lockfile k (length (Lock.repos_to_lock st)) 0 st
= match dict_get k (Lock.repos_to_lock st) with
  | Some r => Lock.on_match self lockfile k k r st
  | None => Ok st
  end.
Proof.
intros Hnd. rewrite scan_from; [ done | done | | done ].
simpl. apply not_elem_of_nil.
Qed.

End lock_pass.

Section lock_reconciliation.

Variable self : Lock.Lock.
Variable lockfile : ConfigFile.

(** What the inner loop for [k] leaves alone. *)
Lemma scan_frame k st st1 :
NoDup (dict_keys (Lock.repos_to_lock st)) ->
Lock.scan self lockfile k (length (Lock.repos_to_lock st)) 0 st = Ok st1 ->
NoDup (dict_keys (Lock.repos_to_lock st1))
/\ (forall k', k' <> k ->
      dict_get k' (Lock.repos_to_lock st1) = dict_get k' (Lock.repos_to_lock st)
      /\ Lock.pin (Lock.table st1) k' = Lock.pin (Lock.table st) k')
/\ (forall k', k' ∉ dict_keys (Lock.repos_to_lock st) ->
      (k' ∉ dict_keys (Lock.repos_to_lock st1))
      /\ Lock.pin (Lock.table st1) k' = Lock.pin (Lock.table st) k')
/\ (exists more, Lock.log st1 = Lock.log st ++ more)
/\ (Lock.changed st = true -> Lock.changed st1 = true).
Proof.
intros Hnd. rewrite scan_spec by done.
destruct (dict_get k (Lock.repos_to_lock st)) as [ r | ] eqn:Hget.
2: { intros [= <-]. repeat split; auto. exists []. by rewrite app_nil_r. }
intros Hmatch. apply on_match_Ok in Hmatch as (Hlist & commit & Hpin & Hcases).
destruct (list_remove_get _ _ _ Hnd Hget) as [Hnd1 Hrem]. rewrite <- Hlist in Hnd1, Hrem.
assert (Hpins : forall k', k' <> k ->
          Lock.pin (Lock.table st1) k' = Lock.pin (Lock.table st) k').
{ intros k' Hne.
  destruct Hcases as [ (_ & -> & _) | [ (_ & _ & (entries & ->) & _) | (_ & _ & -> & _) ] ];
    try done.
  by apply pin_set_ne. }
split; [ done | ]. split; [ | split; [ | split ] ].
- intros k' Hne. split; [ | by apply Hpins ]. by rewrite Hrem, decide_False.
- intros k' Hk'. assert (k' <> k).
  { intros ->. by apply Hk', (dict_get_Some_key _ r). }
  split; [ | by apply Hpins ].
  apply dict_get_None. rewrite Hrem, decide_False by done. by apply dict_get_None.
- destruct Hcases as [ (_ & _ & _ & ->) | [ (_ & _ & _ & _ & ->) | (_ & _ & _ & _ & ->) ] ];
    eauto.
- destruct Hcases as [ (_ & _ & -> & _) | [ (_ & _ & _ & -> & _) | (_ & _ & _ & -> & _) ] ];
    auto.
Qed.

Lemma each_lock_frame keys : forall st st',
NoDup (dict_keys (Lock.repos_to_lock st)) ->
Lock.each_lock self lockfile keys st = Ok st' ->
NoDup (dict_keys (Lock.repos_to_lock st'))
/\ (forall k', k' ∉ dict_keys (Lock.repos_to_lock st) ->
      (k' ∉ dict_keys (Lock.repos_to_lock st'))
      /\ Lock.pin (Lock.table st') k' = Lock.pin (Lock.table st) k')
/\ (exists more, Lock.log st' = Lock.log st ++ more)
/\ (Lock.changed st = true -> Lock.changed st' = true).
Proof.
induction keys as [ | k rest IH ]; intros st st' Hnd; simpl.
- intros [= <-]. repeat split; auto. exists []. by rewrite app_nil_r.
- intros H. apply bind_Ok_inv in H as (st1 & Hscan & Hrest).
  destruct (scan_frame _ _ _ Hnd Hscan) as (Hnd1 & _ & Hout1 & [more1 Hlog1] & Hch1).
  destruct (IH _ _ Hnd1 Hrest) as (Hnd' & Hout' & [more' Hlog'] & Hch').
  split; [ done | ]. split; [ | split ].
  + intros k' Hk'. destruct (Hout1 k' Hk') as [Hk1 Hp1].
    destruct (Hout' k' Hk1) as [Hk2 Hp2]. split; [ done | congruence ].
  + exists (more1 ++ more'). by rewrite Hlog', Hlog1, app_assoc.
  + auto.
Qed.

Lemma each_lock_key keys k r c : forall st st',
NoDup (dict_keys (Lock.repos_to_lock st)) ->
Lock.each_lock self lockfile keys st = Ok st' ->
k ∈ keys ->
dict_get k (Lock.repos_to_lock st) = Some r ->
Lock.pin (Lock.table st) k = Some c ->
(k ∉ dict_keys (Lock.repos_to_lock st'))
/\ (py_eqb c (Lock.revision_value r) = false ->
    Lock._is_external_lockfile self lockfile = false ->
    Lock.pin (Lock.table st') k = Some (Lock.revision_value r)
    /\ Lock.changed st' = true)
/\ (py_eqb c (Lock.revision_value r) = false ->
    Lock._is_external_lockfile self lockfile = true ->
    Lock.pin (Lock.table st') k = Some c
    /\ Lock.WarningRemoteLockfile (Lock.name r) (filename lockfile) ∈ Lock.log st').
Proof.
induction keys as [ | k1 rest IH ]; intros st st' Hnd Heach Hin Hget Hpin.
{ by apply elem_of_nil in Hin. }
simpl in Heach. apply bind_Ok_inv in Heach as (st1 & Hscan & Hrest).
destruct (scan_frame _ _ _ Hnd Hscan) as (Hnd1 & Hother & _).
destruct (decide (k1 = k)) as [-> | Hne].
- rewrite scan_spec, Hget in Hscan by done.
  apply on_match_Ok in Hscan as (Hlist & commit & Hpin' & Hcases).
  rewrite Hpin in Hpin'. injection Hpin' as <-.
  destruct (list_remove_get _ _ _ Hnd Hget) as [_ Hrem]. rewrite <- Hlist in Hrem.
  assert (Hgone : k ∉ dict_keys (Lock.repos_to_lock st1)).
  { apply dict_get_None. by rewrite Hrem, decide_True. }
  destruct (each_lock_frame _ _ _ Hnd1 Hrest) as (_ & Hout & [more Hlog] & Hch).
  destruct (Hout k Hgone) as [Hgone' Hpin'].
  split; [ done | ]. split; intros Hneq Hext; rewrite Hpin'.
  + destruct Hcases as [ (? & _) | [ (_ & _ & (entries & ->) & Hc & _) | (_ & ? & _) ] ];
      try congruence.
    split; [ apply pin_set_eq | auto ].
  + destruct Hcases as [ (? & _) | [ (_ & ? & _) | (_ & _ & -> & _ & Hlog1) ] ];
      try congruence.
    split; [ done | ]. rewrite Hlog, Hlog1.
    apply elem_of_app. left. apply elem_of_app. right. by apply list_elem_of_singleton.
- apply elem_of_cons in Hin as [ | Hin ]; [ congruence | ].
  destruct (Hother k (not_eq_sym Hne)) as [Hget1 Hpin1].
  eapply (IH st1 st'); eauto; congruence.
Qed.

End lock_reconciliation.

(** *** The pass comes to an end *)

Section lock_pass_returns.

Variable self : Lock.Lock.
Variable lockfile : ConfigFile.

Lemma records_pins_set table k entries rev :
Lock.records_pins table ->
Lock.records_pins (dict_set k (VDict (dict_set "commit" rev entries)) table).
Proof.
intros Hwf key v. destruct (decide (k = key)) as [<- | Hne].
- rewrite dict_get_set_eq. intros [= <-]. eexists _, rev. split; [ done | ].
  apply dict_get_set_eq.
- rewrite dict_get_set_ne by done. apply Hwf.
Qed.

Lemma on_match_returns k rk r st :
Lock.records_pins (Lock.table st) ->
k ∈ dict_keys (Lock.table st) ->
exists st', Lock.on_match self lockfile k rk r st = Ok st'
            /\ Lock.records_pins (Lock.table st')
            /\ dict_keys (Lock.table st') = dict_keys (Lock.table st).
Proof.
intros Hwf Hk. unfold Lock.on_match.
destruct (dict_get k (Lock.table st)) as [ v | ] eqn:Hget.
2: { apply dict_get_None in Hget. by destruct Hget. }
destruct (Hwf k v Hget) as (entries & c & -> & Hc). simpl. rewrite Hc. bind_simpl.
destruct (py_eqb c (Lock.revision_value r)); [ eauto | ].
destruct (Lock._is_external_lockfile self lockfile); cbn [negb]; [ eauto | ].
eexists. split; [ done | ]. simpl. split; [ by apply records_pins_set | ].
clear -Hget. unfold dict_keys.
induction (Lock.table st) as [ | [k1 v1] t IH ]; simpl in Hget |- *; [ done | ].
destruct (String.eqb k1 k); simpl; [ done | by rewrite IH ].
Qed.

Lemma scan_returns k steps : forall position st,
Lock.records_pins (Lock.table st) ->
k ∈ dict_keys (Lock.table st) ->
exists st', Lock.scan self lockfile k steps position st = Ok st'
            /\ Lock.records_pins (Lock.table st')
            /\ dict_keys (Lock.table st') = dict_keys (Lock.table st).
Proof.
induction steps as [ | steps IH ]; intros position st Hwf Hk; simpl; [ eauto | ].
destruct (Lock.repos_to_lock st !! position) as [ [rk r] | ]; [ | eauto ].
destruct (String.eqb k rk); [ | by apply IH ].
destruct (on_match_returns k rk r st Hwf Hk) as (st1 & -> & Hwf1 & Hkeys1).
bind_simpl. destruct (IH (S position) st1 Hwf1) as (st' & -> & Hwf' & Hkeys').
{ by rewrite Hkeys1. }
exists st'. split; [ done | ]. split; [ done | congruence ].
Qed.

Lemma each_lock_returns keys : forall st,
Lock.records_pins (Lock.table st) ->
(forall k, k ∈ keys -> k ∈ dict_keys (Lock.table st)) ->
exists st', Lock.each_lock self lockfile keys st = Ok st'.
Proof.
induction keys as [ | k rest IH ]; intros st Hwf Hkeys; simpl; [ eauto | ].
destruct (scan_returns k (length (Lock.repos_to_lock st)) 0 st Hwf)
  as (st1 & -> & Hwf1 & Hkeys1).
{ apply Hkeys, elem_of_cons. auto. }
bind_simpl. apply IH; [ done | ].
intros k' Hk'. rewrite Hkeys1. apply Hkeys, elem_of_cons. auto.
Qed.

Lemma _update_lockfile_returns floating items :
Lock.lock_table lockfile = Ok (VDict items) ->
Lock.records_pins items ->
exists st, Lock._update_lockfile self lockfile floating = Ok st.
Proof.
intros Htable Hwf. unfold Lock._update_lockfile. rewrite Htable. bind_simpl.
destruct (each_lock_returns (dict_keys items)
            {| Lock.table := items; Lock.repos_to_lock := floating;
               Lock.changed := false; Lock.log := [] |} Hwf (fun _ H => H))
  as (st0 & ->).
bind_simpl. destruct (negb (Lock.changed st0)); eauto.
Qed.

End lock_pass_returns.

(** C3: a pass of [_update_lockfile] over a lock document whose entries
  under [overrides.repos] all record a pin comes to an end, and for a key
  recorded there that is still in [repos_to_lock] with a pin other than
  the repo's revision: if the document is not external the pin becomes
  the revision, the pass is marked changed and the document is dumped with
  the new pin; if it is external the pin stays and a warning is logged.
  Either way the key is gone from the returned list, and a later pass that
  starts from the returned list, over any lock document, neither changes
  the pin recorded for the key nor brings the key back. *)
Theorem C3_lock_reconciliation self lockfile floating items k r c :
NoDup (dict_keys floating) ->
Lock.lock_table lockfile = Ok (VDict items) ->
Lock.records_pins items ->
Lock.pin items k = Some c ->
dict_get k floating = Some r ->
exists st,
  Lock._update_lockfile self lockfile floating = Ok st
  /\ (py_eqb c (Lock.revision_value r) = false ->
      Lock._is_external_lockfile self lockfile = false ->
      Lock.pin (Lock.table st) k = Some (Lock.revision_value r)
      /\ Lock.changed st = true
      /\ exists format,
           Lock.Dumped (filename lockfile)
                       (Lock.with_table (config lockfile) (Lock.table st)) format
           ∈ Lock.log st)
  /\ (py_eqb c (Lock.revision_value r) = false ->
      Lock._is_external_lockfile self lockfile = true ->
      Lock.pin (Lock.table st) k = Some c
      /\ Lock.WarningRemoteLockfile (Lock.name r) (filename lockfile) ∈ Lock.log st)
  /\ (k ∉ dict_keys (Lock.returned st))
  /\ (forall later items' st',
        Lock.lock_table later = Ok (VDict items') ->
        Lock._update_lockfile self later (Lock.returned st) = Ok st' ->
        Lock.pin (Lock.table st') k = Lock.pin items' k
        /\ (k ∉ dict_keys (Lock.returned st'))).
Proof.
intros Hnd Htable Hrecords Hpin Hget.
destruct (_update_lockfile_returns self lockfile floating items Htable Hrecords)
  as (st & Hpass).
exists st. split; [ exact Hpass | ].
assert (Hin : k ∈ dict_keys items).
{ unfold Lock.pin in Hpin. destruct (dict_get k items) eqn:E; [ | done ].
  by eapply dict_get_Some_key. }
assert (Hpass_inv : forall lf fl tbl s,
  Lock.lock_table lf = Ok (VDict tbl) ->
  Lock._update_lockfile self lf fl = Ok s ->
  exists s0,
    Lock.each_lock self lf (dict_keys tbl)
      {| Lock.table := tbl; Lock.repos_to_lock := fl;
         Lock.changed := false; Lock.log := [] |} = Ok s0
    /\ Lock.table s = Lock.table s0 /\ Lock.returned s = Lock.returned s0
    /\ Lock.changed s = Lock.changed s0
    /\ (exists more, Lock.log s = Lock.log s0 ++ more)
    /\ (Lock.changed s0 = true ->
        exists format,
          Lock.Dumped (filename lf) (Lock.with_table (config lf) (Lock.table s0)) format
          ∈ Lock.log s)).
{ intros lf fl tbl s Ht. unfold Lock._update_lockfile. rewrite Ht, bind_Ok.
  intros H. apply bind_Ok_inv in H as (s0 & Heach & H). exists s0.
  split; [ done | ]. destruct (Lock.changed s0) eqn:Hch; cbn [negb] in H;
    injection H as <-; simpl; repeat split; eauto.
  - eexists. apply elem_of_app. right. apply elem_of_cons. right.
    by apply list_elem_of_singleton.
  - exists []. by rewrite app_nil_r.
  - discriminate. }
destruct (Hpass_inv _ _ _ _ Htable Hpass)
  as (st0 & Heach & Ht & Hr & Hc & [more Hlog] & Hdump).
destruct ((fun H => each_lock_key self lockfile _ k r c _ _ H Heach Hin Hget Hpin) Hnd)
  as (Hgone & Hupd & Hwarn).
destruct ((fun H => each_lock_frame self lockfile _ _ _ H Heach) Hnd) as (Hnd0 & _).
rewrite Ht, Hr, Hc. split; [ | split; [ | split ] ].
- intros Hneq Hext. destruct (Hupd Hneq Hext) as [Hp Hch].
  split; [ done | ]. split; [ done | ].
  destruct (Hdump Hch) as [format Hd]. by exists format.
- intros Hneq Hext. destruct (Hwarn Hneq Hext) as [Hp Hw]. split; [ done | ].
  rewrite Hlog. apply elem_of_app. by left.
- done.
- intros later items' st' Htable' Hpass'.
  destruct (Hpass_inv _ _ _ _ Htable' Hpass') as (st0' & Heach' & Ht' & Hr' & _).
  destruct ((fun H => each_lock_frame self later _ _ _ H Heach') Hnd0) as (_ & Hout & _).
  destruct (Hout k Hgone) as [Hgone' Hpin']. by rewrite Ht', Hr'.
Qed.

(** The documents of [get_config]: one block per top file, in order. *)
Lemma top_files_loop_blocks sys repos fuel files : forall self configs missing r,
top_files_loop sys repos fuel files self configs missing = Ok r ->
exists blocks,
  Forall2 (fun file block =>
             exists self0 reps self1,
               _internal_include_handler sys repos fuel self0 file
                                         (top_repo_path self0) false false
               = Ok (block, reps, self1))
          files blocks
  /\ r.1.1 = configs ++ concat blocks.
Proof.
induction files as [ | file rest IH ]; intros self configs missing r; simpl.
- intros [= <-]. exists []. split; [ constructor | by rewrite app_nil_r ].
- intros H. apply bind_Ok_inv in H as ([[cfgs reps] self1] & Hvisit & H).
  apply IH in H as (blocks & Hblocks & ->). exists (cfgs :: blocks).
  split; [ constructor; eauto | ]. simpl. by rewrite app_assoc.
Qed.

(** ** The merger on the store computes the merger on trees *)

Lemma reifies_mapM depth h entries d :
mapM (fun e => pair e.1 <$> Heap.reify depth h e.2) entries = Some d <->
reifies depth h entries d.
Proof.
unfold reifies. rewrite mapM_Some. split; intros H.
- eapply Forall2_impl; [ exact H | ]. intros e x Hx. simpl in Hx.
  apply fmap_Some in Hx as (v & Hv & ->). auto.
- eapply Forall2_impl; [ exact H | ]. intros e [k v] [Hk Hv]. simpl in *.
  rewrite Hv. simpl. by rewrite Hk.
Qed.

Lemma reify_dict depth h l d :
Heap.reify (S depth) h (Heap.RObj l) = Some (VDict d) <->
exists entries, h !! l = Some (Heap.ODict entries) /\ reifies depth h entries d.
Proof.
simpl. split.
- destruct (h !! l) as [ [ entries | items ] | ]; [ | | done ]; intros H;
    apply fmap_Some in H as (x & Hx & Heq); [ | done ].
  injection Heq as ->. exists entries. split; [ done | by apply reifies_mapM ].
- intros (entries & -> & H). apply reifies_mapM in H. by rewrite H.
Qed.

Lemma reify_dict_inv depth h r d :
Heap.reify depth h r = Some (VDict d) ->
exists l depth', r = Heap.RObj l /\ depth = S depth'.
Proof.
destruct depth as [ | depth' ], r as [ | | | | l ]; simpl; try discriminate.
eauto.
Qed.

Lemma reify_is_Mapping depth h r v :
Heap.reify depth h r = Some v ->
Heap.is_Mapping h r = is_mapping v.
Proof.
destruct depth as [ | depth ], r as [ | | | | l ]; simpl;
  try (by intros [= <-]); try discriminate.
destruct (h !! l) as [ [ entries | items ] | ]; [ | | done ]; intros H;
  apply fmap_Some in H as (x & _ & ->); done.
Qed.

Lemma reifies_app depth h ext entries d :
reifies depth h entries d -> reifies depth (h ++ ext) entries d.
Proof.
intros H. eapply Forall2_impl; [ exact H | ].
intros e x [Hk Hv]. split; [ done | by apply heap_reify_app ].
Qed.

Lemma reifies_keys depth h entries d :
reifies depth h entries d -> dict_keys d = dict_keys entries.
Proof.
unfold dict_keys. induction 1 as [ | e x es xs [Hk _] _ IH ]; simpl; [ done | ].
by rewrite IH, Hk.
Qed.

Lemma reifies_get depth h entries d key :
reifies depth h entries d ->
match dict_get key entries with
| Some r => exists v, dict_get key d = Some v /\ Heap.reify depth h r = Some v
| None => dict_get key d = None
end.
Proof.
induction 1 as [ | [k r] [k' v] es xs [Hk Hv] _ IH ]; simpl in *; [ done | ].
subst k'. destruct (String.eqb k key); [ eauto | exact IH ].
Qed.

Lemma reifies_set depth h entries d key r v :
reifies depth h entries d -> Heap.reify depth h r = Some v ->
reifies depth h (dict_set key r entries) (dict_set key v d).
Proof.
intros H Hr. induction H as [ | [k r0] [k' v0] es xs [Hk Hv] Hrest IH ]; simpl in *.
- by repeat constructor.
- subst k'. destruct (String.eqb k key); constructor; auto.
Qed.

Lemma keys_intersect_keys {A B} (d u : list (string * A)) (d' u' : list (string * B)) :
dict_keys d = dict_keys d' -> dict_keys u = dict_keys u' ->
keys_intersect d u = keys_intersect d' u'.
Proof. unfold keys_intersect, has_key. by intros -> ->. Qed.

(** The store with the copy under construction at address
  [length (p ++ rest)]. *)
Lemma heap_lookup_copy (p rest : Heap.heap) o ext :
(p ++ rest ++ [o] ++ ext) !! length (p ++ rest) = Some o.
Proof. rewrite app_assoc. by apply list_lookup_middle. Qed.

Lemma heap_getitem_copy (p rest : Heap.heap) ce ext key :
Heap.getitem (p ++ rest ++ [Heap.ODict ce] ++ ext) (length (p ++ rest)) key
= dict_get key ce.
Proof. unfold Heap.getitem. by rewrite heap_lookup_copy. Qed.

Lemma heap_setitem_copy (p rest : Heap.heap) ce ext key r :
Heap.setitem (p ++ rest ++ [Heap.ODict ce] ++ ext) (length (p ++ rest)) key r
= p ++ rest ++ [Heap.ODict (dict_set key r ce)] ++ ext.
Proof.
unfold Heap.setitem. rewrite heap_lookup_copy.
rewrite !(app_assoc p rest). rewrite <- (Nat.add_0_r (length (p ++ rest))) at 1.
by rewrite insert_app_r.
Qed.

Section heap_refinement_loops.

Variable depth : nat.
Variable p : Heap.heap.
Hypothesis IHdepth : heap_merge_computes depth p.

Variable rest : Heap.heap.
Variable lu : Heap.loc.
Variable ue : list (string * Heap.ref).
Hypothesis Hlu : p !! lu = Some (Heap.ODict ue).
Hypothesis Hunique : NoDup (dict_keys ue).

Let new := length (p ++ rest).

Lemma heap_getitem_upd ce ext key val :
(key, val) ∈ ue ->
Heap.getitem (p ++ rest ++ [Heap.ODict ce] ++ ext) lu key = Some val.
Proof using Hlu Hunique.
intros Hin. rewrite (heap_getitem_app _ _ _ _ _ Hlu). by apply dict_get_entry.
Qed.

Lemma heap_merge_keys_computes its_e its :
reifies depth p its_e its ->
(forall e, e ∈ its_e -> e ∈ ue) ->
NoDup (dict_keys its_e) ->
forall ce cur ext,
  (forall rest' o, length rest' = length rest ->
                   reifies depth (p ++ rest' ++ [o] ++ ext) ce cur) ->
  (forall k x, k ∈ dict_keys its_e -> dict_get k ce = Some x ->
               is_Some (Heap.reify depth p x)) ->
  exists ce' ext' final,
    Heap.merge_keys (Heap._internal_dict_merge depth) new lu (dict_keys its_e)
                    (p ++ rest ++ [Heap.ODict ce] ++ ext)
      = Ok (p ++ rest ++ [Heap.ODict ce'] ++ ext')
    /\ merge_loop cur its = Ok (VDict final)
    /\ (forall rest' o, length rest' = length rest ->
                        reifies depth (p ++ rest' ++ [o] ++ ext') ce' final).
Proof using IHdepth Hlu Hunique.
induction 1 as [ | [k val] [k' v] es xs [Hk Hv] Hrest IH ];
  intros Hsub Hnd ce cur ext Hce Horig.
{ exists ce, ext, cur. auto. }
simpl in Hk, Hv. subst k'. simpl in Hnd. apply NoDup_cons in Hnd as [Hk Hnd].
assert (Hsub' : forall e, e ∈ es -> e ∈ ue)
  by (intros e He; apply Hsub, elem_of_cons; auto).
cbn [dict_keys map fst Heap.merge_keys merge_loop].
rewrite (heap_getitem_upd _ _ k val) by (apply Hsub, elem_of_cons; auto).
unfold new. rewrite heap_getitem_copy.
pose proof (Hce rest (Heap.ODict ce) eq_refl) as Hnow.
assert (Hval : Heap.reify depth (p ++ rest ++ [Heap.ODict ce] ++ ext) val = Some v)
  by by apply heap_reify_app.
rewrite (reify_is_Mapping _ _ _ _ Hval).
pose proof (reifies_get _ _ _ _ k Hnow) as Hget.
assert (Hstep : forall r w ext2,
  (forall rest' o, length rest' = length rest ->
                   Heap.reify depth (p ++ rest' ++ [o] ++ ext ++ ext2) r = Some w) ->
  exists ce' ext' final,
    Heap.merge_keys (Heap._internal_dict_merge depth) (length (p ++ rest)) lu
                    (dict_keys es)
                    (p ++ rest ++ [Heap.ODict (dict_set k r ce)] ++ ext ++ ext2)
      = Ok (p ++ rest ++ [Heap.ODict ce'] ++ ext')
    /\ merge_loop (dict_set k w cur) xs = Ok (VDict final)
    /\ (forall rest' o, length rest' = length rest ->
                        reifies depth (p ++ rest' ++ [o] ++ ext') ce' final)).
{ intros r w ext2 Hr. apply IH; [ done | done | | ].
  - intros rest' o Hlen. apply reifies_set; [ | by apply Hr ].
    specialize (Hce rest' o Hlen). apply (reifies_app _ _ ext2) in Hce.
    by rewrite <- !app_assoc in Hce.
  - intros k1 x Hk1 Hx. assert (k <> k1) by (intros ->; by apply Hk).
    rewrite dict_get_set_ne in Hx by done. apply (Horig k1); [ | done ].
    apply elem_of_cons. by right. }
assert (Hplain :
  exists ce' ext' final,
    Heap.merge_keys (Heap._internal_dict_merge depth) (length (p ++ rest)) lu
                    (dict_keys es)
                    (Heap.setitem (p ++ rest ++ [Heap.ODict ce] ++ ext)
                                  (length (p ++ rest)) k val)
      = Ok (p ++ rest ++ [Heap.ODict ce'] ++ ext')
    /\ merge_loop (dict_set k v cur) xs = Ok (VDict final)
    /\ (forall rest' o, length rest' = length rest ->
                        reifies depth (p ++ rest' ++ [o] ++ ext') ce' final)).
{ rewrite heap_setitem_copy.
  destruct (Hstep val v []) as (ce' & ext' & final & H1 & H2 & H3).
  - intros rest' o _. rewrite app_nil_r.
    by apply (heap_reify_app _ p (rest' ++ [o] ++ ext)).
  - rewrite app_nil_r in H1. eauto 6. }
destruct (dict_get k ce) as [ x | ] eqn:Hx.
2: { rewrite Hget. simpl. exact Hplain. }
destruct Hget as (sv & -> & Hsv). cbn [from_option id].
rewrite (reify_is_Mapping _ _ _ _ Hsv).
destruct sv as [ | | | | | sub ]; try exact Hplain.
destruct v as [ | | | | | uv ]; try exact Hplain. cbn [is_mapping andb].
assert (Hxp : Heap.reify depth p x = Some (VDict sub)).
{ destruct (Horig k x ltac:(apply elem_of_cons; by left) Hx) as [w Hw].
  pose proof (heap_reify_app _ _ (rest ++ [Heap.ODict ce] ++ ext) _ _ Hw) as Hw'.
  congruence. }
destruct (IHdepth (rest ++ [Heap.ODict ce] ++ ext) x val sub uv Hxp Hv)
  as (new2 & merged & Hmerge & Hpure & Hread).
rewrite Hmerge, Hpure. bind_simpl.
replace (p ++ (rest ++ [Heap.ODict ce] ++ ext) ++ new2)
  with (p ++ rest ++ [Heap.ODict ce] ++ ext ++ new2)
  by (by rewrite <- !app_assoc).
rewrite heap_setitem_copy. apply Hstep.
intros rest' o Hlen. specialize (Hread (rest' ++ [o] ++ ext)).
rewrite <- !app_assoc in Hread. apply Hread.
rewrite !length_app. simpl. lia.
Qed.

Lemma heap_update_keys_computes its_e its :
reifies depth p its_e its ->
(forall e, e ∈ its_e -> e ∈ ue) ->
NoDup (dict_keys its_e) ->
forall ce cur ext,
  (forall rest' o, length rest' = length rest ->
                   reifies depth (p ++ rest' ++ [o] ++ ext) ce cur) ->
  exists ce',
    Heap.update_keys new lu (dict_keys its_e) (p ++ rest ++ [Heap.ODict ce] ++ ext)
      = Ok (p ++ rest ++ [Heap.ODict ce'] ++ ext)
    /\ (forall rest' o, length rest' = length rest ->
                        reifies depth (p ++ rest' ++ [o] ++ ext) ce'
                                (dict_update cur its)).
Proof using Hlu Hunique.
induction 1 as [ | [k val] [k' v] es xs [Hk Hv] Hrest IH ];
  intros Hsub Hnd ce cur ext Hce.
{ exists ce. auto. }
simpl in Hk, Hv. subst k'. simpl in Hnd. apply NoDup_cons in Hnd as [Hk Hnd].
cbn [dict_keys map fst Heap.update_keys dict_update].
rewrite (heap_getitem_upd _ _ k val) by (apply Hsub, elem_of_cons; auto).
unfold new. rewrite heap_setitem_copy. apply IH; [ | done | ].
- intros e He. apply Hsub, elem_of_cons. auto.
- intros rest' o Hlen. apply reifies_set; [ by apply Hce | ].
  by apply (heap_reify_app _ p (rest' ++ [o] ++ ext)).
Qed.

End heap_refinement_loops.

Lemma heap_merge_computes_all depth p :
heap_unique_keys p -> heap_merge_computes depth p.
Proof.
intros Hunique. induction depth as [ | depth IH ]; intros rest dest upd d u Hd Hu.
{ apply reify_dict_inv in Hd as (? & ? & _ & ?). discriminate. }
destruct (reify_dict_inv _ _ _ _ Hd) as (ld & _ & -> & _).
destruct (reify_dict_inv _ _ _ _ Hu) as (lu & _ & -> & _).
apply reify_dict in Hd as (de & Hld & Hde). apply reify_dict in Hu as (ue & Hlu & Hue).
cbn [Heap._internal_dict_merge]. unfold Heap.merge_body.
rewrite (lookup_app_l_Some _ _ _ _ Hld), (lookup_app_l_Some _ _ _ _ Hlu).
cbn [Heap.copy_dict].
rewrite (keys_intersect_keys de ue d u)
  by (symmetry; eapply reifies_keys; eauto).
rewrite _internal_dict_merge_unfold.
replace ((p ++ rest) ++ [Heap.ODict de]) with (p ++ rest ++ [Heap.ODict de] ++ [])
  by (by rewrite app_nil_r, app_assoc).
assert (Hcopy : forall rest' o, length rest' = length rest ->
                                reifies depth (p ++ rest' ++ [o] ++ []) de d).
{ intros rest' o _. by apply reifies_app. }
assert (Hread : forall ce ext final,
  (forall rest' o, length rest' = length rest ->
                   reifies depth (p ++ rest' ++ [o] ++ ext) ce final) ->
  forall rest', length rest' = length rest ->
    Heap.reify (S depth) (p ++ rest' ++ [Heap.ODict ce] ++ ext)
               (Heap.RObj (length (p ++ rest))) = Some (VDict final)).
{ intros ce ext final Hce rest' Hlen. apply reify_dict. exists ce. split; [ | by apply Hce ].
  replace (length (p ++ rest)) with (length (p ++ rest'))
    by (rewrite !length_app; lia).
  apply heap_lookup_copy. }
destruct (keys_intersect d u).
- destruct (heap_merge_keys_computes depth p IH rest lu ue Hlu (Hunique _ _ Hlu)
              ue u Hue (fun _ H => H) (Hunique _ _ Hlu) de d [] Hcopy)
    as (ce' & ext' & final & -> & Hpure & Hfinal).
  { intros k r _ Hx. pose proof (reifies_get _ _ _ _ k Hde) as Hget.
    rewrite Hx in Hget. destruct Hget as (v & _ & Hv). eauto. }
  bind_simpl. exists ([Heap.ODict ce'] ++ ext'), final.
  split; [ done | ]. split; [ done | ]. by apply Hread.
- destruct (heap_update_keys_computes depth p rest lu ue Hlu (Hunique _ _ Hlu)
              ue u Hue (fun _ H => H) (Hunique _ _ Hlu) de d [] Hcopy)
    as (ce' & -> & Hfinal).
  bind_simpl. exists ([Heap.ODict ce'] ++ []), (dict_update d u).
  split; [ done | ]. split; [ done | ]. by apply Hread.
Qed.

(** The two embeddings of [_internal_dict_merge] agree: on a store whose
  dicts hold every key once, merging two bodies that read as the trees
  [d] and [u] returns a new mapping that reads as the merge of [d] and
  [u]. *)
Theorem heap_merge_refines depth h dest upd d u :
heap_unique_keys h ->
Heap.reify depth h dest = Some (VDict d) ->
Heap.reify depth h upd = Some (VDict u) ->
exists new_objects merged,
  Heap._internal_dict_merge depth h dest upd
    = Ok (h ++ new_objects, Heap.RObj (length h))
  /\ _internal_dict_merge (VDict d) (VDict u) = Ok (VDict merged)
  /\ Heap.reify depth (h ++ new_objects) (Heap.RObj (length h)) = Some (VDict merged).
Proof.
intros Hunique Hd Hu.
destruct (heap_merge_computes_all depth h Hunique [] dest upd d u Hd Hu)
  as (new_objects & merged & Hmerge & Hpure & Hread).
rewrite app_nil_r in Hmerge. simpl in Hmerge.
exists new_objects, merged. split; [ exact Hmerge | ]. split; [ exact Hpure | ].
specialize (Hread [] eq_refl). by rewrite app_nil_r in Hread.
Qed.

(** * Further properties of the merger, the resolver and the lock pass *)

(** ** The merger *)

Lemma has_key_set {A} key (v : A) d k :
  has_key k (dict_set key v d) = has_key k d || String.eqb k key.
Proof.
  apply eq_true_iff_eq. rewrite orb_true_iff, !has_key_spec, dict_keys_set.
  rewrite String.eqb_eq. split; intros [H | H]; auto.
Qed.

Lemma dict_keys_set_order {A} key (v : A) d :
  dict_keys (dict_set key v d)
  = if has_key key d then dict_keys d else dict_keys d ++ [key].
Proof.
  unfold has_key. induction d as [ | [k x] rest IH ]; [ done | ].
  cbn [dict_set dict_keys map fst existsb]. rewrite (String.eqb_sym key k).
  destruct (String.eqb k key); [ done | ]. cbn [orb map fst].
  fold (dict_keys (dict_set key v rest)). rewrite IH.
  unfold dict_keys. by destruct (existsb (String.eqb key) (map fst rest)).
Qed.

(** Assigning the entries of [items] one after the other leaves the keys
    that were there in place and appends the new ones as they come. *)
Lemma assign_keys_order {A} (key : string) (v : A) (cur : list (string * A)) rest :
  key ∉ rest ->
  dict_keys (dict_set key v cur)
    ++ List.filter (fun k => negb (has_key k (dict_set key v cur))) rest
  = dict_keys cur ++ List.filter (fun k => negb (has_key k cur)) (key :: rest).
Proof.
  intros Hfresh. rewrite dict_keys_set_order. cbn [List.filter].
  assert (Hsame : List.filter (fun k => negb (has_key k (dict_set key v cur))) rest
                  = List.filter (fun k => negb (has_key k cur)) rest).
  { apply filter_ext_in. intros k Hk. rewrite has_key_set.
    destruct (String.eqb_spec k key) as [-> | _].
    - destruct Hfresh. by apply list_elem_of_In.
    - by rewrite orb_false_r. }
  rewrite Hsame. destruct (has_key key cur); cbn [negb]; [ done | ].
  by rewrite <- app_assoc.
Qed.

Lemma dict_update_keys_order {A} (items : list (string * A)) : forall cur,
  NoDup (dict_keys items) ->
  dict_keys (dict_update cur items)
  = dict_keys cur ++ List.filter (fun k => negb (has_key k cur)) (dict_keys items).
Proof.
  induction items as [ | [key v] rest IH ]; intros cur Hnd.
  - simpl. by rewrite app_nil_r.
  - apply NoDup_cons in Hnd as [Hfresh Hnd]. cbn [dict_update].
    rewrite IH by done. by apply assign_keys_order.
Qed.

Lemma merge_loop_keys_order items : forall cur r,
  NoDup (dict_keys items) ->
  merge_loop cur items = Ok (VDict r) ->
  dict_keys r
  = dict_keys cur ++ List.filter (fun k => negb (has_key k cur)) (dict_keys items).
Proof.
  induction items as [ | [key v] rest IH ]; intros cur r Hnd.
  - simpl. intros [= <-]. by rewrite app_nil_r.
  - apply NoDup_cons in Hnd as [Hfresh Hnd]. cbn [merge_loop].
    assert (Hstep : forall x, merge_loop (dict_set key x cur) rest = Ok (VDict r) ->
              dict_keys r = dict_keys cur
                ++ List.filter (fun k => negb (has_key k cur)) (dict_keys ((key, v) :: rest))).
    { intros x Hx. rewrite (IH _ _ Hnd Hx). by apply assign_keys_order. }
    destruct (dict_get key cur) as [ [ | | | | | sub ] | ]; eauto.
    destruct v; eauto.
    intros H. apply bind_Ok_inv in H as (ret & _ & H). eauto.
Qed.

(** X2: the merged mapping lists the keys of [dest] in their order,
    followed by the keys that only [upd] has, in the order of [upd]. *)
Theorem X2_merge_key_order (d u merged : dict) :
  NoDup (dict_keys u) ->
  _internal_dict_merge (VDict d) (VDict u) = Ok (VDict merged) ->
  dict_keys merged
  = dict_keys d ++ List.filter (fun k => negb (has_key k d)) (dict_keys u).
Proof.
  intros Hnd. rewrite _internal_dict_merge_unfold.
  destruct (keys_intersect d u).
  - by apply merge_loop_keys_order.
  - intros [= <-]. by apply dict_update_keys_order.
Qed.

(** X1: the merger raises [IncludeException] exactly when one of its
    arguments is not a mapping; on two mappings it returns a mapping,
    whatever they hold at any depth. *)
Theorem X1_merge_fails_only_on_non_mapping (dest upd : value) :
  if is_mapping dest && is_mapping upd
  then exists merged, _internal_dict_merge dest upd = Ok (VDict merged)
  else _internal_dict_merge dest upd
       = Raise (IncludeException "Cannot merge using non-dict").
Proof.
  destruct dest as [ | | | | | d ], upd as [ | | | | | u ]; try reflexivity.
  apply _internal_dict_merge_total.
Qed.

Lemma dict_set_append {A} key (v : A) d :
  key ∉ dict_keys d -> dict_set key v d = d ++ [(key, v)].
Proof.
  induction d as [ | [k x] rest IH ]; [ done | ].
  cbn [dict_keys map fst]. intros Hfresh. apply not_elem_of_cons in Hfresh as [Hne Hfresh].
  cbn [dict_set]. destruct (String.eqb_spec k key) as [-> | _]; [ done | ].
  simpl. f_equal. by apply IH.
Qed.

Lemma dict_update_append {A} (items : list (string * A)) : forall cur,
  NoDup (dict_keys items) ->
  (forall k, k ∈ dict_keys cur -> k ∉ dict_keys items) ->
  dict_update cur items = cur ++ items.
Proof.
  induction items as [ | [key v] rest IH ]; intros cur Hnd Hdisjoint.
  - simpl. by rewrite app_nil_r.
  - apply NoDup_cons in Hnd as [Hfresh Hnd]. cbn [dict_update].
    rewrite dict_set_append.
    2: { intros Hin. apply (Hdisjoint _ Hin). cbn [dict_keys map fst]. apply elem_of_cons. auto. }
    rewrite IH; [ by rewrite <- app_assoc | done | ].
    intros k Hk. unfold dict_keys in Hk. rewrite map_app in Hk.
    apply elem_of_app in Hk as [Hk | Hk].
    + intros Hin. apply (Hdisjoint _ Hk). cbn [dict_keys map fst]. apply elem_of_cons. auto.
    + apply list_elem_of_singleton in Hk as ->. exact Hfresh.
Qed.

Lemma keys_intersect_disjoint {A} (d u : list (string * A)) :
  (forall k, k ∈ dict_keys d -> k ∉ dict_keys u) -> keys_intersect d u = false.
Proof.
  intros Hdisjoint. unfold keys_intersect. apply not_true_iff_false.
  rewrite existsb_exists. intros (k & Hk & Hu).
  apply has_key_spec in Hu. apply list_elem_of_In in Hk. by apply (Hdisjoint k).
Qed.

(** X3: two mappings that share no top-level key are merged by putting
    the entries of [upd] behind those of [dest]; in particular the empty
    mapping is neutral on both sides. *)
Theorem X3_merge_disjoint_appends (d u : dict) :
  NoDup (dict_keys u) ->
  (forall k, k ∈ dict_keys d -> k ∉ dict_keys u) ->
  _internal_dict_merge (VDict d) (VDict u) = Ok (VDict (d ++ u))
  /\ _internal_dict_merge (VDict d) (VDict []) = Ok (VDict d)
  /\ _internal_dict_merge (VDict []) (VDict u) = Ok (VDict u).
Proof.
  intros Hnd Hdisjoint. rewrite !_internal_dict_merge_unfold.
  rewrite (keys_intersect_disjoint d u Hdisjoint).
  rewrite (keys_intersect_disjoint d []) by (intros k _; apply not_elem_of_nil).
  rewrite (keys_intersect_disjoint [] u) by (intros k Hk; by apply not_elem_of_nil in Hk).
  rewrite !dict_update_append; try done.
  - by rewrite app_nil_r.
  - intros k Hk. by apply not_elem_of_nil in Hk.
  - constructor.
  - intros k _. apply not_elem_of_nil.
Qed.

(** ** The resolver *)

Lemma bind_Raise_inv {A B} (r : result A) (k : A -> result B) e :
  (x ← r; k x) = Raise e -> r = Raise e \/ exists a, r = Ok a /\ k a = Raise e.
Proof. destruct r as [ a | e' | ]; simpl; [ eauto | intros [= ->]; auto | discriminate ]. Qed.

Lemma _load_config_mapping sys file config sd :
  _load_config sys file = Ok (config, sd) ->
  is_mapping config = true
  /\ stat sys file = Found (RegularFile (Parsed config))
  /\ sd = from_option id VNone
            (match config with VDict d => dict_get SOURCE_DIR_OVERRIDE_KEY d | _ => None end).
Proof.
  unfold _load_config.
  destruct (_ || _); [ | discriminate ].
  destruct (stat sys file) as [ | | [ | [ | body ] ] ]; try discriminate.
  destruct (negb (schema_valid body)); [ discriminate | ].
  intros H. apply bind_Ok_inv in H as (n & Hversion & H).
  destruct (_ || _); [ discriminate | ].
  apply bind_Ok_inv in H as (proxy & _ & H).
  apply bind_Ok_inv in H as (src & Hsrc & H). injection H as <- <-.
  destruct body; try discriminate. simpl in Hsrc. injection Hsrc as <-. done.
Qed.

Lemma ConfigFile_init_mapping sys file il ie c :
  ConfigFile_init sys file il ie = Ok c -> is_mapping (config c) = true.
Proof.
  unfold ConfigFile_init. intros H.
  apply bind_Ok_inv in H as ([body sd] & Hload & H). injection H as <-.
  by apply _load_config_mapping in Hload as [? _].
Qed.

Section contributions_facts.

Variable sys : filesystem.
Variable repos : gmap string string.
Variable recurse : IncludeHandler -> string -> value -> bool -> bool -> result visited.

Lemma include_step_outcome current repo_path ie self configs missing include r :
  include_step sys repos recurse current repo_path ie self configs missing include = Ok r
  <-> exists cfg rep self',
        include_outcome sys repos recurse current repo_path ie self include cfg rep self'
        /\ r = (configs ++ cfg, missing ++ rep, self').
Proof.
  split.
  - unfold include_step.
    destruct include as [ | | | inc | | inc ];
      try (intros [= <-]; exists [], [], self; rewrite !app_nil_r;
           split; [ by apply other_include | done ]).
    + intros H. apply bind_Ok_inv in H as (includefile & Hfile & H).
      apply bind_Ok_inv in H as ([[cfg rep] self'] & Hrec & H). injection H as <-.
      exists cfg, rep, self'. split; [ | done ]. by eapply local_include.
    + intros H. apply bind_Ok_inv in H as (includedir & Hdir & H).
      destruct includedir as [ includedir | ].
      * destruct (dict_get "file" inc) as [ includefile | ] eqn:Hf; [ | discriminate ].
        apply bind_Ok_inv in H as (file & Hfile & H).
        apply bind_Ok_inv in H as ([[cfg rep] self'] & Hrec & H). injection H as <-.
        destruct includefile; try discriminate. injection Hfile as ->.
        exists cfg, rep, self'. split; [ | done ]. by eapply cross_include.
      * injection H as <-. eexists [], _, self. rewrite app_nil_r.
        split; [ by apply missing_repo | done ].
  - intros (cfg & rep & self' & Hout & ->).
    destruct Hout as [ inc includefile cfg rep self' Hfile Hrec
                     | inc includedir includefile cfg rep self' Hdir Hf Hrec
                     | inc Hdir | include Hother ].
    + by eapply include_step_local.
    + by eapply include_step_known_repo.
    + rewrite app_nil_r. by apply include_step_unknown_repo.
    + rewrite !app_nil_r. by destruct include.
Qed.

Lemma include_loop_outcome current repo_path ie includes : forall self configs missing r,
  include_loop sys repos recurse current repo_path ie includes self configs missing = Ok r
  <-> exists cfgs reps self',
        loop_outcome sys repos recurse current repo_path ie self includes cfgs reps self'
        /\ r = (configs ++ cfgs, missing ++ reps, self').
Proof.
  induction includes as [ | include rest IH ]; intros self configs missing r;
    cbn [include_loop].
  - split.
    + intros [= <-]. exists [], [], self. rewrite !app_nil_r. split; [ constructor | done ].
    + intros (cfgs & reps & self' & Hout & ->). inversion Hout; subst.
      by rewrite !app_nil_r.
  - split.
    + intros H. apply bind_Ok_inv in H as ([[c m] s] & Hstep & H).
      apply include_step_outcome in Hstep as (cfg & rep & self1 & Hout & [= -> -> ->]).
      apply IH in H as (cfgs & reps & self' & Hloop & ->).
      exists (cfg ++ cfgs), (rep ++ reps), self'.
      split; [ by econstructor | by rewrite !app_assoc ].
    + intros (cfgs & reps & self' & Hout & ->). inversion Hout; subst.
      match goal with
      | Hone : include_outcome _ _ _ _ _ _ _ _ ?cfg ?rep ?self1 |- _ =>
          assert (Hstep : include_step sys repos recurse current repo_path ie
                            self configs missing include
                          = Ok (configs ++ cfg, missing ++ rep, self1))
            by (apply include_step_outcome; eauto)
      end.
      rewrite Hstep, bind_Ok. apply IH. do 3 eexists. split; [ eassumption | ].
      by rewrite !app_assoc.
Qed.

Lemma handler_body_outcome dedup self file repo_path il ie configs missing self' :
  handler_body sys repos recurse dedup self file repo_path il ie
    = Ok (configs, missing, self')
  <-> exists current lock_cfgs lock_reps self1 includes cfgs reps,
        ConfigFile_init sys file il ie = Ok current
        /\ (if use_lock self && path_exists sys (lock_sibling file)
            then recurse self (lock_sibling file) repo_path true ie
            else Ok ([], [], self)) = Ok (lock_cfgs, lock_reps, self1)
        /\ header_includes (config current) = Ok includes
        /\ loop_outcome sys repos recurse current
             (if truthy (src_dir current) then src_dir current else repo_path) ie
             (if truthy (src_dir current)
              then set_top_repo_path self1 (src_dir current) else self1)
             includes cfgs reps self'
        /\ configs = lock_cfgs ++ cfgs ++ [current]
        /\ missing = (if dedup then fromkeys (lock_reps ++ reps) else lock_reps ++ reps).
Proof.
  unfold handler_body. split.
  - destruct (ConfigFile_init sys file il ie) as [ current | [] | ] eqn:Hinit;
      try discriminate.
    destruct (try_block sys recurse self current file repo_path ie)
      as [ [[[c0 m0] s0] rp0] | [] | ] eqn:Htry; try discriminate.
    intros Hafter.
    apply ConfigFile_init_Ok in Hinit as Hfile. destruct Hfile as (_ & _ & _ & Hext).
    unfold try_block, get_lockfile in Htry.
    rewrite (recognized_extension_nonempty _ Hext) in Htry. cbn [negb] in Htry.
    rewrite !bind_Ok in Htry.
    apply bind_Ok_inv in Htry as ([[lock_cfgs lock_reps] self1] & Hlock & Htry).
    apply after_try_Ok in Hafter
      as (includes & cfgs & reps & s & _ & Hincludes & Hloop & Hr).
    apply include_loop_outcome in Hloop as (cfgs' & reps' & s' & Hout & Heq).
    injection Heq as -> -> ->. injection Hr as -> -> ->.
    exists current, lock_cfgs, lock_reps, self1, includes, cfgs', reps'.
    split; [ done | ]. split; [ done | ]. split; [ done | ].
    destruct (truthy (src_dir current)); injection Htry as <- <- <- <-;
      (split; [ done | ]); by rewrite <- app_assoc.
  - intros (current & lock_cfgs & lock_reps & self1 & includes & cfgs & reps
            & Hinit & Hlock & Hincludes & Hout & -> & ->).
    rewrite Hinit.
    apply ConfigFile_init_Ok in Hinit as Hfile. destruct Hfile as (_ & _ & _ & Hext).
    assert (Htry : try_block sys recurse self current file repo_path ie
                   = Ok (lock_cfgs, lock_reps,
                         if truthy (src_dir current)
                         then set_top_repo_path self1 (src_dir current) else self1,
                         if truthy (src_dir current) then src_dir current else repo_path)).
    { unfold try_block, get_lockfile.
      rewrite (recognized_extension_nonempty _ Hext). cbn [negb].
      rewrite !bind_Ok.
      destruct (use_lock self && path_exists sys (lock_sibling file));
        [ rewrite Hlock | injection Hlock as <- <- <- ];
        rewrite bind_Ok; by destruct (truthy (src_dir current)). }
    rewrite Htry. unfold after_try.
    rewrite (ConfigFile_init_mapping _ _ _ _ _ Hinit). cbn [negb].
    rewrite Hincludes, bind_Ok.
    assert (Hloop : include_loop sys repos recurse current
                      (if truthy (src_dir current) then src_dir current else repo_path) ie
                      includes
                      (if truthy (src_dir current)
                       then set_top_repo_path self1 (src_dir current) else self1)
                      lock_cfgs lock_reps
                    = Ok (lock_cfgs ++ cfgs, lock_reps ++ reps, self'))
      by (apply include_loop_outcome; eauto).
    rewrite Hloop, bind_Ok. by rewrite <- app_assoc.
Qed.

End contributions_facts.

(** A property of successful visits holds if every call passes it on from
    the calls it makes. *)
Section visit_induction.

Variable sys : filesystem.
Variable repos : gmap string string.
Variable P : IncludeHandler -> string -> value -> bool -> bool
             -> list ConfigFile -> list value -> IncludeHandler -> Prop.

Hypothesis Hbody : forall recurse,
  (forall self file repo_path il ie c m s,
      recurse self file repo_path il ie = Ok (c, m, s) ->
      P self file repo_path il ie c m s) ->
  forall self file repo_path il ie c m s,
    handler_body sys repos recurse true self file repo_path il ie = Ok (c, m, s) ->
    P self file repo_path il ie c m s.

Lemma visit_ind fuel : forall self file repo_path il ie c m s,
  _internal_include_handler sys repos fuel self file repo_path il ie = Ok (c, m, s) ->
  P self file repo_path il ie c m s.
Proof.
  induction fuel as [ | fuel IH ]; [ discriminate | ].
  intros self file repo_path il ie c m s. cbn [_internal_include_handler].
  by apply Hbody.
Qed.

End visit_induction.

Lemma elem_of_append_unseen x l : forall acc,
  x ∈ append_unseen acc l -> x ∈ acc \/ x ∈ l.
Proof.
  induction l as [ | y rest IH ]; intros acc; [ auto | ].
  rewrite append_unseen_cons. intros H. apply IH in H as [H | H].
  - destruct (py_in y acc).
    + auto.
    + apply elem_of_app in H as [H | H]; [ auto | ].
      apply list_elem_of_singleton in H as ->. right. apply elem_of_cons. auto.
  - right. apply elem_of_cons. auto.
Qed.

Lemma elem_of_fromkeys x l : x ∈ fromkeys l -> x ∈ l.
Proof.
  intros H. apply elem_of_append_unseen in H as [H | H]; [ | done ].
  by apply not_elem_of_nil in H.
Qed.

(** *** Documents reached from another repository *)

Section external_documents.

Variable sys : filesystem.
Variable repos : gmap string string.

Lemma loop_outcome_external recurse current repo_path self includes cfgs reps self' :
  (forall self file repo_path il c m s,
      recurse self file repo_path il true = Ok (c, m, s) ->
      Forall (fun d => is_external d = true) c) ->
  loop_outcome sys repos recurse current repo_path true self includes cfgs reps self' ->
  Forall (fun d => is_external d = true) cfgs.
Proof.
  intros Hrec Hloop. induction Hloop as [ | ? ? ? ? ? ? ? ? ? Hone _ IH ]; [ constructor | ].
  apply Forall_app. split; [ | exact IH ].
  destruct Hone; eauto.
Qed.

(** X4: every document a visit returns is marked external when the visit
    itself was started for an external file: the mark is handed on to
    lock siblings and to local includes, and set for includes from other
    repositories. *)
Theorem X4_external_visit_marks_every_document
        fuel self file repo_path il configs missing self' :
  _internal_include_handler sys repos fuel self file repo_path il true
    = Ok (configs, missing, self') ->
  Forall (fun d => is_external d = true) configs.
Proof.
  intros Hvisit.
  refine (visit_ind sys repos
            (fun _ _ _ _ ie c _ _ => ie = true -> Forall (fun d => is_external d = true) c)
            _ fuel _ _ _ _ _ _ _ _ Hvisit eq_refl).
  clear. intros recurse Hrec self file repo_path il ie c m s Hbody ->.
  apply handler_body_outcome in Hbody
    as (current & lock_cfgs & lock_reps & self1 & includes & cfgs & reps
        & Hinit & Hlock & _ & Hloop & -> & _).
  rewrite !Forall_app. split; [ | split ].
  - destruct (use_lock self && path_exists sys (lock_sibling file)).
    + by eapply Hrec.
    + injection Hlock as <- _ _. constructor.
  - eapply loop_outcome_external; [ | exact Hloop ].
    intros. by eapply Hrec.
  - apply ConfigFile_init_Ok in Hinit as (_ & _ & Hie & _). by repeat constructor.
Qed.

End external_documents.

(** *** The handler object *)

Lemma handler_moved_refl self docs : handler_moved self docs self.
Proof. unfold handler_moved. auto. Qed.

Lemma handler_moved_trans a b c docs1 docs2 docs :
  handler_moved a docs1 b -> handler_moved b docs2 c ->
  (forall d, d ∈ docs1 -> d ∈ docs) -> (forall d, d ∈ docs2 -> d ∈ docs) ->
  handler_moved a docs c.
Proof.
  intros (Hf1 & Hl1 & H1) (Hf2 & Hl2 & H2) Hsub1 Hsub2.
  split; [ congruence | ]. split; [ congruence | ].
  destruct H2 as [H2 | (d & Hd & Ht & H2)].
  - destruct H1 as [H1 | (d & Hd & Ht & H1)]; [ left; congruence | ].
    right. exists d. rewrite H2. auto.
  - right. exists d. auto.
Qed.

Section handler_state.

Variable sys : filesystem.
Variable repos : gmap string string.

Lemma loop_outcome_moved recurse current repo_path ie self includes cfgs reps self' :
  (forall self file repo_path il ie c m s,
      recurse self file repo_path il ie = Ok (c, m, s) -> handler_moved self c s) ->
  loop_outcome sys repos recurse current repo_path ie self includes cfgs reps self' ->
  handler_moved self cfgs self'.
Proof.
  intros Hrec Hloop.
  induction Hloop as [ self | self include rest cfg rep self1 cfgs reps self' Hone _ IH ].
  - apply handler_moved_refl.
  - assert (H1 : handler_moved self cfg self1)
      by (destruct Hone; eauto using handler_moved_refl).
    eapply handler_moved_trans; [ exact H1 | exact IH | | ];
      intros d Hd; apply elem_of_app; auto.
Qed.

Lemma visit_moved fuel self file repo_path il ie configs missing self' :
  _internal_include_handler sys repos fuel self file repo_path il ie
    = Ok (configs, missing, self') ->
  handler_moved self configs self'.
Proof.
  apply (visit_ind sys repos (fun self _ _ _ _ c _ s => handler_moved self c s)).
  clear. intros recurse Hrec self file repo_path il ie c m s Hbody.
  apply handler_body_outcome in Hbody
    as (current & lock_cfgs & lock_reps & self1 & includes & cfgs & reps
        & Hinit & Hlock & _ & Hloop & -> & _).
  assert (H1 : handler_moved self lock_cfgs self1).
  { destruct (use_lock self && path_exists sys (lock_sibling file)).
    - by eapply Hrec.
    - injection Hlock as <- _ <-. apply handler_moved_refl. }
  apply loop_outcome_moved in Hloop; [ | done ].
  assert (H2 : handler_moved self1 [current]
                 (if truthy (src_dir current)
                  then set_top_repo_path self1 (src_dir current) else self1)).
  { destruct (truthy (src_dir current)) eqn:Htruthy; [ | apply handler_moved_refl ].
    split; [ done | ]. split; [ done | ]. right. exists current.
    split; [ by apply list_elem_of_singleton | done ]. }
  assert (H3 : handler_moved self1 (cfgs ++ [current]) s).
  { eapply handler_moved_trans; [ exact H2 | exact Hloop | | ];
      intros d Hd; apply elem_of_app; auto. }
  eapply handler_moved_trans; [ exact H1 | exact H3 | | ];
    intros d Hd; apply elem_of_app; auto.
Qed.

Lemma top_files_loop_moved fuel files : forall self configs missing c m s,
  top_files_loop sys repos fuel files self configs missing = Ok (c, m, s) ->
  exists cfgs, c = configs ++ cfgs /\ handler_moved self cfgs s.
Proof.
  induction files as [ | file rest IH ]; intros self configs missing c m s;
    cbn [top_files_loop].
  - intros [= <- _ <-]. exists []. rewrite app_nil_r.
    split; [ done | apply handler_moved_refl ].
  - intros H. apply bind_Ok_inv in H as ([[cfgs reps] self1] & Hvisit & H).
    apply visit_moved in Hvisit. apply IH in H as (cfgs' & -> & Hmoved).
    exists (cfgs ++ cfgs'). split; [ by rewrite app_assoc | ].
    eapply handler_moved_trans; [ exact Hvisit | exact Hmoved | | ];
      intros d Hd; apply elem_of_app; auto.
Qed.

(** X5: resolving leaves [top_files] and [use_lock] of the handler alone,
    and [get_top_repo_path] afterwards gives the path the handler was
    built with or the [_source_dir] of one of the resolved documents; it
    is the handler as it was when no document carries a [_source_dir]. *)
Theorem X5_top_repo_path_moves_only_to_a_source_dir
        fuel self configs missing self' :
  resolve sys repos fuel self = Ok (configs, missing, self') ->
  handler_moved self configs self'
  /\ ((forall d, d ∈ configs -> truthy (src_dir d) = false) -> self' = self).
Proof.
  unfold resolve. intros H.
  apply top_files_loop_moved in H as (cfgs & -> & Hmoved). simpl.
  split; [ exact Hmoved | ]. intros Hnone.
  destruct Hmoved as (Hfiles & Hlock & [Hpath | (d & Hd & Htruthy & _)]).
  - destruct self, self'. simpl in Hfiles, Hlock, Hpath. congruence.
  - rewrite (Hnone d Hd) in Htruthy. discriminate.
Qed.

End handler_state.

(** *** The missing repositories *)

Section missing_repositories.

Variable sys : filesystem.
Variable repos : gmap string string.

Lemma loop_outcome_unknown recurse current repo_path ie self includes cfgs reps self' :
  (forall self file repo_path il ie c m s,
      recurse self file repo_path il ie = Ok (c, m, s) ->
      Forall (fun k => repos_get repos k = Ok None) m) ->
  loop_outcome sys repos recurse current repo_path ie self includes cfgs reps self' ->
  Forall (fun k => repos_get repos k = Ok None) reps.
Proof.
  intros Hrec Hloop. induction Hloop as [ | ? ? ? ? ? ? ? ? ? Hone _ IH ]; [ constructor | ].
  apply Forall_app. split; [ | exact IH ].
  destruct Hone; eauto.
Qed.

Lemma visit_unknown fuel self file repo_path il ie configs missing self' :
  _internal_include_handler sys repos fuel self file repo_path il ie
    = Ok (configs, missing, self') ->
  Forall (fun k => repos_get repos k = Ok None) missing.
Proof.
  apply (visit_ind sys repos
           (fun _ _ _ _ _ _ m _ => Forall (fun k => repos_get repos k = Ok None) m)).
  clear. intros recurse Hrec self file repo_path il ie c m s Hbody.
  apply handler_body_outcome in Hbody
    as (current & lock_cfgs & lock_reps & self1 & includes & cfgs & reps
        & _ & Hlock & _ & Hloop & _ & ->).
  assert (Hall : Forall (fun k => repos_get repos k = Ok None) (lock_reps ++ reps)).
  { apply Forall_app. split.
    - destruct (use_lock self && path_exists sys (lock_sibling file)).
      + by eapply Hrec.
      + injection Hlock as _ <- _. constructor.
    - by eapply loop_outcome_unknown. }
  rewrite Forall_forall in Hall. apply Forall_forall.
  intros k Hk. by apply Hall, elem_of_fromkeys.
Qed.

Lemma top_files_loop_unknown fuel files : forall self configs missing c m s,
  Forall (fun k => repos_get repos k = Ok None) missing ->
  top_files_loop sys repos fuel files self configs missing = Ok (c, m, s) ->
  Forall (fun k => repos_get repos k = Ok None) m.
Proof.
  induction files as [ | file rest IH ]; intros self configs missing c m s Hacc;
    cbn [top_files_loop].
  - by intros [= _ <- _].
  - intros H. apply bind_Ok_inv in H as ([[cfgs reps] self1] & Hvisit & H).
    apply visit_unknown in Hvisit. eapply IH; [ | exact H ].
    rewrite Forall_forall in Hacc, Hvisit. apply Forall_forall. intros k Hk.
    apply elem_of_append_unseen in Hk as [Hk | Hk]; auto.
Qed.

(** X6: a repository key that [get_config] returns as missing is not
    among the known [repos]: looking it up there gives nothing. *)
Theorem X6_missing_repos_are_unknown fuel self config missing self' :
  get_config sys repos fuel self = Ok (config, missing, self') ->
  Forall (fun k => repos_get repos k = Ok None) missing.
Proof.
  unfold get_config, resolve. intros H.
  apply bind_Ok_inv in H as ([[configs missing0] self0] & Hloop & H).
  apply bind_Ok_inv in H as (merged & _ & [= _ <- _]).
  eapply top_files_loop_unknown; [ | exact Hloop ]. constructor.
Qed.

End missing_repositories.

(** *** More known repositories *)

Lemma py_eqb_str k y : py_eqb (VStr k) y = true -> y = VStr k.
Proof.
  intros H. apply py_eqb_true in H. destruct y as [ | [] | | | | ]; simpl in H; congruence.
Qed.

Lemma py_in_str k l : py_in (VStr k) l = true <-> VStr k ∈ l.
Proof.
  split; [ | apply py_in_elem ].
  unfold py_in. rewrite existsb_exists. intros (y & Hy & Heq).
  apply py_eqb_str in Heq as ->. by apply list_elem_of_In.
Qed.

Lemma str_in_append_unseen k acc l :
  VStr k ∈ append_unseen acc l <-> VStr k ∈ acc \/ VStr k ∈ l.
Proof. by rewrite <- !py_in_str, py_in_append_unseen, orb_true_iff. Qed.

Lemma str_in_fromkeys k l : VStr k ∈ fromkeys l <-> VStr k ∈ l.
Proof.
  unfold fromkeys. rewrite str_in_append_unseen. split; [ | auto ].
  intros [H | H]; [ by apply not_elem_of_nil in H | done ].
Qed.

Section more_repositories.

Variable sys : filesystem.
Variables repos repos' : gmap string string.

Hypothesis Hgrow : forall k dir, repos !! k = Some dir -> repos' !! k = Some dir.

Lemma repos_get_known includerepo dir :
  repos_get repos includerepo = Ok (Some dir) ->
  repos_get repos' includerepo = Ok (Some dir).
Proof using Hgrow.
  destruct includerepo; try discriminate. simpl. intros [= H]. by rewrite (Hgrow _ _ H).
Qed.

Lemma repos_get_unknown includerepo :
  repos_get repos includerepo = Ok None ->
  (forall k, includerepo = VStr k -> repos' !! k = None) ->
  repos_get repos' includerepo = Ok None.
Proof.
  destruct includerepo; try done. simpl. intros _ H. by rewrite (H _ eq_refl).
Qed.

Lemma loop_outcome_grow recurse recurse' current repo_path ie self includes cfgs reps self' :
  (forall self file repo_path il ie c m s,
      recurse self file repo_path il ie = Ok (c, m, s) ->
      (forall k, VStr k ∈ m -> repos' !! k = None) ->
      recurse' self file repo_path il ie = Ok (c, m, s)) ->
  loop_outcome sys repos recurse current repo_path ie self includes cfgs reps self' ->
  (forall k, VStr k ∈ reps -> repos' !! k = None) ->
  loop_outcome sys repos' recurse' current repo_path ie self includes cfgs reps self'.
Proof using Hgrow.
  intros Hrec Hloop.
  induction Hloop as [ | self include rest cfg rep self1 cfgs reps self' Hone _ IH ];
    intros Hnone; [ constructor | ].
  assert (Hrep : forall k, VStr k ∈ rep -> repos' !! k = None)
    by (intros k Hk; apply Hnone, elem_of_app; auto).
  econstructor; [ | apply IH; intros k Hk; apply Hnone, elem_of_app; auto ].
  destruct Hone as [ inc includefile cfg rep self2 Hfile Hcall
                   | inc includedir includefile cfg rep self2 Hdir Hf Hcall
                   | inc Hdir | include Hother ].
  - eapply local_include; eauto.
  - eapply cross_include; eauto using repos_get_known.
  - apply missing_repo. apply repos_get_unknown; [ done | ].
    intros k Hk. apply Hrep. rewrite Hk. by apply list_elem_of_singleton.
  - by apply other_include.
Qed.

Lemma visit_grow fuel : forall self file repo_path il ie c m s,
  _internal_include_handler sys repos fuel self file repo_path il ie = Ok (c, m, s) ->
  (forall k, VStr k ∈ m -> repos' !! k = None) ->
  _internal_include_handler sys repos' fuel self file repo_path il ie = Ok (c, m, s).
Proof using Hgrow.
  induction fuel as [ | fuel IH ]; [ discriminate | ].
  intros self file repo_path il ie c m s. cbn [_internal_include_handler].
  intros Hbody Hnone.
  apply handler_body_outcome in Hbody
    as (current & lock_cfgs & lock_reps & self1 & includes & cfgs & reps
        & Hinit & Hlock & Hincludes & Hloop & -> & ->).
  assert (Hboth : forall k, VStr k ∈ lock_reps ++ reps -> repos' !! k = None)
    by (intros k Hk; by apply Hnone, str_in_fromkeys).
  apply handler_body_outcome.
  exists current, lock_cfgs, lock_reps, self1, includes, cfgs, reps.
  split; [ done | ]. split; [ | split; [ done | split; [ | done ] ] ].
  - destruct (use_lock self && path_exists sys (lock_sibling file)); [ | done ].
    apply IH; [ done | ]. intros k Hk. apply Hboth, elem_of_app. auto.
  - eapply loop_outcome_grow; [ exact IH | exact Hloop | ].
    intros k Hk. apply Hboth, elem_of_app. auto.
Qed.

Lemma top_files_loop_keeps fuel r files : forall self configs missing c m s,
  top_files_loop sys r fuel files self configs missing = Ok (c, m, s) ->
  forall k, VStr k ∈ missing -> VStr k ∈ m.
Proof.
  induction files as [ | file rest IH ]; intros self configs missing c m s;
    cbn [top_files_loop].
  - by intros [= _ <- _].
  - intros H k Hk. apply bind_Ok_inv in H as ([[cfgs reps] self1] & _ & H).
    eapply IH; [ exact H | ]. apply str_in_append_unseen. auto.
Qed.

Lemma top_files_loop_grow fuel files : forall self configs missing c m s,
  top_files_loop sys repos fuel files self configs missing = Ok (c, m, s) ->
  (forall k, VStr k ∈ m -> repos' !! k = None) ->
  top_files_loop sys repos' fuel files self configs missing = Ok (c, m, s).
Proof using Hgrow.
  induction files as [ | file rest IH ]; intros self configs missing c m s;
    cbn [top_files_loop]; [ done | ].
  intros H Hnone. apply bind_Ok_inv in H as ([[cfgs reps] self1] & Hvisit & H).
  rewrite (visit_grow _ _ _ _ _ _ _ _ _ Hvisit), bind_Ok; [ by apply IH | ].
  intros k Hk. apply Hnone. eapply top_files_loop_keeps; [ exact H | ].
  apply str_in_append_unseen. auto.
Qed.

(** X7: [get_config] depends on [repos] only through the lookups it
    makes: when more repositories become known, but none of those it
    returned as missing, it returns the same configuration, the same
    missing repositories and the same handler. *)
Theorem X7_result_stable_when_repos_grow fuel self config missing self' :
  get_config sys repos fuel self = Ok (config, missing, self') ->
  (forall k, VStr k ∈ missing -> repos' !! k = None) ->
  get_config sys repos' fuel self = Ok (config, missing, self').
Proof using Hgrow.
  unfold get_config, resolve. intros H Hnone.
  apply bind_Ok_inv in H as ([[configs missing0] self0] & Hloop & H).
  apply bind_Ok_inv in H as (merged & Hmerge & [= <- <- <-]).
  rewrite (top_files_loop_grow _ _ _ _ _ _ _ _ Hloop Hnone), bind_Ok, Hmerge. done.
Qed.

End more_repositories.

(** *** The errors of a visit *)

Lemma only_bind {A B} M (r : result A) (k : A -> result B) :
  only_IncludeException M r -> (forall a, only_IncludeException M (k a)) ->
  only_IncludeException M (x ← r; k x).
Proof.
  intros Hr Hk msg H. apply bind_Raise_inv in H as [H | (a & _ & H)].
  - by apply Hr.
  - by apply (Hk a).
Qed.

Ltac only_by_cases :=
  let msg := fresh "msg" in
  intros msg; repeat case_match; discriminate.

Lemma only_subscript M v key : only_IncludeException M (subscript v key).
Proof. unfold subscript. only_by_cases. Qed.

Lemma only_method_get M v key default : only_IncludeException M (method_get v key default).
Proof. unfold method_get. only_by_cases. Qed.

Lemma only_py_int M v : only_IncludeException M (py_int v).
Proof. unfold py_int. only_by_cases. Qed.

Lemma only_fspath M v : only_IncludeException M (fspath v).
Proof. unfold fspath. only_by_cases. Qed.

Lemma only_iter_value M v : only_IncludeException M (iter_value v).
Proof. unfold iter_value. only_by_cases. Qed.

Lemma only_header_includes M body : only_IncludeException M (header_includes body).
Proof.
  unfold header_includes.
  apply only_bind; [ apply only_method_get | intros header ].
  apply only_bind; [ apply only_method_get | intros includes ].
  apply only_iter_value.
Qed.

Lemma only_version_value M body : only_IncludeException M (version_value body).
Proof.
  unfold version_value.
  apply only_bind; [ apply only_subscript | intros header ].
  apply only_bind; [ apply only_subscript | intros version ].
  pose proof (only_py_int M version) as Hint. intros msg H. apply (Hint msg).
  by destruct (py_int version) as [ n | [] | ].
Qed.

Lemma only_ConfigFile_init M sys file il ie :
  only_IncludeException M (ConfigFile_init sys file il ie).
Proof.
  unfold ConfigFile_init. apply only_bind; [ | by intros [body sd] msg ].
  unfold _load_config.
  destruct (_ || _); [ | by intros msg ].
  destruct (stat sys file) as [ | | [ | [ | body ] ] ]; try by intros msg.
  destruct (negb (schema_valid body)); [ by intros msg | ].
  apply only_bind; [ apply only_version_value | intros n ].
  destruct (_ || _); [ by intros msg | ].
  apply only_bind; [ apply only_method_get | intros proxy ].
  apply only_bind; [ apply only_method_get | by intros src msg ].
Qed.

Section visit_errors.

Variable sys : filesystem.
Variable repos : gmap string string.

Abbreviation file_is_not_specified := "file is not specified".

Lemma only_include_loop recurse current repo_path ie includes :
  (forall self file repo_path il ie,
      only_IncludeException file_is_not_specified (recurse self file repo_path il ie)) ->
  forall self configs missing,
    only_IncludeException file_is_not_specified
      (include_loop sys repos recurse current repo_path ie includes self configs missing).
Proof.
  intros Hrec. induction includes as [ | include rest IH ]; intros self configs missing;
    cbn [include_loop]; [ by intros msg | ].
  apply only_bind; [ | by intros [[c m] s] ].
  unfold include_step. destruct include as [ | | | inc | | inc ]; try by intros msg.
  - apply only_bind; [ | intros includefile ].
    + unfold local_includefile. destruct (startswith _ _); [ by intros msg | ].
      apply only_bind; [ apply only_fspath | intros root ].
      intros msg. repeat case_match; discriminate.
    + apply only_bind; [ apply Hrec | by intros [[c m] s] msg ].
  - apply only_bind; [ | intros includedir ].
    + unfold repos_get. only_by_cases.
    + destruct includedir as [ includedir | ]; [ | by intros msg ].
      destruct (dict_get "file" inc) as [ includefile | ]; [ | by intros msg [= <-] ].
      apply only_bind; [ apply only_fspath | intros f ].
      apply only_bind; [ apply Hrec | by intros [[c m] s] msg ].
Qed.

Lemma only_visit fuel : forall self file repo_path il ie,
  only_IncludeException file_is_not_specified
    (_internal_include_handler sys repos fuel self file repo_path il ie).
Proof.
  induction fuel as [ | fuel IH ]; [ by intros ? ? ? ? ? msg | ].
  intros self file repo_path il ie. cbn [_internal_include_handler].
  unfold handler_body.
  pose proof (only_ConfigFile_init file_is_not_specified sys file il ie) as Hinit.
  destruct (ConfigFile_init sys file il ie) as [ current | e | ] eqn:Hcurrent;
    [ | intros msg H; apply (Hinit msg); destruct e; simpl in H; congruence
      | by intros msg ].
  assert (Htry : only_IncludeException file_is_not_specified
                   (try_block sys (_internal_include_handler sys repos fuel)
                              self current file repo_path ie)).
  { unfold try_block. apply only_bind.
    - unfold get_lockfile. apply only_bind; [ only_by_cases | by intros f msg ].
    - intros lockfile. apply only_bind.
      + destruct (_ && _); [ apply IH | by intros msg ].
      + intros [[c m] s] msg. by destruct (truthy _). }
  destruct (try_block _ _ _ _ _ _ _) as [ [[[c0 m0] s0] rp0] | e | ];
    [ | intros msg H; apply (Htry msg); destruct e; simpl in H; congruence
      | by intros msg ].
  unfold after_try. rewrite (ConfigFile_init_mapping _ _ _ _ _ Hcurrent). cbn [negb].
  apply only_bind; [ apply only_header_includes | intros includes ].
  apply only_bind; [ by apply only_include_loop | by intros [[c m] s] msg ].
Qed.

(** X8: the only [IncludeException] a visit can end in is the one for a
    cross-repository include without a [file]; the test for a body that
    is not a dictionary never fires, since [ConfigFile] has subscripted
    the body with ['header'] before. *)
Theorem X8_visit_raises_no_other_IncludeException
        fuel self file repo_path il ie message :
  _internal_include_handler sys repos fuel self file repo_path il ie
    = Raise (IncludeException message) ->
  message = "file is not specified".
Proof.
  intros Hraise.
  exact (only_visit fuel self file repo_path il ie message Hraise).
Qed.

End visit_errors.

(** *** From the resolved documents to the configuration *)

Section merge_phase.

Variable sys : filesystem.
Variable repos : gmap string string.

Lemma loop_outcome_mappings recurse current repo_path ie self includes cfgs reps self' :
  (forall self file repo_path il ie c m s,
      recurse self file repo_path il ie = Ok (c, m, s) ->
      Forall (fun d => is_mapping (config d) = true) c) ->
  loop_outcome sys repos recurse current repo_path ie self includes cfgs reps self' ->
  Forall (fun d => is_mapping (config d) = true) cfgs.
Proof.
  intros Hrec Hloop. induction Hloop as [ | ? ? ? ? ? ? ? ? ? Hone _ IH ]; [ constructor | ].
  apply Forall_app. split; [ | exact IH ].
  destruct Hone; eauto.
Qed.

Lemma visit_mappings fuel self file repo_path il ie configs missing self' :
  _internal_include_handler sys repos fuel self file repo_path il ie
    = Ok (configs, missing, self') ->
  Forall (fun d => is_mapping (config d) = true) configs.
Proof.
  apply (visit_ind sys repos
           (fun _ _ _ _ _ c _ _ => Forall (fun d => is_mapping (config d) = true) c)).
  clear. intros recurse Hrec self file repo_path il ie c m s Hbody.
  apply handler_body_outcome in Hbody
    as (current & lock_cfgs & lock_reps & self1 & includes & cfgs & reps
        & Hinit & Hlock & _ & Hloop & -> & _).
  rewrite !Forall_app. split; [ | split ].
  - destruct (use_lock self && path_exists sys (lock_sibling file)).
    + by eapply Hrec.
    + injection Hlock as <- _ _. constructor.
  - by eapply loop_outcome_mappings.
  - apply ConfigFile_init_mapping in Hinit. by repeat constructor.
Qed.

Lemma top_files_loop_mappings fuel files : forall self configs missing c m s,
  top_files_loop sys repos fuel files self configs missing = Ok (c, m, s) ->
  exists cfgs, c = configs ++ cfgs
               /\ Forall (fun d => is_mapping (config d) = true) cfgs
               /\ (files <> [] -> cfgs <> []).
Proof.
  induction files as [ | file rest IH ]; intros self configs missing c m s;
    cbn [top_files_loop].
  - intros [= <- _ _]. exists []. rewrite app_nil_r.
    split; [ done | ]. split; [ constructor | done ].
  - intros H. apply bind_Ok_inv in H as ([[cfgs reps] self1] & Hvisit & H).
    apply visit_mappings in Hvisit as Hcfgs.
    apply visit_last in Hvisit as (before & current & -> & _).
    apply IH in H as (more & -> & Hmore & _).
    exists ((before ++ [current]) ++ more). split; [ by rewrite <- !app_assoc | ].
    split; [ apply Forall_app; auto | ]. intros _ Heq.
    apply app_eq_nil in Heq as [Heq _]. apply app_eq_nil in Heq as [_ Heq]. discriminate.
Qed.

Lemma mappings_bodies (docs : list ConfigFile) :
  Forall (fun d => is_mapping (config d) = true) docs ->
  exists bodies : list dict, map config docs = map VDict bodies.
Proof.
  induction 1 as [ | d docs Hd _ (bodies & IH) ]; [ by exists [] | ].
  destruct (config d) as [ | | | | | body ] eqn:Hbody; try discriminate.
  exists (body :: bodies). simpl. by rewrite Hbody, IH.
Qed.

(** X9: [get_config] cannot fail in its merge phase once at least one
    top file has been resolved: every resolved document holds a mapping,
    so the reduction returns a mapping.  Without top files the reduction
    has nothing to start from and [get_config] ends in [TypeError]. *)
Theorem X9_get_config_returns_once_resolved fuel self :
  (top_files self = [] -> get_config sys repos fuel self = Raise TypeError)
  /\ (forall configs missing self',
        top_files self <> [] ->
        resolve sys repos fuel self = Ok (configs, missing, self') ->
        exists config,
          get_config sys repos fuel self = Ok (VDict config, missing, self')).
Proof.
  unfold get_config, resolve. split.
  - intros ->. reflexivity.
  - intros configs missing self' Hfiles Hloop. rewrite Hloop, bind_Ok.
    apply top_files_loop_mappings in Hloop as (cfgs & -> & Hall & Hne). simpl.
    destruct (mappings_bodies cfgs Hall) as (bodies & Hbodies).
    unfold merge_configs. rewrite Hbodies.
    destruct bodies as [ | first others ].
    { destruct cfgs; [ by destruct Hne | discriminate ]. }
    cbn [map reduce_merge].
    destruct (reduce_merge_keys others first) as (merged & -> & _).
    rewrite bind_Ok. by exists merged.
Qed.

End merge_phase.

(** *** Include cycles *)

(** X10: nothing stops a document from including itself: when the first
    include of a document names the document's own file, the visit calls
    itself with the same arguments for ever, so no amount of fuel lets it
    come to an end. *)
Theorem X10_self_include_never_returns
        sys repos self file repo_path ie current inc others :
  ConfigFile_init sys file false ie = Ok current ->
  truthy (src_dir current) = false ->
  use_lock self && path_exists sys (lock_sibling file) = false ->
  header_includes (config current) = Ok (VStr inc :: others) ->
  local_includefile sys current repo_path inc = Ok file ->
  forall fuel,
    _internal_include_handler sys repos fuel self file repo_path false ie = OutOfFuel.
Proof.
  intros Hinit Hsrc Hlock Hincludes Hfile fuel.
  induction fuel as [ | fuel IH ]; [ reflexivity | ].
  cbn [_internal_include_handler]. unfold handler_body. rewrite Hinit.
  apply ConfigFile_init_Ok in Hinit as Hfacts. destruct Hfacts as (_ & _ & _ & Hext).
  unfold try_block, get_lockfile.
  rewrite (recognized_extension_nonempty _ Hext). cbn [negb]. rewrite !bind_Ok.
  rewrite Hlock, bind_Ok, Hsrc.
  unfold after_try. rewrite (ConfigFile_init_mapping _ _ _ _ _ Hinit). cbn [negb].
  rewrite Hincludes, bind_Ok. cbn [include_loop include_step].
  by rewrite Hfile, bind_Ok, IH.
Qed.

(** ** The reduction over the documents *)

Lemma merge_step_get (acc incoming : dict) :
  NoDup (dict_keys incoming) ->
  exists merged,
    _internal_dict_merge (VDict acc) (VDict incoming) = Ok (VDict merged)
    /\ (forall key val, dict_get key incoming = Some val ->
          exists v', dict_get key merged = Some v'
                     /\ merge_rule (dict_get key acc) val v')
    /\ (forall key, key ∉ dict_keys incoming ->
          dict_get key merged = dict_get key acc).
Proof.
  intros Hnd. destruct (_internal_dict_merge_total incoming acc) as [merged Hm].
  exists merged. split; [ done | ].
  rewrite _internal_dict_merge_unfold in Hm.
  destruct (keys_intersect acc incoming) eqn:Hint.
  - destruct (merge_loop_get _ Hnd _ _ Hm) as [Ha Hb]. split; [ | done ].
    intros key val Hget. apply Ha. by apply dict_get_In.
  - injection Hm as <-. destruct (dict_update_get acc incoming Hnd) as [Ha Hb].
    split; [ | done ].
    intros key val Hget. exists val. split; [ by apply Ha, dict_get_In | ].
    assert (dict_get key acc = None) as ->; [ | done ].
    apply dict_get_None. intros Hk.
    by apply (keys_intersect_false _ _ Hint key Hk), (dict_get_Some_key _ val).
Qed.

Lemma fold_merge_frame key (bodies : list dict) : forall acc : dict,
  Forall (fun body => NoDup (dict_keys body)) bodies ->
  Forall (fun body => key ∉ dict_keys body) bodies ->
  exists merged,
    fold_left (fun acc body => a ← acc; _internal_dict_merge a body)
              (map VDict bodies) (Ok (VDict acc)) = Ok (VDict merged)
    /\ dict_get key merged = dict_get key acc.
Proof.
  induction bodies as [ | body rest IH ]; intros acc Hnd Hfree; [ by exists acc | ].
  apply Forall_cons in Hnd as [Hnd Hnds]. apply Forall_cons in Hfree as [Hfree Hfrees].
  destruct (merge_step_get acc body Hnd) as (step & Hstep & _ & Hframe).
  destruct (IH step Hnds Hfrees) as (merged & Hfold & Hget).
  exists merged. cbn [map fold_left]. rewrite bind_Ok, Hstep.
  split; [ exact Hfold | ]. rewrite Hget. by apply Hframe.
Qed.

(** X11: in the reduction over the documents, a key has the value of the
    last document that sets it, provided that value is not a mapping or
    no earlier document sets the key. *)
Theorem X11_last_setting_wins (before after : list dict) (body : dict) key val :
  Forall (fun b => NoDup (dict_keys b)) (before ++ body :: after) ->
  dict_get key body = Some val ->
  Forall (fun b => key ∉ dict_keys b) after ->
  is_mapping val = false \/ Forall (fun b => key ∉ dict_keys b) before ->
  exists merged,
    reduce_merge (map VDict (before ++ body :: after)) = Ok (VDict merged)
    /\ dict_get key merged = Some val.
Proof.
  intros Hnd Hval Hafter Hwins.
  apply Forall_app in Hnd as [Hbefore Hnd]. apply Forall_cons in Hnd as [Hbody Hnd].
  destruct before as [ | first others ].
  - cbn [app map reduce_merge].
    destruct (fold_merge_frame key after body Hnd Hafter) as (merged & -> & Hget).
    exists merged. split; [ done | congruence ].
  - apply Forall_cons in Hbefore as [_ Hothers].
    cbn [app map reduce_merge]. rewrite map_app, fold_left_app.
    assert (Hacc : exists acc,
               fold_left (fun acc body => a ← acc; _internal_dict_merge a body)
                         (map VDict others) (Ok (VDict first)) = Ok (VDict acc)
               /\ (Forall (fun b => key ∉ dict_keys b) (first :: others) ->
                   dict_get key acc = None)).
    { destruct (reduce_merge_keys others first) as (acc & Hfold & Hkeys).
      exists acc. split; [ done | ]. intros Hnone. apply dict_get_None.
      rewrite Hkeys. rewrite Forall_forall in Hnone.
      intros [Hk | (b & Hb & Hk)].
      - apply (Hnone first); [ apply elem_of_cons; auto | done ].
      - apply (Hnone b); [ apply elem_of_cons; auto | done ]. }
    destruct Hacc as (acc & -> & Hnone). cbn [map fold_left]. rewrite bind_Ok.
    destruct (merge_step_get acc body Hbody) as (step & -> & Hrule & _).
    destruct (fold_merge_frame key after step Hnd Hafter) as (merged & -> & Hget).
    exists merged. split; [ done | ]. rewrite Hget.
    destruct (Hrule key val Hval) as (v' & -> & Hv'). f_equal.
    unfold merge_rule in Hv'. destruct Hwins as [Hscalar | Hfirst].
    + destruct (dict_get key acc) as [ [ | | | | | ? ] | ]; try done.
      by destruct val.
    + by rewrite (Hnone Hfirst) in Hv'.
Qed.

(** ** The lock pass *)

Lemma dict_set_set {A} key (v w : A) d :
  dict_set key v (dict_set key w d) = dict_set key v d.
Proof.
  induction d as [ | [k x] rest IH ]; simpl.
  - by rewrite String.eqb_refl.
  - destruct (String.eqb k key) eqn:E; simpl; rewrite E; [ done | by rewrite IH ].
Qed.

Lemma list_remove_subset x (l : list (string * Lock.Repo)) e :
  e ∈ Lock.list_remove x l -> e ∈ l.
Proof.
  induction l as [ | y rest IH ]; simpl; [ done | ].
  destruct (decide (y = x)); intros H; apply elem_of_cons; [ auto | ].
  apply elem_of_cons in H as [H | H]; auto.
Qed.

Lemma list_remove_filter (R : list (string * Lock.Repo)) k r :
  NoDup (dict_keys R) -> dict_get k R = Some r ->
  Lock.list_remove (k, r) R = List.filter (fun e => negb (String.eqb k e.1)) R.
Proof.
  induction R as [ | [k1 r1] rest IH ]; [ done | ].
  cbn [dict_keys map fst]. intros Hnd Hget. apply NoDup_cons in Hnd as [Hfresh Hnd].
  cbn [Lock.list_remove List.filter fst]. simpl in Hget.
  destruct (String.eqb_spec k1 k) as [-> | Hne].
  - injection Hget as ->. rewrite decide_True by done. rewrite String.eqb_refl. cbn [negb].
    symmetry. apply forallb_filter_id. apply forallb_forall. intros [k2 r2] Hin.
    apply list_elem_of_In in Hin. simpl. apply negb_true_iff, String.eqb_neq.
    intros ->. apply Hfresh. apply list_elem_of_fmap. by exists (k2, r2).
  - rewrite decide_False by congruence.
    destruct (String.eqb_spec k k1) as [ | _ ]; [ congruence | ]. cbn [negb].
    by rewrite IH.
Qed.

Lemma filter_key_absent (R : list (string * Lock.Repo)) k :
  k ∉ dict_keys R -> List.filter (fun e => negb (String.eqb k e.1)) R = R.
Proof.
  intros Hk. apply forallb_filter_id. apply forallb_forall. intros [k2 r2] Hin.
  apply list_elem_of_In in Hin. simpl. apply negb_true_iff, String.eqb_neq.
  intros ->. apply Hk. apply list_elem_of_fmap. by exists (k2, r2).
Qed.

Lemma filter_filter {A} (f g : A -> bool) l :
  List.filter f (List.filter g l) = List.filter (fun x => g x && f x) l.
Proof.
  induction l as [ | x rest IH ]; [ done | ]. simpl.
  destruct (g x); simpl; [ destruct (f x) | ]; by rewrite IH.
Qed.

Section lock_pass_facts.

Variable self : Lock.Lock.
Variable lockfile : ConfigFile.

(** The two ways the body of [if k == rk:] can leave the table. *)
Lemma on_match_table k rk r st st' :
  Lock.on_match self lockfile k rk r st = Ok st' ->
  Lock.repos_to_lock st' = Lock.list_remove (rk, r) (Lock.repos_to_lock st)
  /\ (exists record, Lock.log st' = Lock.log st ++ [record]
                     /\ (record = Lock.InfoUpToDate (Lock.name r) (Lock.revision r)
                         \/ ((exists old, record = Lock.InfoUpdating (Lock.name r) old
                                                                     (Lock.revision r))
                             /\ Lock._is_external_lockfile self lockfile = false)
                         \/ (record = Lock.WarningRemoteLockfile (Lock.name r)
                                                                 (filename lockfile)
                             /\ Lock._is_external_lockfile self lockfile = true)))
  /\ ((Lock.table st' = Lock.table st /\ Lock.changed st' = Lock.changed st)
      \/ (Lock._is_external_lockfile self lockfile = false
          /\ Lock.changed st' = true
          /\ exists entries,
               dict_get k (Lock.table st) = Some (VDict entries)
               /\ Lock.table st'
                  = dict_set k (VDict (dict_set "commit" (Lock.revision_value r) entries))
                             (Lock.table st))).
Proof.
  unfold Lock.on_match. intros H. apply bind_Ok_inv in H as (commit & Hc & H).
  destruct (py_eqb commit (Lock.revision_value r)).
  - injection H as <-. simpl. split; [ done | ]. split; [ eauto | auto ].
  - destruct (Lock._is_external_lockfile self lockfile) eqn:Hext; cbn [negb] in H.
    + injection H as <-. simpl. split; [ done | ]. split; [ eauto 6 | auto ].
    + destruct (dict_get k (Lock.table st)) as [ [ | | | | | entries ] | ];
        try discriminate.
      injection H as <-. simpl. split; [ done | ]. split; [ eauto 7 | ].
      right. eauto.
Qed.

(** What holds before the pass and is kept by every turn of
    [if k == rk:] holds when the loops are done. *)
Section invariant.

Variable I : Lock.pass -> Prop.

Hypothesis Hmatch : forall k r st st',
  I st -> (k, r) ∈ Lock.repos_to_lock st ->
  Lock.on_match self lockfile k k r st = Ok st' -> I st'.

Lemma scan_invariant k steps : forall position st st',
  I st -> Lock.scan self lockfile k steps position st = Ok st' -> I st'.
Proof using Hmatch.
  induction steps as [ | steps IH ]; intros position st st' Hst; simpl.
  - by intros [= <-].
  - destruct (Lock.repos_to_lock st !! position) as [ [rk r] | ] eqn:E;
      [ | by intros [= <-] ].
    destruct (String.eqb_spec k rk) as [<- | _]; [ | by apply IH ].
    intros H. apply bind_Ok_inv in H as (st1 & Hone & H).
    eapply IH; [ | exact H ]. eapply Hmatch; [ exact Hst | | exact Hone ].
    by eapply list_elem_of_lookup_2.
Qed.

Lemma each_lock_invariant keys : forall st st',
  I st -> Lock.each_lock self lockfile keys st = Ok st' -> I st'.
Proof using Hmatch.
  induction keys as [ | k rest IH ]; intros st st' Hst; simpl.
  - by intros [= <-].
  - intros H. apply bind_Ok_inv in H as (st1 & Hscan & H).
    eapply IH; [ | exact H ]. by eapply scan_invariant.
Qed.

End invariant.

Lemma _update_lockfile_Ok floating items st :
  Lock.lock_table lockfile = Ok (VDict items) ->
  Lock._update_lockfile self lockfile floating = Ok st ->
  exists st0,
    Lock.each_lock self lockfile (dict_keys items)
      {| Lock.table := items; Lock.repos_to_lock := floating;
         Lock.changed := false; Lock.log := [] |} = Ok st0
    /\ Lock.table st = Lock.table st0
    /\ Lock.returned st = Lock.returned st0
    /\ Lock.changed st = Lock.changed st0
    /\ Lock.log st
       = Lock.log st0
         ++ (if Lock.changed st0
             then [Lock.InfoUpdatingLockfile (filename lockfile);
                   Lock.Dumped (filename lockfile)
                     (Lock.with_table (config lockfile) (Lock.table st0))
                     (if pathlib.suffix (pathlib.of_string (filename lockfile)) =? ".json"
                      then "json" else "yaml")]
             else []).
Proof.
  intros Htable. unfold Lock._update_lockfile. rewrite Htable, bind_Ok.
  intros H. apply bind_Ok_inv in H as (st0 & Heach & H). exists st0.
  split; [ done | ].
  destruct (Lock.changed st0) eqn:Hchanged; cbn [negb] in H; injection H as <-; simpl.
  - by repeat split.
  - rewrite app_nil_r. by repeat split.
Qed.

Lemma each_lock_returned keys : forall st st',
  NoDup (dict_keys (Lock.repos_to_lock st)) ->
  Lock.each_lock self lockfile keys st = Ok st' ->
  Lock.repos_to_lock st'
  = List.filter (fun e => negb (existsb (String.eqb e.1) keys)) (Lock.repos_to_lock st).
Proof.
  induction keys as [ | k rest IH ]; intros st st' Hnd; simpl.
  - intros [= <-]. symmetry. apply forallb_filter_id. by apply forallb_forall.
  - intros H. apply bind_Ok_inv in H as (st1 & Hscan & H).
    destruct (scan_frame self lockfile _ _ _ Hnd Hscan) as (Hnd1 & _).
    rewrite (IH _ _ Hnd1 H).
    assert (Hone : Lock.repos_to_lock st1
                   = List.filter (fun e => negb (String.eqb k e.1)) (Lock.repos_to_lock st)).
    { rewrite scan_spec in Hscan by done.
      destruct (dict_get k (Lock.repos_to_lock st)) as [ r | ] eqn:Hget.
      - apply on_match_table in Hscan as (-> & _). by apply list_remove_filter.
      - injection Hscan as <-. symmetry. by apply filter_key_absent, dict_get_None. }
    rewrite Hone, filter_filter. apply filter_ext. intros [k2 r2]. simpl.
    rewrite (String.eqb_sym k2 k). by rewrite negb_orb.
Qed.

Lemma _update_lockfile_returned floating items st :
  NoDup (dict_keys floating) ->
  Lock.lock_table lockfile = Ok (VDict items) ->
  Lock._update_lockfile self lockfile floating = Ok st ->
  Lock.returned st = List.filter (fun e => negb (has_key e.1 items)) floating.
Proof.
  intros Hnd Htable Hpass.
  destruct (_update_lockfile_Ok _ _ _ Htable Hpass) as (st0 & Heach & _ & -> & _).
  by apply each_lock_returned in Heach.
Qed.

(** X12: the list a pass returns is the list it was given without the
    repos the lock document has an entry for, in the order they had. *)
Theorem X12_pass_returns_the_uncovered floating items st :
  NoDup (dict_keys floating) ->
  Lock.lock_table lockfile = Ok (VDict items) ->
  Lock._update_lockfile self lockfile floating = Ok st ->
  Lock.returned st = List.filter (fun e => negb (has_key e.1 items)) floating.
Proof.
  intros Hnd Htable Hpass.
  destruct (_update_lockfile_Ok _ _ _ Htable Hpass) as (st0 & Heach & _ & Hreturned & _).
  rewrite Hreturned. unfold Lock.returned.
  by apply each_lock_returned in Heach.
Qed.

End lock_pass_facts.

Section lock_document.

Variable self : Lock.Lock.
Variable lockfile : ConfigFile.

(** X13: a pass adds no entry to the lock document and removes none, nor
    does it reorder them; an entry it changes belongs to a repo of
    [repos_to_lock], and only its [commit] is assigned, to the revision
    of that repo. *)
Theorem X13_pass_only_assigns_commits floating items st :
  Lock.lock_table lockfile = Ok (VDict items) ->
  Lock._update_lockfile self lockfile floating = Ok st ->
  dict_keys (Lock.table st) = dict_keys items
  /\ forall k v', dict_get k (Lock.table st) = Some v' ->
       exists v, dict_get k items = Some v
                 /\ (v' = v
                     \/ exists entries r,
                          v = VDict entries /\ (k, r) ∈ floating
                          /\ v' = VDict (dict_set "commit" (Lock.revision_value r) entries)).
Proof.
  intros Htable Hpass.
  destruct (_update_lockfile_Ok _ _ _ _ _ Htable Hpass) as (st0 & Heach & -> & _).
  pose (I := fun s : Lock.pass =>
               dict_keys (Lock.table s) = dict_keys items
               /\ (forall e, e ∈ Lock.repos_to_lock s -> e ∈ floating)
               /\ forall k v', dict_get k (Lock.table s) = Some v' ->
                    exists v, dict_get k items = Some v
                      /\ (v' = v
                          \/ exists entries r,
                               v = VDict entries /\ (k, r) ∈ floating
                               /\ v' = VDict (dict_set "commit"
                                                (Lock.revision_value r) entries))).
  assert (Hinv : I st0); [ | by destruct Hinv as (? & _ & ?) ].
  eapply (each_lock_invariant self lockfile I); [ | | exact Heach ].
  - clear. intros k r s s' (Hkeys & Hsub & Hentries) Hin Hone.
    apply on_match_table in Hone as (Hlist & _ & Hcases).
    assert (Hsub' : forall e, e ∈ Lock.repos_to_lock s' -> e ∈ floating).
    { intros e He. rewrite Hlist in He. by eapply Hsub, list_remove_subset. }
    destruct Hcases as [ (Heq & _) | (_ & _ & entries & Hget & Heq) ];
      unfold I; rewrite Heq; [ done | ].
    split; [ | split; [ done | ] ].
    + rewrite dict_keys_set_order.
      by rewrite (proj2 (has_key_spec k (Lock.table s)) (dict_get_Some_key _ _ _ Hget)).
    + intros k' v'. destruct (decide (k = k')) as [<- | Hne].
      * rewrite dict_get_set_eq. intros [= <-].
        destruct (Hentries _ _ Hget) as (v & Hv & [<- | (entries0 & r0 & -> & _ & [= ->])]).
        -- exists (VDict entries). split; [ done | ]. right. exists entries, r. auto.
        -- exists (VDict entries0). split; [ done | ]. right. exists entries0, r.
           rewrite dict_set_set. auto.
      * rewrite dict_get_set_ne by done. apply Hentries.
  - unfold I. simpl. split; [ done | ]. split; [ done | ].
    intros k v' Hget. exists v'. auto.
Qed.

(** What the two loops write to the log is about single repos: the
    warning only for an external lock document, the update only for one
    that is not. *)
Lemma each_lock_log keys st st' :
  Lock.each_lock self lockfile keys st = Ok st' ->
  (Lock.changed st = false -> Lock.changed st' = false ->
   Lock.table st' = Lock.table st)
  /\ (Lock._is_external_lockfile self lockfile = true ->
      Lock.changed st' = Lock.changed st)
  /\ exists more,
       Lock.log st' = Lock.log st ++ more
       /\ forall record, record ∈ more ->
            (exists name revision, record = Lock.InfoUpToDate name revision)
            \/ ((exists name old new, record = Lock.InfoUpdating name old new)
                /\ Lock._is_external_lockfile self lockfile = false)
            \/ ((exists name, record = Lock.WarningRemoteLockfile name (filename lockfile))
                /\ Lock._is_external_lockfile self lockfile = true).
Proof.
  pose (I := fun s : Lock.pass =>
               (Lock.changed s = false -> Lock.table s = Lock.table st)
               /\ (Lock.changed st = true -> Lock.changed s = true)
               /\ (Lock._is_external_lockfile self lockfile = true ->
                   Lock.changed s = Lock.changed st)
               /\ exists more,
                    Lock.log s = Lock.log st ++ more
                    /\ forall record, record ∈ more ->
                         (exists name revision, record = Lock.InfoUpToDate name revision)
                         \/ ((exists name old new, record = Lock.InfoUpdating name old new)
                             /\ Lock._is_external_lockfile self lockfile = false)
                         \/ ((exists name,
                                 record = Lock.WarningRemoteLockfile name (filename lockfile))
                             /\ Lock._is_external_lockfile self lockfile = true)).
  intros Heach. assert (Hinv : I st').
  { eapply (each_lock_invariant self lockfile I); [ | | exact Heach ].
    - clear. intros k r s s' (Htable & Hmono & Hext & more & Hlog & Hmore) _ Hone.
      apply on_match_table in Hone as (_ & (record & Hlog' & Hrecord) & Hcases).
      split; [ | split; [ | split ] ].
      + destruct Hcases as [ (-> & ->) | (_ & -> & _) ]; [ done | discriminate ].
      + destruct Hcases as [ (_ & ->) | (_ & -> & _) ]; auto.
      + destruct Hcases as [ (_ & ->) | (Hno & _) ]; [ done | congruence ].
      + exists (more ++ [record]). rewrite Hlog', Hlog, app_assoc. split; [ done | ].
        intros x Hx. apply elem_of_app in Hx as [Hx | Hx]; [ by apply Hmore | ].
        apply list_elem_of_singleton in Hx as ->.
        destruct Hrecord as [ -> | [ ((old & ->) & Hno) | (-> & Hyes) ] ]; eauto 8.
    - unfold I. split; [ done | ]. split; [ done | ]. split; [ done | ].
      exists []. rewrite app_nil_r. split; [ done | ].
      intros x Hx. by apply not_elem_of_nil in Hx. }
  destruct Hinv as (Htable & Hmono & Hext & Hlog).
  split; [ auto | ]. split; [ done | done ].
Qed.

(** X14: a pass over an external lock document leaves its entries as
    they were loaded and does not dump it; all it logs is that a lock is
    up to date or that the repo is locked in a remote lock file. *)
Theorem X14_external_lock_document_is_left_alone floating items st :
  Lock._is_external_lockfile self lockfile = true ->
  Lock.lock_table lockfile = Ok (VDict items) ->
  Lock._update_lockfile self lockfile floating = Ok st ->
  Lock.table st = items
  /\ Lock.changed st = false
  /\ forall record, record ∈ Lock.log st ->
       (exists name revision, record = Lock.InfoUpToDate name revision)
       \/ (exists name, record = Lock.WarningRemoteLockfile name (filename lockfile)).
Proof.
  intros Hexternal Htable Hpass.
  destruct (_update_lockfile_Ok _ _ _ _ _ Htable Hpass)
    as (st0 & Heach & -> & _ & -> & ->).
  apply each_lock_log in Heach as (Hsame & Hchanged & more & Hlog & Hmore).
  simpl in Hsame, Hchanged, Hlog. specialize (Hchanged Hexternal).
  rewrite Hchanged, app_nil_r, Hlog. split; [ auto | ]. split; [ done | ].
  intros record Hin.
  destruct (Hmore record Hin) as [ ? | [ (_ & ?) | (? & _) ] ]; [ auto | congruence | auto ].
Qed.

(** X15: the lock document is dumped exactly when the pass has assigned
    a commit: if nothing was assigned the entries are as loaded and
    nothing is dumped; otherwise the last thing the pass does is to dump
    the document with the entries as they now are, as JSON for a [.json]
    file and as YAML for any other. *)
Theorem X15_dumped_exactly_when_changed floating items st :
  Lock.lock_table lockfile = Ok (VDict items) ->
  Lock._update_lockfile self lockfile floating = Ok st ->
  (Lock.changed st = false ->
   Lock.table st = items /\ forall file body format,
                              Lock.Dumped file body format ∉ Lock.log st)
  /\ (Lock.changed st = true ->
      exists earlier,
        Lock.log st
        = earlier ++ [Lock.InfoUpdatingLockfile (filename lockfile);
                      Lock.Dumped (filename lockfile)
                        (Lock.with_table (config lockfile) (Lock.table st))
                        (if pathlib.suffix (pathlib.of_string (filename lockfile))
                            =? ".json"
                         then "json" else "yaml")]
        /\ forall file body format, Lock.Dumped file body format ∉ earlier).
Proof.
  intros Htable Hpass.
  destruct (_update_lockfile_Ok _ _ _ _ _ Htable Hpass)
    as (st0 & Heach & -> & _ & -> & ->).
  apply each_lock_log in Heach as (Hsame & _ & more & Hlog & Hmore).
  simpl in Hsame, Hlog.
  assert (Hnone : forall file body format,
             Lock.Dumped file body format ∉ Lock.log st0).
  { intros file body format Hin. rewrite Hlog in Hin.
    destruct (Hmore _ Hin)
      as [ (? & ? & ?) | [ ((? & ? & ? & ?) & _) | ((? & ?) & _) ] ]; discriminate. }
  split; intros Hchanged; rewrite Hchanged.
  - rewrite app_nil_r. auto.
  - by exists (Lock.log st0).
Qed.

End lock_document.

(** ** [Lock.run] *)

Lemma NoDup_keys_filter {A} (f : string * A -> bool) (l : list (string * A)) :
  NoDup (dict_keys l) -> NoDup (dict_keys (List.filter f l)).
Proof.
  unfold dict_keys. induction l as [ | [k v] rest IH ]; [ done | ].
  cbn [map fst]. intros Hnd. apply NoDup_cons in Hnd as [Hfresh Hnd].
  cbn [List.filter]. destruct (f (k, v)); [ | by apply IH ].
  cbn [map fst]. apply NoDup_cons. split; [ | by apply IH ].
  intros Hin. apply Hfresh. apply list_elem_of_fmap in Hin as ([k2 v2] & -> & Hin).
  apply list_elem_of_In, filter_In in Hin as [Hin _].
  apply list_elem_of_fmap. exists (k2, v2). split; [ done | by apply list_elem_of_In ].
Qed.

Lemma update_locks_remaining self lockfiles : forall tables floating passes done remaining,
  NoDup (dict_keys floating) ->
  Forall2 (fun lock items => Lock.lock_table lock = Ok (VDict items)) lockfiles tables ->
  update_locks self lockfiles floating done = Ok (passes, remaining) ->
  remaining = List.filter (fun e => negb (existsb (has_key e.1) tables)) floating
  /\ length passes = length done + length lockfiles.
Proof.
  induction lockfiles as [ | lock rest IH ];
    intros tables floating passes done remaining Hnd Htables; cbn [update_locks].
  - apply Forall2_nil_inv_l in Htables as ->. intros [= <- <-]. simpl.
    split; [ | lia ]. symmetry. apply forallb_filter_id. by apply forallb_forall.
  - apply Forall2_cons_inv_l in Htables as (items & tables' & Htable & Htables & ->).
    intros H. apply bind_Ok_inv in H as (st & Hpass & H).
    pose proof (_update_lockfile_returned _ _ _ _ _ Hnd Htable Hpass) as Hreturned.
    apply (IH tables') in H as [-> Hlen]; [ | | done ].
    + rewrite Hreturned, filter_filter. split.
      * apply filter_ext. intros e. cbn [existsb]. by rewrite negb_orb.
      * rewrite length_app in Hlen. simpl in Hlen |- *. lia.
    + rewrite Hreturned. by apply NoDup_keys_filter.
Qed.

(** X16: after [run] has passed the list of floating repos through the
    lock documents, what is left of it are the repos that none of the
    documents has an entry for, in their order; every document has had
    one pass. *)
Theorem X16_locks_hand_on_the_uncovered self lockfiles tables floating passes remaining :
  NoDup (dict_keys floating) ->
  Forall2 (fun lock items => Lock.lock_table lock = Ok (VDict items)) lockfiles tables ->
  update_locks self lockfiles floating [] = Ok (passes, remaining) ->
  remaining = List.filter (fun e => negb (existsb (has_key e.1) tables)) floating
  /\ length passes = length lockfiles.
Proof.
  intros Hnd Htables Hrun.
  by destruct (update_locks_remaining _ _ _ _ _ _ _ Hnd Htables Hrun).
Qed.

Lemma with_table_table body items table :
  (overrides ← subscript body "overrides"; subscript overrides "repos") = Ok (VDict items) ->
  (overrides ← subscript (Lock.with_table body table) "overrides";
   subscript overrides "repos") = Ok (VDict table).
Proof.
  intros H. apply bind_Ok_inv in H as (overrides & Hov & Hrepos).
  destruct body as [ | | | | | top ]; try discriminate. simpl in Hov.
  destruct (dict_get "overrides" top) as [ ov | ] eqn:Htop; [ | discriminate ].
  injection Hov as ->.
  destruct overrides as [ | | | | | ov ]; try discriminate.
  unfold Lock.with_table. rewrite Htop. cbn [subscript].
  rewrite dict_get_set_eq, bind_Ok. cbn [subscript]. by rewrite dict_get_set_eq.
Qed.

(** The entries the uncovered repos get. *)
Lemma add_locks_table remaining : forall body items,
  (overrides ← subscript body "overrides"; subscript overrides "repos") = Ok (VDict items) ->
  exists body' items',
    add_locks body remaining = Ok body'
    /\ (overrides ← subscript body' "overrides"; subscript overrides "repos")
       = Ok (VDict items')
    /\ (Lock.records_pins items -> Lock.records_pins items')
    /\ (forall k, k ∈ dict_keys remaining ->
                  k ∈ dict_keys items' /\ Lock.pin items' k = Some VNone)
    /\ (forall k, k ∉ dict_keys remaining -> Lock.pin items' k = Lock.pin items k).
Proof.
  induction remaining as [ | [kr r] rest IH ]; intros body items Htable.
  - exists body, items. split; [ done | ]. split; [ done | ]. split; [ done | ].
    split; [ | done ]. intros k Hk. by apply not_elem_of_nil in Hk.
  - cbn [add_locks]. apply bind_Ok_inv in Htable as Hparts.
    destruct Hparts as (overrides & Hov & Hrepos). rewrite Hov, bind_Ok, Hrepos, bind_Ok.
    pose proof (with_table_table body items
                  (dict_set kr (VDict [("commit", VNone)]) items) Htable) as Hnext.
    destruct (IH _ _ Hnext) as (body' & items' & Hadd & Htable' & Hpins & Hin & Hout).
    exists body', items'. split; [ done | ]. split; [ done | ].
    split; [ | split ].
    + intros Hrecords. apply Hpins. intros key v.
      destruct (decide (kr = key)) as [<- | Hne].
      * rewrite dict_get_set_eq. intros [= <-]. by exists [("commit", VNone)], VNone.
      * rewrite dict_get_set_ne by done. apply Hrecords.
    + intros k Hk. cbn [dict_keys map fst] in Hk.
      destruct (decide (k ∈ dict_keys rest)) as [Hrest | Hrest]; [ by apply Hin | ].
      apply elem_of_cons in Hk as [-> | Hk]; [ | done ].
      destruct (IH _ _ Hnext) as (body2 & items2 & Hadd2 & Htable2 & _ & _ & Hout2).
      rewrite Hadd in Hadd2. injection Hadd2 as <-.
      rewrite Htable' in Htable2. injection Htable2 as <-.
      rewrite (Hout kr Hrest). unfold Lock.pin. rewrite dict_get_set_eq. split; [ | done ].
      assert (Hpin : Lock.pin items' kr = Some VNone).
      { rewrite (Hout kr Hrest). unfold Lock.pin. by rewrite dict_get_set_eq. }
      unfold Lock.pin in Hpin. destruct (dict_get kr items') eqn:E; [ | discriminate ].
      by eapply dict_get_Some_key.
    + intros k Hk. cbn [dict_keys map fst] in Hk.
      apply not_elem_of_cons in Hk as [Hne Hk].
      rewrite (Hout k Hk). apply pin_set_ne. congruence.
Qed.

Section new_locks.

Variable self : Lock.Lock.
Variable lockfile : ConfigFile.
Variable remaining : list (string * Lock.Repo).

Hypothesis Hinternal : Lock._is_external_lockfile self lockfile = false.

(** While the pass runs, a repo of [remaining] is still in the list and
    its entry has no commit, or it has left the list and its entry has
    the revision of the repo. *)
Lemma each_lock_fills keys : forall st st',
  NoDup (dict_keys (Lock.repos_to_lock st)) ->
  (forall k r, dict_get k (Lock.repos_to_lock st) = Some r ->
               dict_get k remaining = Some r) ->
  (forall k r, dict_get k remaining = Some r ->
               (dict_get k (Lock.repos_to_lock st) = Some r
                /\ Lock.pin (Lock.table st) k = Some VNone)
               \/ ((k ∉ dict_keys (Lock.repos_to_lock st))
                   /\ Lock.pin (Lock.table st) k = Some (Lock.revision_value r))) ->
  Lock.each_lock self lockfile keys st = Ok st' ->
  forall k r, dict_get k remaining = Some r ->
              (dict_get k (Lock.repos_to_lock st') = Some r
               /\ Lock.pin (Lock.table st') k = Some VNone)
              \/ ((k ∉ dict_keys (Lock.repos_to_lock st'))
                  /\ Lock.pin (Lock.table st') k = Some (Lock.revision_value r)).
Proof using Hinternal.
  induction keys as [ | key rest IH ]; intros st st' Hnd Hsub Hinv; simpl.
  - by intros [= <-].
  - intros H. apply bind_Ok_inv in H as (st1 & Hscan & H).
    destruct (scan_frame self lockfile _ _ _ Hnd Hscan) as (Hnd1 & Hother & Hgone & _).
    eapply IH; [ exact Hnd1 | | | exact H ].
    + intros k r Hget. destruct (decide (k = key)) as [-> | Hne].
      * rewrite scan_spec in Hscan by done.
        destruct (dict_get key (Lock.repos_to_lock st)) as [ r0 | ] eqn:Hkey.
        -- apply on_match_table in Hscan as (Hlist & _).
           destruct (list_remove_get _ _ _ Hnd Hkey) as [_ Hrem].
           rewrite Hlist, Hrem, decide_True in Hget by done. discriminate.
        -- injection Hscan as <-. congruence.
      * apply Hsub. by rewrite <- (proj1 (Hother k Hne)).
    + intros k r Hget. destruct (decide (k = key)) as [-> | Hne].
      * rewrite scan_spec in Hscan by done.
        destruct (Hinv key r Hget) as [ [Hin Hpin] | [Hout Hpin] ].
        -- rewrite Hin in Hscan.
           apply on_match_Ok in Hscan as (Hlist & commit & Hpin' & Hcases).
           rewrite Hpin in Hpin'. injection Hpin' as <-.
           destruct (list_remove_get _ _ _ Hnd Hin) as [_ Hrem]. right. split.
           ++ apply dict_get_None. by rewrite Hlist, Hrem, decide_True.
           ++ destruct Hcases
                as [ (Heq & -> & _) | [ (_ & _ & (entries & ->) & _) | (_ & Hext & _) ] ].
              ** apply py_eqb_true in Heq. rewrite Hpin. f_equal.
                 destruct (Lock.revision_value r) as [ | [] | | | | ]; by try discriminate.
              ** apply pin_set_eq.
              ** congruence.
        -- destruct (Hgone key Hout) as [Hout1 Hpin1]. right. by rewrite Hpin1.
      * destruct (Hother k Hne) as [Hget1 Hpin1]. rewrite Hget1, Hpin1.
        destruct (Hinv k r Hget) as [ ? | [Hout Hpin] ]; [ by left | right ].
        split; [ | done ]. apply dict_get_None. rewrite Hget1. by apply dict_get_None.
Qed.

End new_locks.

(** X17: the last statements of [run], for a lock document that is not
    external: every repo that was left uncovered ends with an entry
    whose commit is the revision of the repo, no repo is left over, and
    the commits of the other entries are as before. *)
Theorem X17_uncovered_repos_get_locked self lock remaining items :
  NoDup (dict_keys remaining) ->
  Lock.lock_table lock = Ok (VDict items) ->
  Lock.records_pins items ->
  Lock._is_external_lockfile self lock = false ->
  exists st,
    add_new_locks self lock remaining = Ok st
    /\ Lock.returned st = []
    /\ (forall k r, dict_get k remaining = Some r ->
                    Lock.pin (Lock.table st) k = Some (Lock.revision_value r))
    /\ (forall k, k ∉ dict_keys remaining -> Lock.pin (Lock.table st) k = Lock.pin items k).
Proof.
  intros Hnd Htable Hrecords Hinternal. unfold add_new_locks.
  destruct (add_locks_table remaining (config lock) items Htable)
    as (body & items' & -> & Htable' & Hpins & Hin & Hout).
  rewrite bind_Ok.
  set (lock' := {| filename := filename lock; config := body; src_dir := src_dir lock;
                   is_lockfile := is_lockfile lock; is_external := is_external lock |}).
  assert (Hlock' : Lock.lock_table lock' = Ok (VDict items')) by exact Htable'.
  destruct (_update_lockfile_returns self lock' remaining items' Hlock' (Hpins Hrecords))
    as (st & Hpass).
  exists st. split; [ exact Hpass | ].
  pose proof (_update_lockfile_returned _ _ _ _ _ Hnd Hlock' Hpass) as Hreturned.
  assert (Hempty : Lock.returned st = []).
  { rewrite Hreturned. clear -Hin. induction remaining as [ | [k r] rest IH ]; [ done | ].
    cbn [List.filter fst].
    rewrite (proj2 (has_key_spec k items')).
    2: { apply Hin. cbn [dict_keys map fst]. apply elem_of_cons. auto. }
    cbn [negb]. apply IH. intros k' Hk'. apply Hin.
    cbn [dict_keys map fst]. apply elem_of_cons. auto. }
  split; [ exact Hempty | ].
  destruct (_update_lockfile_Ok _ _ _ _ _ Hlock' Hpass) as (st0 & Heach & Ht & Hr & _).
  split.
  - intros k r Hget. rewrite Ht.
    assert (Hcases :
              (dict_get k (Lock.repos_to_lock st0) = Some r
               /\ Lock.pin (Lock.table st0) k = Some VNone)
              \/ ((k ∉ dict_keys (Lock.repos_to_lock st0))
                  /\ Lock.pin (Lock.table st0) k = Some (Lock.revision_value r))).
    { eapply (each_lock_fills self lock' remaining Hinternal);
        [ | | | exact Heach | exact Hget ]; simpl.
      - exact Hnd.
      - auto.
      - intros k' r' H. left. split; [ done | ].
        apply Hin. by eapply dict_get_Some_key. }
    destruct Hcases as [ [Hstill _] | [_ Hpin] ]; [ | done ].
    unfold Lock.returned in Hr, Hempty. rewrite <- Hr, Hempty in Hstill. discriminate.
  - intros k Hk. rewrite Ht.
    destruct ((fun H => each_lock_frame self lock' _ _ _ H Heach) Hnd) as (_ & Hframe & _).
    destruct (Hframe k Hk) as [_ ->]. by apply Hout.
Qed.

(** ** Merging the same mapping again *)

Lemma merge_loop_fixed (r : dict) : forall items,
  (forall key val, (key, val) ∈ items ->
     exists x, dict_get key r = Some x /\ merge_rule (Some x) val x) ->
  merge_loop r items = Ok (VDict r).
Proof.
  induction items as [ | [key val] rest IH ]; intros Hitems; [ done | ].
  cbn [merge_loop].
  destruct (Hitems key val) as (x & Hx & Hrule); [ apply elem_of_cons; auto | ].
  assert (Hrest : merge_loop r rest = Ok (VDict r)).
  { apply IH. intros k v Hin. apply Hitems. apply elem_of_cons. auto. }
  rewrite Hx. unfold merge_rule in Hrule.
  destruct x as [ | | | | | sub ]; try (subst val; by rewrite (dict_set_same _ _ _ Hx)).
  destruct val as [ | | | | | u ]; try (by rewrite <- Hrule, (dict_set_same _ _ _ Hx)).
  rewrite Hrule, bind_Ok. by rewrite (dict_set_same _ _ _ Hx).
Qed.

(** X18: merging [upd] into the result of merging [upd] changes
    nothing: what a document has contributed is not altered when the
    same document is merged again right after. *)
Theorem X18_merging_again_changes_nothing (dest upd merged : value) :
  unique_keysb upd = true ->
  _internal_dict_merge dest upd = Ok merged ->
  _internal_dict_merge merged upd = Ok merged.
Proof.
  revert dest merged. induction upd as [ | | | | | u IH ] using value_nested_ind;
    intros dest merged Hunique Hmerge;
    try (by destruct dest).
  destruct dest as [ | | | | | d ]; try discriminate.
  apply unique_keysb_dict in Hunique as [Hnd Hvalues].
  destruct (merge_step_get d u Hnd) as (r & Hr & Hrule & _).
  rewrite Hr in Hmerge. injection Hmerge as <-.
  rewrite _internal_dict_merge_unfold.
  destruct (keys_intersect r u) eqn:Hint.
  - apply merge_loop_fixed. intros key val Hin.
    destruct (Hrule key val (dict_get_entry _ _ _ Hnd Hin)) as (x & Hx & Hmerged).
    exists x. split; [ done | ].
    rewrite Forall_forall in IH, Hvalues.
    specialize (IH _ Hin). specialize (Hvalues _ Hin). simpl in IH, Hvalues.
    unfold merge_rule in Hmerged |- *.
    destruct (dict_get key d) as [ [ | | | | | a ] | ];
      try (subst x; destruct val as [ | | | | | w ]; try done;
           by apply _internal_dict_merge_self with (d := w)).
    destruct val as [ | | | | | w ]; try (by subst x).
    destruct (_internal_dict_merge_total w a) as (m & Hm).
    rewrite Hm in Hmerged. injection Hmerged as <-.
    by apply (IH (VDict a)).
  - destruct u as [ | [key val] rest ]; [ done | ].
    exfalso. destruct (Hrule key val) as (x & Hx & _).
    { simpl. by rewrite String.eqb_refl. }
    apply dict_get_Some_key in Hx.
    apply (keys_intersect_false _ _ Hint key Hx). cbn [dict_keys map fst].
    apply elem_of_cons. auto.
Qed.

(** ** A second pass *)

Section second_pass.

Variable self : Lock.Lock.
Variable lockfile : ConfigFile.

Lemma each_lock_table_keys keys st st' :
  Lock.each_lock self lockfile keys st = Ok st' ->
  dict_keys (Lock.table st') = dict_keys (Lock.table st).
Proof.
  apply (each_lock_invariant self lockfile
           (fun s => dict_keys (Lock.table s) = dict_keys (Lock.table st))); [ | done ].
  intros k r s s' Hkeys _ Hone.
  apply on_match_table in Hone as (_ & _ & [ (-> & _) | (_ & _ & entries & Hget & ->) ]);
    [ done | ].
  rewrite dict_keys_set_order.
  by rewrite (proj2 (has_key_spec k (Lock.table s)) (dict_get_Some_key _ _ _ Hget)).
Qed.

(** What holds of an invariant when every turn of [if k == rk:] that the
    loops can come to is known to return. *)
Lemma each_lock_runs (I : Lock.pass -> Prop) (table_keys : list string) :
  (forall k r st, I st -> (k, r) ∈ Lock.repos_to_lock st -> k ∈ table_keys ->
                  exists st', Lock.on_match self lockfile k k r st = Ok st' /\ I st') ->
  forall keys st,
    (forall k, k ∈ keys -> k ∈ table_keys) -> I st ->
    exists st', Lock.each_lock self lockfile keys st = Ok st' /\ I st'.
Proof.
  intros Hmatch.
  assert (Hscan : forall k, k ∈ table_keys -> forall steps position st,
             I st -> exists st', Lock.scan self lockfile k steps position st = Ok st'
                                 /\ I st').
  { intros k Hk. induction steps as [ | steps IH ]; intros position st Hst; simpl;
      [ eauto | ].
    destruct (Lock.repos_to_lock st !! position) as [ [rk r] | ] eqn:E; [ | eauto ].
    destruct (String.eqb_spec k rk) as [<- | _]; [ | by apply IH ].
    destruct (Hmatch k r st Hst) as (st1 & -> & Hst1);
      [ by eapply list_elem_of_lookup_2 | done | ].
    rewrite bind_Ok. by apply IH. }
  induction keys as [ | k rest IH ]; intros st Hkeys Hst; simpl; [ eauto | ].
  destruct (Hscan k (Hkeys k ltac:(apply elem_of_cons; auto))
                  (length (Lock.repos_to_lock st)) 0 st Hst) as (st1 & -> & Hst1).
  rewrite bind_Ok. apply IH; [ | done ].
  intros k' Hk'. apply Hkeys. apply elem_of_cons. auto.
Qed.

(** After the loops every repo of the list they started with is still in
    the list, or the commit of its entry needs no assignment. *)
Lemma each_lock_settles keys floating : forall st st',
  NoDup (dict_keys floating) ->
  Lock.repos_to_lock st = floating ->
  Lock.each_lock self lockfile keys st = Ok st' ->
  forall k r, dict_get k floating = Some r ->
    dict_get k (Lock.repos_to_lock st') = Some r
    \/ exists c, Lock.pin (Lock.table st') k = Some c
                 /\ (py_eqb c (Lock.revision_value r) = true
                     \/ Lock._is_external_lockfile self lockfile = true).
Proof.
  intros st st' Hnd Hstart Heach.
  pose (I := fun s : Lock.pass =>
               NoDup (dict_keys (Lock.repos_to_lock s))
               /\ (forall k r, dict_get k (Lock.repos_to_lock s) = Some r ->
                               dict_get k floating = Some r)
               /\ forall k r, dict_get k floating = Some r ->
                    dict_get k (Lock.repos_to_lock s) = Some r
                    \/ exists c, Lock.pin (Lock.table s) k = Some c
                         /\ (py_eqb c (Lock.revision_value r) = true
                             \/ Lock._is_external_lockfile self lockfile = true)).
  assert (Hinv : I st'); [ | by destruct Hinv as (_ & _ & ?) ].
  eapply (each_lock_invariant self lockfile I); [ | | exact Heach ].
  - clear -Hnd. intros k r s s' (Hnd' & Hsub & Hsettled) Hin Hone.
    assert (Hget : dict_get k (Lock.repos_to_lock s) = Some r)
      by (by apply dict_get_entry).
    destruct (list_remove_get _ _ _ Hnd' Hget) as [Hnd1 Hrem].
    apply on_match_Ok in Hone as (Hlist & commit & Hpin & Hcases).
    rewrite <- Hlist in Hnd1, Hrem.
    split; [ done | ]. split.
    + intros k' r'. rewrite Hrem. destruct (decide (k' = k)); [ done | apply Hsub ].
    + intros k' r' Hfloating. destruct (decide (k' = k)) as [-> | Hne].
      * right. rewrite (Hsub _ _ Hget) in Hfloating. injection Hfloating as <-.
        destruct Hcases
          as [ (Heq & -> & _) | [ (_ & _ & (entries & ->) & _) | (_ & Hext & -> & _) ] ].
        -- exists commit. auto.
        -- exists (Lock.revision_value r). split; [ apply pin_set_eq | ].
           left. apply py_eqb_refl.
        -- exists commit. auto.
      * rewrite Hrem, decide_False by done.
        destruct (Hsettled k' r' Hfloating) as [ ? | (c & Hc & Hdone) ]; [ by left | right ].
        exists c. split; [ | done ]. rewrite <- Hc.
        destruct Hcases as [ (_ & -> & _) | [ (_ & _ & (entries & ->) & _) | (_ & _ & -> & _) ] ];
          try done.
        apply pin_set_ne. congruence.
  - unfold I. rewrite Hstart. split; [ done | ]. split; [ done | ]. auto.
Qed.

End second_pass.

(** X19: a pass over the lock document as the first pass has left it,
    with the same list of repos, returns, assigns nothing and hands back
    the same list as the first. *)
Theorem X19_second_pass_assigns_nothing self lockfile floating items st :
  NoDup (dict_keys floating) ->
  Lock.lock_table lockfile = Ok (VDict items) ->
  Lock._update_lockfile self lockfile floating = Ok st ->
  exists st',
    Lock._update_lockfile self
      {| filename := filename lockfile;
         config := Lock.with_table (config lockfile) (Lock.table st);
         src_dir := src_dir lockfile; is_lockfile := is_lockfile lockfile;
         is_external := is_external lockfile |}
      floating = Ok st'
    /\ Lock.table st' = Lock.table st
    /\ Lock.changed st' = false
    /\ Lock.returned st' = Lock.returned st.
Proof.
  intros Hnd Htable Hpass.
  pose proof (_update_lockfile_returned _ _ _ _ _ Hnd Htable Hpass) as Hreturned.
  destruct (_update_lockfile_Ok _ _ _ _ _ Htable Hpass) as (st0 & Heach & Ht & Hr & _).
  pose proof (each_lock_table_keys _ _ _ _ _ Heach) as Hkeys. simpl in Hkeys.
  pose proof (each_lock_settles self lockfile _ floating
                {| Lock.table := items; Lock.repos_to_lock := floating;
                   Lock.changed := false; Lock.log := [] |} _ Hnd eq_refl Heach)
    as Hsettled.
  rewrite <- Ht in Hkeys.
  set (updated := {| filename := filename lockfile;
                     config := Lock.with_table (config lockfile) (Lock.table st);
                     src_dir := src_dir lockfile; is_lockfile := is_lockfile lockfile;
                     is_external := is_external lockfile |}).
  assert (Hupdated : Lock.lock_table updated = Ok (VDict (Lock.table st)))
    by (by eapply with_table_table).
  pose (I := fun s : Lock.pass =>
               Lock.table s = Lock.table st /\ Lock.changed s = false
               /\ forall e, e ∈ Lock.repos_to_lock s -> e ∈ floating).
  destruct (each_lock_runs self updated I (dict_keys (Lock.table st))) with
    (keys := dict_keys (Lock.table st))
    (st := {| Lock.table := Lock.table st; Lock.repos_to_lock := floating;
              Lock.changed := false; Lock.log := [] |})
    as (st1 & Heach1 & Htable1 & Hchanged1 & _).
  - intros k r s (Hst & Hch & Hsub) Hin Hk.
    assert (Hfloating : dict_get k floating = Some r)
      by (apply dict_get_entry; auto).
    assert (Hdone : exists c, Lock.pin (Lock.table st) k = Some c
                      /\ (py_eqb c (Lock.revision_value r) = true
                          \/ Lock._is_external_lockfile self lockfile = true)).
    { destruct (Hsettled k r Hfloating) as [Hstill | Hdone]; [ | by rewrite Ht ].
      exfalso. apply dict_get_In in Hstill.
      unfold Lock.returned in Hr, Hreturned. rewrite <- Hr, Hreturned in Hstill.
      apply list_elem_of_In, filter_In in Hstill as [_ Hstill]. simpl in Hstill.
      apply negb_true_iff in Hstill. rewrite Hkeys in Hk.
      apply has_key_spec in Hk. congruence. }
    destruct Hdone as (c & Hc & Hcases).
    unfold Lock.on_match. rewrite Hst.
    rewrite (proj2 (pin_subscript _ _ _) Hc), bind_Ok.
    assert (Hsub' : forall e, e ∈ Lock.list_remove (k, r) (Lock.repos_to_lock s) ->
                              e ∈ floating)
      by (intros e He; by eapply Hsub, list_remove_subset).
    destruct (py_eqb c (Lock.revision_value r)) eqn:Heq.
    + eexists. split; [ done | ]. by repeat split.
    + destruct Hcases as [ | Hext ]; [ discriminate | ].
      change (Lock._is_external_lockfile self updated)
        with (Lock._is_external_lockfile self lockfile).
      rewrite Hext. cbn [negb]. eexists. split; [ done | ]. by repeat split.
  - done.
  - by repeat split.
  - assert (Hpass' : Lock._update_lockfile self updated floating = Ok st1).
    { unfold Lock._update_lockfile. rewrite Hupdated, bind_Ok, Heach1, bind_Ok.
      by rewrite Hchanged1. }
    exists st1. split; [ exact Hpass' | ]. split; [ done | ]. split; [ done | ].
    rewrite (_update_lockfile_returned _ _ _ _ _ Hnd Hupdated Hpass'), Hreturned.
    apply filter_ext. intros e. unfold has_key. by rewrite Hkeys.
Qed.

(** ** The name of the lock sibling *)

Lemma append_cons x (a b : string) : String x a +:+ b = String x (a +:+ b).
Proof. reflexivity. Qed.

Lemma append_nil_l (b : string) : "" +:+ b = b.
Proof. reflexivity. Qed.

Lemma length_append (a b : string) :
  String.length (a +:+ b) = String.length a + String.length b.
Proof.
  induction a as [ | x a IH ]; [ done | ]. rewrite append_cons. simpl. by rewrite IH.
Qed.

Lemma append_nil_r (a : string) : a +:+ "" = a.
Proof. induction a as [ | x a IH ]; [ done | ]. by rewrite append_cons, IH. Qed.

Lemma append_assoc (a b c : string) : (a +:+ b) +:+ c = a +:+ b +:+ c.
Proof. induction a as [ | x a IH ]; [ done | ]. by rewrite !append_cons, IH. Qed.

Lemma rfind_from_S c s : forall start,
  rfind_from c s (S start) = S <$> rfind_from c s start.
Proof.
  induction s as [ | a rest IH ]; intros start; simpl; [ done | ].
  rewrite (IH (S start)).
  destruct (rfind_from c rest (S start)); simpl; [ done | ].
  by destruct (Ascii.eqb a c).
Qed.

Lemma rfind_cons c a s :
  rfind c (String a s)
  = match rfind c s with
    | Some i => Some (S i)
    | None => if Ascii.eqb a c then Some 0 else None
    end.
Proof. unfold rfind. simpl. rewrite rfind_from_S. by destruct (rfind_from c s 0). Qed.

Lemma rfind_app c a b :
  rfind c (a +:+ b)
  = match rfind c b with
    | Some i => Some (String.length a + i)
    | None => rfind c a
    end.
Proof.
  induction a as [ | x a IH ]; [ rewrite append_nil_l; by destruct (rfind c b) | ].
  rewrite append_cons, !rfind_cons, IH.
  destruct (rfind c b); simpl; done.
Qed.

Lemma rfind_lt c s i : rfind c s = Some i -> i < String.length s.
Proof.
  revert i. induction s as [ | a s IH ]; intros i; [ done | ].
  rewrite rfind_cons. destruct (rfind c s) as [ j | ].
  - intros [= <-]. simpl. specialize (IH j eq_refl). lia.
  - destruct (Ascii.eqb a c); [ | done ]. intros [= <-]. simpl. lia.
Qed.

Lemma substring_app_r a b : forall i n,
  substring (String.length a + i) n (a +:+ b) = substring i n b.
Proof.
  induction a as [ | x a IH ]; intros i n; [ done | ]. rewrite append_cons. simpl. apply IH.
Qed.

Lemma substring_0_length s : substring 0 (String.length s) s = s.
Proof. induction s as [ | x s IH ]; simpl; [ done | by rewrite IH ]. Qed.

Lemma substring_0_app a b : substring 0 (String.length a) (a +:+ b) = a.
Proof.
  induction a as [ | x a IH ]; [ by destruct b | ]. rewrite append_cons. simpl. by rewrite IH.
Qed.

Lemma length_substring s : forall i n,
  i + n <= String.length s -> String.length (substring i n s) = n.
Proof.
  induction s as [ | x s IH ]; intros i n Hle; simpl in Hle.
  - assert (i = 0) as -> by lia. assert (n = 0) as -> by lia. done.
  - destruct i as [ | i ]; simpl.
    + destruct n as [ | n ]; [ done | ]. simpl. rewrite IH; [ done | lia ].
    + apply IH. lia.
Qed.

Lemma slice_to_from i s : i <= String.length s -> slice_to i s +:+ slice_from i s = s.
Proof.
  unfold slice_to, slice_from. revert i. induction s as [ | x s IH ]; intros i Hle.
  - simpl in Hle. assert (i = 0) as -> by lia. done.
  - destruct i as [ | i ]; simpl.
    + rewrite append_nil_l. by rewrite substring_0_length.
    + simpl in Hle. rewrite append_cons. f_equal. apply IH. lia.
Qed.

Lemma all_chars_app c a b : all_chars c (a +:+ b) = all_chars c a && all_chars c b.
Proof.
  induction a as [ | x a IH ]; [ done | ]. rewrite append_cons. simpl.
  rewrite IH. by rewrite andb_assoc.
Qed.

Lemma slice_from_app a b i :
  i <= String.length b ->
  slice_from (String.length a + i) (a +:+ b) = slice_from i b.
Proof.
  intros Hle. unfold slice_from. rewrite length_append, substring_app_r.
  f_equal. lia.
Qed.

Lemma splitext_ext p :
  (os_path.splitext p).2
  = match rfind "." p with
    | None => ""
    | Some dotIndex =>
        if Nat.leb (match rfind "/" p with None => 0 | Some sepIndex => S sepIndex end)
                   dotIndex
           && negb (all_chars "."
                      (substring (match rfind "/" p with None => 0 | Some sepIndex => S sepIndex end)
                                 (dotIndex - match rfind "/" p with
                                             | None => 0 | Some sepIndex => S sepIndex end)
                                 p))
        then slice_from dotIndex p else ""
    end.
Proof.
  unfold os_path.splitext. destruct (rfind "." p) as [ dotIndex | ]; [ | done ].
  cbv zeta. by destruct (_ && _).
Qed.

Lemma filename_index_app X b :
  X = "" \/ (exists X', X = X' +:+ "/") ->
  rfind "/" b = None ->
  match rfind "/" (X +:+ b) with None => 0 | Some sepIndex => S sepIndex end
  = String.length X.
Proof.
  intros HX Hb. rewrite rfind_app, Hb. destruct HX as [-> | [X' ->]]; [ done | ].
  rewrite rfind_app, length_append. simpl. lia.
Qed.

(** The extension of a path is that of its last component. *)
Lemma splitext_prefix X b :
  X = "" \/ (exists X', X = X' +:+ "/") ->
  rfind "/" b = None ->
  (os_path.splitext (X +:+ b)).2 = (os_path.splitext b).2.
Proof.
  intros HX Hb. rewrite !splitext_ext, (filename_index_app X b HX Hb), Hb.
  rewrite (rfind_app "." X b). destruct (rfind "." b) as [ i | ] eqn:Hdot.
  - apply rfind_lt in Hdot.
    replace (String.length X + i - String.length X) with i by lia.
    assert (Hsub : substring (String.length X) i (X +:+ b) = substring 0 i b)
      by (rewrite <- (substring_app_r X b 0 i); f_equal; lia).
    rewrite Hsub, Nat.sub_0_r.
    replace (Nat.leb (String.length X) (String.length X + i)) with true
      by (symmetry; apply Nat.leb_le; lia).
    simpl. destruct (negb _); [ | done ]. apply slice_from_app. lia.
  - destruct (rfind "." X) as [ j | ] eqn:HX'; [ | done ].
    apply rfind_lt in HX'.
    replace (Nat.leb (String.length X) j) with false
      by (symmetry; apply Nat.leb_gt; lia).
    done.
Qed.

Lemma recognized_extension_cases p :
  recognized_extension p = true ->
  (os_path.splitext p).2 = ".json" \/ (os_path.splitext p).2 = ".yml"
  \/ (os_path.splitext p).2 = ".yaml".
Proof.
  unfold recognized_extension. cbv zeta.
  destruct (String.eqb_spec (os_path.splitext p).2 ".json"); [ auto | ].
  destruct (String.eqb_spec (os_path.splitext p).2 ".yml"); [ auto | ].
  destruct (String.eqb_spec (os_path.splitext p).2 ".yaml"); [ auto | done ].
Qed.

(** In a last component with a known extension, [pathlib] and [os.path]
    cut at the same dot. *)
Lemma suffix_is_extension b :
  rfind "/" b = None ->
  recognized_extension b = true ->
  exists i,
    pathlib.suffix_index b = Some i
    /\ slice_from i b = (os_path.splitext b).2
    /\ i <= String.length b.
Proof.
  intros Hb Hext. apply recognized_extension_cases in Hext.
  rewrite splitext_ext, Hb in Hext. rewrite splitext_ext, Hb.
  unfold pathlib.suffix_index.
  destruct (rfind "." b) as [ i | ] eqn:Hdot.
  2: { by destruct Hext as [ | [ | ] ]. }
  exists i. apply rfind_lt in Hdot as Hlt. rewrite Nat.sub_0_r in Hext |- *.
  destruct (Nat.leb 0 i && negb (all_chars "." (substring 0 i b))) eqn:Hcond.
  2: { by destruct Hext as [ | [ | ] ]. }
  assert (Hlen : String.length (slice_from i b) = String.length b - i)
    by (apply length_substring; lia).
  assert (Hlong : 4 <= String.length (slice_from i b))
    by (destruct Hext as [ -> | [ -> | -> ] ]; simpl; lia).
  assert (Hpos : 0 < i).
  { destruct i; [ | lia ]. simpl in Hcond.
    destruct b; simpl in Hcond; discriminate. }
  replace (0 <? i)%nat with true by (symmetry; apply Nat.ltb_lt; lia).
  replace (i <? String.length b - 1)%nat with true by (symmetry; apply Nat.ltb_lt; lia).
  split; [ done | ]. split; [ done | lia ].
Qed.

(** The name of the lock sibling carries the extension of the file. *)
Lemma lock_name_extension stem ext :
  ext = ".json" \/ ext = ".yml" \/ ext = ".yaml" ->
  rfind "/" stem = None ->
  rfind "/" (stem +:+ ".lock" +:+ ext) = None
  /\ (os_path.splitext (stem +:+ ".lock" +:+ ext)).2 = ext.
Proof.
  intros Hext Hstem.
  assert (Hsep : rfind "/" (stem +:+ ".lock" +:+ ext) = None).
  { rewrite !rfind_app, Hstem. by destruct Hext as [ -> | [ -> | -> ] ]. }
  split; [ done | ].
  rewrite splitext_ext, Hsep, <- append_assoc, rfind_app.
  assert (Hdot : rfind "." ext = Some 0) by (by destruct Hext as [ -> | [ -> | -> ] ]).
  rewrite Hdot, Nat.add_0_r, Nat.sub_0_r, substring_0_app, all_chars_app.
  replace (all_chars "." ".lock") with false by done.
  rewrite andb_false_r. simpl.
  rewrite <- (Nat.add_0_r (String.length (stem +:+ ".lock"))).
  rewrite slice_from_app by lia.
  by destruct Hext as [ -> | [ -> | -> ] ].
Qed.

Lemma split_on_nonempty sep s : split_on sep s <> [].
Proof.
  destruct s as [ | a rest ]; simpl; [ done | ].
  destruct (Ascii.eqb a sep); [ done | ]. by destruct (split_on sep rest).
Qed.

Lemma concat_split s : String.concat "/" (split_on "/" s) = s.
Proof.
  induction s as [ | a rest IH ]; [ done | ]. simpl.
  destruct (Ascii.eqb_spec a "/") as [-> | _].
  - pose proof (split_on_nonempty "/" rest) as Hne.
    destruct (split_on "/" rest) as [ | w ws ]; [ done | ].
    change (String.concat "/" ("" :: w :: ws)) with ("" +:+ "/" +:+ String.concat "/" (w :: ws)).
    by rewrite IH.
  - pose proof (split_on_nonempty "/" rest) as Hne.
    destruct (split_on "/" rest) as [ | w ws ]; [ done | ].
    destruct ws as [ | w' ws ].
    + simpl in IH |- *. by rewrite IH.
    + change (String.concat "/" (String a w :: w' :: ws))
        with (String a w +:+ "/" +:+ String.concat "/" (w' :: ws)).
      change (String.concat "/" (w :: w' :: ws))
        with (w +:+ "/" +:+ String.concat "/" (w' :: ws)) in IH.
      by rewrite append_cons, IH.
Qed.

Lemma split_on_no_sep s : Forall (fun w => rfind "/" w = None) (split_on "/" s).
Proof.
  induction s as [ | a rest IH ]; simpl; [ by repeat constructor | ].
  destruct (Ascii.eqb a "/") eqn:Ha; [ by constructor | ].
  destruct (split_on "/" rest) as [ | w ws ].
  { constructor; [ | constructor ]. by rewrite rfind_cons, Ha. }
  apply Forall_cons in IH as [Hw Hws]. constructor; [ | done ].
  by rewrite rfind_cons, Hw, Ha.
Qed.

Lemma concat_snoc sep init x :
  String.concat sep (init ++ [x])
  = match init with [] => "" | _ => String.concat sep init +:+ sep end +:+ x.
Proof.
  induction init as [ | h t IH ]; [ done | ].
  destruct t as [ | h' t ].
  - simpl. by rewrite append_assoc.
  - change (String.concat sep ((h :: h' :: t) ++ [x]))
      with (h +:+ sep +:+ String.concat sep ((h' :: t) ++ [x])).
    rewrite IH.
    change (String.concat sep (h :: h' :: t))
      with (h +:+ sep +:+ String.concat sep (h' :: t)).
    by rewrite !append_assoc.
Qed.

(** A path is a directory prefix followed by its last component. *)
Lemma concat_last (comps : list string) :
  comps <> [] ->
  exists X, String.concat "/" comps = X +:+ List.last comps ""
            /\ (X = "" \/ exists X', X = X' +:+ "/").
Proof.
  intros Hne.
  assert (Hsplit : String.concat "/" comps
                   = String.concat "/" (removelast comps ++ [List.last comps ""]))
    by (by rewrite <- app_removelast_last).
  rewrite Hsplit, concat_snoc. eexists. split; [ done | ].
  destruct (removelast comps); [ by left | right; eauto ].
Qed.

Lemma to_string_parts p :
  pathlib.parts p <> [] ->
  pathlib.to_string p = pathlib.root p +:+ String.concat "/" (pathlib.parts p).
Proof.
  unfold pathlib.to_string. destruct (pathlib.parts p); [ done | ].
  by destruct (pathlib.root p).
Qed.

Lemma basename_app X b :
  X = "" \/ (exists X', X = X' +:+ "/") ->
  rfind "/" b = None ->
  slice_from (match rfind "/" (X +:+ b) with None => 0 | Some sepIndex => S sepIndex end)
             (X +:+ b) = b.
Proof.
  intros HX Hb. rewrite (filename_index_app X b HX Hb).
  rewrite <- (Nat.add_0_r (String.length X)), slice_from_app by lia.
  unfold slice_from. by rewrite Nat.sub_0_r, substring_0_length.
Qed.

(** X20: for a file with a known extension, [get_lockfile] gives a
    name with the same extension, so the lock sibling is read by the same
    parser, and a name other than the file's own. *)
Theorem X20_lock_sibling_keeps_the_extension self file :
  recognized_extension file = true ->
  exists lockfile,
    get_lockfile self (Some file) = Ok lockfile
    /\ (os_path.splitext lockfile).2 = (os_path.splitext file).2
    /\ recognized_extension lockfile = true
    /\ lockfile <> file.
Proof.
  intros Hext. exists (lock_sibling file). split.
  { unfold get_lockfile. by rewrite (recognized_extension_nonempty _ Hext). }
  pose proof (split_on_nonempty "/" file) as Hne.
  pose proof (split_on_no_sep file) as Hcomps.
  destruct (concat_last _ Hne) as (X & Hfile & HX). rewrite concat_split in Hfile.
  set (base := List.last (split_on "/" file) "") in *.
  assert (Hbase : rfind "/" base = None).
  { rewrite Forall_forall in Hcomps. apply Hcomps.
    apply list_elem_of_In.
    assert (Hsplit : split_on "/" file = removelast (split_on "/" file) ++ [base])
      by (by apply app_removelast_last).
    rewrite Hsplit. apply in_or_app. right. by left. }
  assert (Hsame : (os_path.splitext file).2 = (os_path.splitext base).2)
    by (rewrite Hfile at 1; by apply splitext_prefix).
  assert (Hbase_ext : recognized_extension base = true)
    by (unfold recognized_extension in Hext |- *; by rewrite <- Hsame).
  destruct (suffix_is_extension base Hbase Hbase_ext) as (i & Hindex & Hsuffix & Hle).
  assert (Hkeep : negb ((base =? "") || (base =? ".")) = true).
  { destruct (String.eqb_spec base "") as [Heq | _];
      [ rewrite Heq in Hindex; discriminate | ].
    destruct (String.eqb_spec base ".") as [Heq | _];
      [ rewrite Heq in Hindex; discriminate | ].
    done. }
  (* the path object *)
  assert (Hparts : pathlib.parts (pathlib.of_string file)
                   = List.filter (fun c => negb ((c =? "") || (c =? ".")))
                                 (removelast (split_on "/" file)) ++ [base]).
  { unfold pathlib.of_string. cbn [pathlib.parts].
    assert (Hsplit : split_on "/" file = removelast (split_on "/" file) ++ [base])
      by (by apply app_removelast_last).
    rewrite Hsplit at 1. rewrite List.filter_app. cbn [List.filter].
    by rewrite Hkeep. }
  set (init := List.filter (fun c => negb ((c =? "") || (c =? ".")))
                           (removelast (split_on "/" file))) in *.
  assert (Hname : pathlib.name (pathlib.of_string file) = base)
    by (unfold pathlib.name; rewrite Hparts; apply last_last).
  assert (Hsibling : lock_sibling file
                     = pathlib.root (pathlib.of_string file)
                       +:+ String.concat "/"
                             (init ++ [slice_to i base +:+ ".lock" +:+ slice_from i base])).
  { unfold lock_sibling. rewrite to_string_parts.
    - unfold pathlib.joinpath, pathlib.parent, pathlib.stem, pathlib.suffix.
      cbn [pathlib.root pathlib.parts]. rewrite Hname, Hindex, Hparts.
      by rewrite removelast_last.
    - unfold pathlib.joinpath. cbn [pathlib.parts]. intros Hnil.
      apply app_eq_nil in Hnil as [_ Hnil]. discriminate. }
  assert (Hstem : rfind "/" (slice_to i base) = None).
  { pose proof (slice_to_from i base Hle) as Hcut. rewrite <- Hcut in Hbase.
    rewrite rfind_app in Hbase. by destruct (rfind "/" (slice_from i base)). }
  pose proof (recognized_extension_cases base Hbase_ext) as Hcases.
  rewrite <- Hsuffix in Hcases.
  destruct (lock_name_extension (slice_to i base) (slice_from i base) Hcases Hstem)
    as [Hchild Hchild_ext].
  set (child := slice_to i base +:+ ".lock" +:+ slice_from i base) in *.
  assert (Hdir : exists Y, lock_sibling file = Y +:+ child
                           /\ (Y = "" \/ exists Y', Y = Y' +:+ "/")).
  { rewrite Hsibling, concat_snoc.
    set (R := pathlib.root (pathlib.of_string file)).
    assert (HR : R = "" \/ R = "/" \/ R = "//").
    { unfold R, pathlib.of_string. cbn [pathlib.root].
      destruct (startswith "/" file); [ | auto ].
      destruct (startswith "//" file && negb (startswith "///" file)); auto. }
    destruct init as [ | h t ].
    - exists R. rewrite append_nil_l. split; [ done | ].
      destruct HR as [ -> | [ -> | -> ] ]; [ by left | right; by exists "" | right; by exists "/" ].
    - exists (R +:+ String.concat "/" (h :: t) +:+ "/").
      rewrite !append_assoc. split; [ done | ]. right.
      exists (R +:+ String.concat "/" (h :: t)). by rewrite append_assoc. }
  destruct Hdir as (Y & Hlock & HY).
  assert (Hlock_ext : (os_path.splitext (lock_sibling file)).2 = (os_path.splitext file).2).
  { rewrite Hlock, (splitext_prefix Y child HY Hchild), Hchild_ext, Hsuffix. done. }
  split; [ done | ]. split.
  - unfold recognized_extension in Hext |- *. by rewrite Hlock_ext.
  - intros Heq.
    pose proof (basename_app Y child HY Hchild) as Hb1. rewrite <- Hlock, Heq in Hb1.
    pose proof (basename_app X base HX Hbase) as Hb2. rewrite <- Hfile in Hb2.
    rewrite Hb2 in Hb1.
    apply (f_equal String.length) in Hb1. unfold child in Hb1.
    rewrite <- (slice_to_from i base Hle) in Hb1 at 1.
    rewrite !length_append in Hb1. simpl in Hb1. lia.
Qed.

(** ** The merger on the store: what the new mapping holds *)

Lemma heap_is_Mapping_closed h ext r :
  (forall l, r = Heap.RObj l -> l < length h) ->
  Heap.is_Mapping (h ++ ext) r = Heap.is_Mapping h r.
Proof.
  destruct r as [ | | | | l ]; try done. intros Hl. simpl.
  by rewrite lookup_app_l by (by apply Hl).
Qed.

Lemma heap_reify_closed depth h r l :
  is_Some (Heap.reify depth h r) -> r = Heap.RObj l -> l < length h.
Proof.
  intros [v Hv] ->. destruct depth as [ | depth ]; [ discriminate | ]. simpl in Hv.
  destruct (h !! l) eqn:E; [ | discriminate ]. by eapply lookup_lt_Some.
Qed.

(** An assignment to the dict at [new], allocated after [h]. *)
Lemma heap_setitem_at h ext new key r cur :
  length h <= new ->
  (h ++ ext) !! new = Some (Heap.ODict cur) ->
  exists ext', Heap.setitem (h ++ ext) new key r = h ++ ext'
               /\ (h ++ ext') !! new = Some (Heap.ODict (dict_set key r cur)).
Proof.
  intros Hnew Hcur. unfold Heap.setitem. rewrite Hcur.
  exists (<[new - length h := Heap.ODict (dict_set key r cur)]> ext).
  rewrite <- insert_app_r_alt by done. split; [ done | ].
  apply list_lookup_insert_eq. by eapply lookup_lt_Some.
Qed.

Section heap_sharing.

Variable depth : nat.
Variable recurse : Heap.heap -> Heap.ref -> Heap.ref -> result (Heap.heap * Heap.ref).
Hypothesis Hrecurse : heap_merge_adds depth recurse.

Variable h : Heap.heap.
Variables new lu : Heap.loc.
Variables d u : list (string * Heap.ref).
Hypothesis Hnew : length h <= new.
Hypothesis Hlu : h !! lu = Some (Heap.ODict u).
Hypothesis Hfinite : is_Some (Heap.reify (S depth) h (Heap.RObj lu)).
Hypothesis Hclosed : forall key l, dict_get key d = Some (Heap.RObj l) -> l < length h.

Lemma heap_merge_keys_shares updkeys : forall ext cur,
  NoDup updkeys ->
  (forall key, key ∈ updkeys -> key ∈ dict_keys u) ->
  (h ++ ext) !! new = Some (Heap.ODict cur) ->
  (forall key, key ∈ updkeys -> dict_get key cur = dict_get key d) ->
  exists ext' cur',
    Heap.merge_keys recurse new lu updkeys (h ++ ext) = Ok (h ++ ext')
    /\ (h ++ ext') !! new = Some (Heap.ODict cur')
    /\ (forall key, key ∉ updkeys -> dict_get key cur' = dict_get key cur)
    /\ (forall key val,
          key ∈ updkeys -> dict_get key u = Some val ->
          Heap.is_Mapping h (default Heap.RNone (dict_get key d))
            && Heap.is_Mapping h val = false ->
          dict_get key cur' = Some val).
Proof.
  induction updkeys as [ | key rest IH ]; intros ext cur Hnd Hkeys Hcur Hsame.
  { exists ext, cur. split; [ done | ]. split; [ done | ]. split; [ done | ].
    intros key val Hin. by apply not_elem_of_nil in Hin. }
  apply NoDup_cons in Hnd as [Hfresh Hnd]. cbn [Heap.merge_keys].
  rewrite (heap_getitem_app _ _ _ _ _ Hlu).
  destruct (dict_get key u) as [ val | ] eqn:Hget.
  2: { exfalso. apply dict_get_None in Hget. apply Hget, Hkeys, elem_of_cons. auto. }
  assert (Hrest : forall k, k ∈ rest -> k ∈ dict_keys u)
    by (intros k Hk; apply Hkeys, elem_of_cons; auto).
  assert (Hval : is_Some (Heap.reify depth h val))
    by (by eapply heap_reify_entries).
  assert (Hitem : Heap.getitem (h ++ ext) new key = dict_get key d).
  { unfold Heap.getitem. rewrite Hcur. apply Hsame, elem_of_cons. auto. }
  rewrite Hitem.
  assert (Htest : Heap.is_Mapping (h ++ ext) (default Heap.RNone (dict_get key d))
                    && Heap.is_Mapping (h ++ ext) val
                  = Heap.is_Mapping h (default Heap.RNone (dict_get key d))
                      && Heap.is_Mapping h val).
  { f_equal; apply heap_is_Mapping_closed.
    - intros l Hl. destruct (dict_get key d) as [ r | ] eqn:Hd; [ | discriminate ].
      simpl in Hl. subst r. by eapply Hclosed.
    - intros l. by apply (heap_reify_closed depth). }
  rewrite Htest.
  assert (Hnext : forall ext1 x,
             (h ++ ext1) !! new = Some (Heap.ODict (dict_set key x cur)) ->
             exists ext' cur',
               Heap.merge_keys recurse new lu rest (h ++ ext1) = Ok (h ++ ext')
               /\ (h ++ ext') !! new = Some (Heap.ODict cur')
               /\ (forall k, k ∉ key :: rest -> dict_get k cur' = dict_get k cur)
               /\ (forall k v, k ∈ rest -> dict_get k u = Some v ->
                     Heap.is_Mapping h (default Heap.RNone (dict_get k d))
                       && Heap.is_Mapping h v = false ->
                     dict_get k cur' = Some v)
               /\ dict_get key cur' = Some x).
  { intros ext1 x Hstored.
    destruct (IH ext1 (dict_set key x cur) Hnd Hrest Hstored)
      as (ext' & cur' & Hrun & Hcur' & Hout & Hin).
    { intros k Hk. rewrite dict_get_set_ne; [ | intros ->; done ].
      apply Hsame, elem_of_cons. auto. }
    exists ext', cur'. split; [ done | ]. split; [ done | ]. split; [ | split; [ done | ] ].
    - intros k Hk. apply not_elem_of_cons in Hk as [Hne Hk].
      rewrite (Hout k Hk). by apply dict_get_set_ne.
    - rewrite (Hout key Hfresh). apply dict_get_set_eq. }
  destruct (Heap.is_Mapping h (default Heap.RNone (dict_get key d))
            && Heap.is_Mapping h val) eqn:Hboth.
  - apply andb_prop in Hboth as [Hsub Hmap].
    destruct (Hrecurse (h ++ ext) (default Heap.RNone (dict_get key d)) val)
      as (ext2 & -> & _).
    { by apply heap_is_Mapping_app. }
    { by apply heap_is_Mapping_app. }
    { destruct Hval as [v Hv]. exists v. by apply heap_reify_app. }
    rewrite bind_Ok. rewrite <- app_assoc.
    destruct (heap_setitem_at h (ext ++ ext2) new key (Heap.RObj (length (h ++ ext))) cur Hnew)
      as (ext3 & -> & Hstored).
    { rewrite app_assoc. by apply lookup_app_l_Some. }
    destruct (Hnext ext3 _ Hstored) as (ext' & cur' & Hrun & Hcur' & Hout & Hin & _).
    exists ext', cur'. split; [ done | ]. split; [ done | ]. split; [ done | ].
    intros k v Hk Hv Hnot. apply elem_of_cons in Hk as [-> | Hk]; [ | by eapply Hin ].
    rewrite Hget in Hv. injection Hv as <-. rewrite Hsub, Hmap in Hnot. discriminate.
  - destruct (heap_setitem_at h ext new key val cur Hnew Hcur) as (ext3 & -> & Hstored).
    destruct (Hnext ext3 _ Hstored) as (ext' & cur' & Hrun & Hcur' & Hout & Hin & Hkey).
    exists ext', cur'. split; [ done | ]. split; [ done | ]. split; [ done | ].
    intros k v Hk Hv Hnot. apply elem_of_cons in Hk as [-> | Hk]; [ | by eapply Hin ].
    congruence.
Qed.

Lemma heap_update_keys_shares keys : forall ext cur,
  NoDup keys ->
  (forall key, key ∈ keys -> key ∈ dict_keys u) ->
  (h ++ ext) !! new = Some (Heap.ODict cur) ->
  exists ext' cur',
    Heap.update_keys new lu keys (h ++ ext) = Ok (h ++ ext')
    /\ (h ++ ext') !! new = Some (Heap.ODict cur')
    /\ (forall key, key ∉ keys -> dict_get key cur' = dict_get key cur)
    /\ (forall key val, key ∈ keys -> dict_get key u = Some val ->
                        dict_get key cur' = Some val).
Proof using Hnew Hlu.
  induction keys as [ | key rest IH ]; intros ext cur Hnd Hkeys Hcur.
  { exists ext, cur. split; [ done | ]. split; [ done | ]. split; [ done | ].
    intros key val Hin. by apply not_elem_of_nil in Hin. }
  apply NoDup_cons in Hnd as [Hfresh Hnd]. cbn [Heap.update_keys].
  rewrite (heap_getitem_app _ _ _ _ _ Hlu).
  destruct (dict_get key u) as [ val | ] eqn:Hget.
  2: { exfalso. apply dict_get_None in Hget. apply Hget, Hkeys, elem_of_cons. auto. }
  destruct (heap_setitem_at h ext new key val cur Hnew Hcur) as (ext3 & -> & Hstored).
  destruct (IH ext3 (dict_set key val cur) Hnd)
    as (ext' & cur' & Hrun & Hcur' & Hout & Hin);
    [ intros k Hk; apply Hkeys, elem_of_cons; auto | exact Hstored | ].
  exists ext', cur'. split; [ done | ]. split; [ done | ]. split.
  - intros k Hk. apply not_elem_of_cons in Hk as [Hne Hk].
    rewrite (Hout k Hk). by apply dict_get_set_ne.
  - intros k v Hk Hv. apply elem_of_cons in Hk as [-> | Hk]; [ | by eapply Hin ].
    rewrite (Hout key Hfresh), dict_get_set_eq. congruence.
Qed.

End heap_sharing.

(** X21: the mapping the merger returns is a new object that holds
    references, not copies: under a key of [upd] whose value is not
    merged recursively it holds the very value [upd] holds, and under a
    key that only [dest] has the very value [dest] holds. *)
Theorem X21_merged_mapping_shares_its_values depth h ld lu d u :
  h !! ld = Some (Heap.ODict d) ->
  h !! lu = Some (Heap.ODict u) ->
  NoDup (dict_keys u) ->
  is_Some (Heap.reify (S depth) h (Heap.RObj lu)) ->
  (forall key l, dict_get key d = Some (Heap.RObj l) -> l < length h) ->
  exists new_objects merged,
    Heap._internal_dict_merge (S depth) h (Heap.RObj ld) (Heap.RObj lu)
      = Ok (h ++ new_objects, Heap.RObj (length h))
    /\ (h ++ new_objects) !! length h = Some (Heap.ODict merged)
    /\ (forall key val,
          dict_get key u = Some val ->
          Heap.is_Mapping h (default Heap.RNone (dict_get key d))
            && Heap.is_Mapping h val = false ->
          dict_get key merged = Some val)
    /\ (forall key, key ∉ dict_keys u -> dict_get key merged = dict_get key d).
Proof.
  intros Hld Hlu Hnd Hfinite Hclosed.
  cbn [Heap._internal_dict_merge]. unfold Heap.merge_body. rewrite Hld, Hlu.
  cbn [Heap.copy_dict].
  assert (Hcopy : (h ++ [Heap.ODict d]) !! length h = Some (Heap.ODict d)).
  { by rewrite lookup_app_r, Nat.sub_diag by done. }
  destruct (keys_intersect d u).
  - destruct (heap_merge_keys_shares depth _ (heap_merge_adds_objects depth)
                h (length h) lu d u (le_n _) Hlu Hfinite Hclosed
                (dict_keys u) [Heap.ODict d] d Hnd (fun _ H => H) Hcopy (fun _ _ => eq_refl))
      as (ext & merged & -> & Hmerged & Hout & Hin).
    rewrite bind_Ok. exists ext, merged. split; [ done | ]. split; [ done | ].
    split; [ | done ]. intros key val Hget. apply Hin; [ | done ].
    by eapply dict_get_Some_key.
  - destruct (heap_update_keys_shares h (length h) lu u (le_n _) Hlu
                (dict_keys u) [Heap.ODict d] d Hnd (fun _ H => H) Hcopy)
      as (ext & merged & -> & Hmerged & Hout & Hin).
    rewrite bind_Ok. exists ext, merged. split; [ done | ]. split; [ done | ].
    split; [ | done ]. intros key val Hget _. apply Hin; [ | done ].
    by eapply dict_get_Some_key.
Qed.

(** X22: the two embeddings of [_internal_dict_merge] agree, and the
    arguments read as before: on a store whose dicts hold every key
    once, merging two bodies that read as the trees [d] and [u] returns a
    new mapping that reads as the merge of [d] and [u], while the two
    bodies still read as [d] and [u]. *)
Theorem X22_store_merge_computes_tree_merge depth h dest upd d u :
  heap_unique_keys h ->
  Heap.reify depth h dest = Some (VDict d) ->
  Heap.reify depth h upd = Some (VDict u) ->
  exists new_objects merged,
    Heap._internal_dict_merge depth h dest upd
      = Ok (h ++ new_objects, Heap.RObj (length h))
    /\ _internal_dict_merge (VDict d) (VDict u) = Ok (VDict merged)
    /\ Heap.reify depth (h ++ new_objects) (Heap.RObj (length h)) = Some (VDict merged)
    /\ Heap.reify depth (h ++ new_objects) dest = Some (VDict d)
    /\ Heap.reify depth (h ++ new_objects) upd = Some (VDict u).
Proof.
  intros Hunique Hd Hu.
  destruct (heap_merge_refines depth h dest upd d u Hunique Hd Hu)
    as (new_objects & merged & Hstore & Htree & Hreads).
  exists new_objects, merged.
  split; [ exact Hstore | ]. split; [ exact Htree | ]. split; [ exact Hreads | ].
  split; by apply heap_reify_app.
Qed.

Section resolved_documents.

Variable sys : filesystem.
Variable repos : gmap string string.

Lemma loop_outcome_loaded recurse current repo_path ie self includes cfgs reps self' :
  (forall self file repo_path il ie c m s,
      recurse self file repo_path il ie = Ok (c, m, s) ->
      Forall (fun d => ConfigFile_init sys (filename d) (is_lockfile d) (is_external d)
                       = Ok d) c) ->
  loop_outcome sys repos recurse current repo_path ie self includes cfgs reps self' ->
  Forall (fun d => ConfigFile_init sys (filename d) (is_lockfile d) (is_external d) = Ok d)
         cfgs.
Proof.
  intros Hrec Hloop. induction Hloop as [ | ? ? ? ? ? ? ? ? ? Hone _ IH ]; [ constructor | ].
  apply Forall_app. split; [ | exact IH ].
  destruct Hone; eauto.
Qed.

Lemma visit_loaded fuel self file repo_path il ie configs missing self' :
  _internal_include_handler sys repos fuel self file repo_path il ie
    = Ok (configs, missing, self') ->
  Forall (fun d => ConfigFile_init sys (filename d) (is_lockfile d) (is_external d) = Ok d)
         configs.
Proof.
  apply (visit_ind sys repos
           (fun _ _ _ _ _ c _ _ =>
              Forall (fun d => ConfigFile_init sys (filename d) (is_lockfile d)
                                               (is_external d) = Ok d) c)).
  clear. intros recurse Hrec self file repo_path il ie c m s Hbody.
  apply handler_body_outcome in Hbody
    as (current & lock_cfgs & lock_reps & self1 & includes & cfgs & reps
        & Hinit & Hlock & _ & Hloop & -> & _).
  rewrite !Forall_app. split; [ | split ].
  - destruct (use_lock self && path_exists sys (lock_sibling file)).
    + by eapply Hrec.
    + injection Hlock as <- _ _. constructor.
  - by eapply loop_outcome_loaded.
  - apply ConfigFile_init_Ok in Hinit as Hfacts.
    destruct Hfacts as (Hfile & Hil & Hie & _). unfold filename_of in Hfile.
    repeat constructor. by rewrite Hfile, Hil, Hie.
Qed.

(** X24: every document [get_config] has resolved is what loading its
    own file gives: resolving neither alters a body nor makes one up. *)
Theorem X24_resolved_documents_are_loaded_files fuel self configs missing self' :
  resolve sys repos fuel self = Ok (configs, missing, self') ->
  Forall (fun d => ConfigFile_init sys (filename d) (is_lockfile d) (is_external d) = Ok d)
         configs.
Proof.
  unfold resolve. intros Hloop.
  apply top_files_loop_blocks in Hloop as (blocks & Hblocks & Heq).
  simpl in Heq. subst configs.
  apply Forall_concat. clear -Hblocks.
  induction Hblocks as [ | file block files blocks (self0 & reps & self1 & Hvisit) _ IH ];
    constructor; [ | exact IH ].
  by eapply visit_loaded.
Qed.

End resolved_documents.

(** ** Without lock files *)

Section without_lock.

Variable sys : filesystem.
Variable repos : gmap string string.

Lemma loop_outcome_no_lock recurse current repo_path ie self includes cfgs reps self' :
  (forall self file repo_path ie c m s,
      use_lock self = false ->
      recurse self file repo_path false ie = Ok (c, m, s) ->
      Forall (fun d => is_lockfile d = false) c /\ use_lock s = false) ->
  use_lock self = false ->
  loop_outcome sys repos recurse current repo_path ie self includes cfgs reps self' ->
  Forall (fun d => is_lockfile d = false) cfgs /\ use_lock self' = false.
Proof.
  intros Hrec Hoff Hloop.
  induction Hloop as [ | self include rest cfg rep self1 cfgs reps self' Hone _ IH ];
    [ by split | ].
  assert (H1 : Forall (fun d => is_lockfile d = false) cfg /\ use_lock self1 = false)
    by (destruct Hone; eauto).
  destruct H1 as [Hcfg Hoff1]. destruct (IH Hoff1) as [Hcfgs Hoff'].
  split; [ apply Forall_app; auto | done ].
Qed.

Lemma visit_no_lock_documents fuel self file repo_path ie configs missing self' :
  use_lock self = false ->
  _internal_include_handler sys repos fuel self file repo_path false ie
    = Ok (configs, missing, self') ->
  Forall (fun d => is_lockfile d = false) configs /\ use_lock self' = false.
Proof.
  intros Hoff Hvisit.
  refine (visit_ind sys repos
            (fun self _ _ il _ c _ s =>
               use_lock self = false -> il = false ->
               Forall (fun d => is_lockfile d = false) c /\ use_lock s = false)
            _ fuel _ _ _ _ _ _ _ _ Hvisit Hoff eq_refl).
  clear. intros recurse Hrec self file repo_path il ie c m s Hbody Hoff ->.
  apply handler_body_outcome in Hbody
    as (current & lock_cfgs & lock_reps & self1 & includes & cfgs & reps
        & Hinit & Hlock & _ & Hloop & -> & _).
  rewrite Hoff in Hlock. cbn [andb] in Hlock. injection Hlock as <- _ <-.
  apply loop_outcome_no_lock in Hloop as [Hcfgs Hoff'].
  - split; [ | done ]. rewrite app_nil_l. apply Forall_app. split; [ done | ].
    apply ConfigFile_init_Ok in Hinit as (_ & Hil & _). by repeat constructor.
  - intros self0 file0 rp0 ie0 c0 m0 s0 Hoff0 Hcall. by eapply Hrec.
  - by destruct (truthy (src_dir current)).
Qed.

(** X25: a handler built with [use_lock=False] resolves no lock
    document: none of the documents [get_config] collects is marked
    [is_lockfile], whatever lock files exist next to the files it
    reads. *)
Theorem X25_no_lock_documents_without_use_lock fuel self configs missing self' :
  use_lock self = false ->
  resolve sys repos fuel self = Ok (configs, missing, self') ->
  Forall (fun d => is_lockfile d = false) configs.
Proof.
  unfold resolve. intros Hoff.
  assert (Hloop : forall files handler cs ms,
             use_lock handler = false ->
             Forall (fun d => is_lockfile d = false) cs ->
             top_files_loop sys repos fuel files handler cs ms
               = Ok (configs, missing, self') ->
             Forall (fun d => is_lockfile d = false) configs).
  { induction files as [ | file rest IH ]; intros handler cs ms Hhandler Hcs;
      cbn [top_files_loop].
    - by intros [= <- _ _].
    - intros H. apply bind_Ok_inv in H as ([[cfgs reps] self1] & Hvisit & H).
      apply visit_no_lock_documents in Hvisit as [Hcfgs Hoff1]; [ | done ].
      eapply IH; [ exact Hoff1 | | exact H ]. apply Forall_app. auto. }
  apply Hloop; [ done | constructor ].
Qed.

End without_lock.

(** ** A file that is not there *)

Lemma not_reported_bind {A B} (r : result A) (k : A -> result B) :
  not_reported_missing r -> (forall a, not_reported_missing (k a)) ->
  not_reported_missing (x ← r; k x).
Proof.
  intros Hr Hk e H. apply bind_Raise_inv in H as [H | (a & _ & H)].
  - by apply Hr.
  - by apply (Hk a).
Qed.

Ltac not_reported_by_cases :=
  let e := fresh "e" in
  intros e; repeat case_match; try discriminate; by intros [= <-].

Lemma not_reported_method_get v key default :
  not_reported_missing (method_get v key default).
Proof. unfold method_get. not_reported_by_cases. Qed.

Lemma not_reported_subscript v key : not_reported_missing (subscript v key).
Proof. unfold subscript. not_reported_by_cases. Qed.

Lemma not_reported_fspath v : not_reported_missing (fspath v).
Proof. unfold fspath. not_reported_by_cases. Qed.

Lemma not_reported_header_includes body : not_reported_missing (header_includes body).
Proof.
  unfold header_includes.
  apply not_reported_bind; [ apply not_reported_method_get | intros header ].
  apply not_reported_bind; [ apply not_reported_method_get | intros includes ].
  unfold iter_value. not_reported_by_cases.
Qed.

Section not_found.

Variable sys : filesystem.
Variable repos : gmap string string.

(** [ConfigFile(...)] does raise [FileNotFoundError], but never the
    [LoadConfigException] for a missing file. *)
Lemma ConfigFile_init_not_reported file il ie why name :
  ConfigFile_init sys file il ie = Raise (LoadConfigException why name) ->
  why <> ConfigurationFileNotFound.
Proof.
  unfold ConfigFile_init. intros H.
  apply bind_Raise_inv in H as [H | ([body sd] & _ & H)]; [ | discriminate ].
  revert H. unfold _load_config.
  destruct (_ || _); [ | by intros [= <- _] ].
  destruct (stat sys file) as [ | | [ | [ | body ] ] ]; try discriminate.
  destruct (negb (schema_valid body)); [ by intros [= <- _] | ].
  intros H. apply bind_Raise_inv in H as [H | (n & _ & H)].
  { unfold version_value in H.
    apply bind_Raise_inv in H as [H | (header & _ & H)];
      [ by apply not_reported_subscript in H; destruct why | ].
    apply bind_Raise_inv in H as [H | (version & _ & H)];
      [ by apply not_reported_subscript in H; destruct why | ].
    revert H. unfold py_int. repeat case_match; discriminate. }
  destruct (_ || _); [ by injection H as <- _ | ].
  apply bind_Raise_inv in H as [H | (proxy & _ & H)];
    [ by apply not_reported_method_get in H; destruct why | ].
  apply bind_Raise_inv in H as [H | (src & _ & H)];
    [ by apply not_reported_method_get in H; destruct why | discriminate ].
Qed.

Lemma not_reported_include_loop recurse current repo_path ie includes :
  (forall self file repo_path il ie,
      not_reported_missing (recurse self file repo_path il ie)) ->
  forall self configs missing,
    not_reported_missing
      (include_loop sys repos recurse current repo_path ie includes self configs missing).
Proof.
  intros Hrec. induction includes as [ | include rest IH ]; intros self configs missing;
    cbn [include_loop]; [ by intros e | ].
  apply not_reported_bind; [ | by intros [[c m] s] ].
  unfold include_step. destruct include as [ | | | inc | | inc ]; try by intros e.
  - apply not_reported_bind; [ | intros includefile ].
    + unfold local_includefile. destruct (startswith _ _); [ by intros e | ].
      apply not_reported_bind; [ apply not_reported_fspath | intros root ].
      intros e. repeat case_match; discriminate.
    + apply not_reported_bind; [ apply Hrec | by intros [[c m] s] e ].
  - apply not_reported_bind; [ | intros includedir ].
    + unfold repos_get. not_reported_by_cases.
    + destruct includedir as [ includedir | ]; [ | by intros e ].
      destruct (dict_get "file" inc) as [ includefile | ]; [ | by intros e [= <-] ].
      apply not_reported_bind; [ apply not_reported_fspath | intros f ].
      apply not_reported_bind; [ apply Hrec | by intros [[c m] s] e ].
Qed.

Lemma not_reported_visit fuel : forall self file repo_path il ie,
  not_reported_missing
    (_internal_include_handler sys repos fuel self file repo_path il ie).
Proof.
  induction fuel as [ | fuel IH ]; [ by intros ? ? ? ? ? e | ].
  intros self file repo_path il ie. cbn [_internal_include_handler].
  unfold handler_body.
  destruct (ConfigFile_init sys file il ie) as [ current | e0 | ] eqn:Hcurrent;
    [ | | by intros e ].
  2: { intros e H. destruct e0; try (by injection H as <-).
       injection H as <-. apply ConfigFile_init_not_reported in Hcurrent.
       by destruct why. }
  assert (Htry : not_reported_missing
                   (try_block sys (_internal_include_handler sys repos fuel)
                              self current file repo_path ie)).
  { unfold try_block. apply not_reported_bind.
    - unfold get_lockfile.
      apply not_reported_bind; [ not_reported_by_cases | by intros f e ].
    - intros lockfile. apply not_reported_bind.
      + destruct (_ && _); [ apply IH | by intros e ].
      + intros [[c m] s] e. by destruct (truthy _). }
  destruct (try_block _ _ _ _ _ _ _) as [ [[[c0 m0] s0] rp0] | e0 | ];
    [ | intros e H; pose proof (Htry e0 eq_refl) as Hnot;
        destruct e0; try discriminate; by injection H as <-
      | by intros e ].
  unfold after_try. destruct (negb _); [ by intros e [= <-] | ].
  apply not_reported_bind; [ apply not_reported_header_includes | intros includes ].
  apply not_reported_bind;
    [ by apply not_reported_include_loop | by intros [[c m] s] e ].
Qed.

(** X26: a visit never ends in [FileNotFoundError], and never in the
    ['Configuration file not found'] error: of the statements inside
    the [try] only [ConfigFile(...)] raises [FileNotFoundError], and
    then the handler itself fails on the unbound [current_config]. *)
Theorem X26_file_not_found_is_never_reported fuel self file repo_path il ie :
  _internal_include_handler sys repos fuel self file repo_path il ie
    <> Raise FileNotFoundError
  /\ forall name,
       _internal_include_handler sys repos fuel self file repo_path il ie
       <> Raise (LoadConfigException ConfigurationFileNotFound name).
Proof.
  pose proof (not_reported_visit fuel self file repo_path il ie) as Hvisit.
  split; [ | intros name ]; intros H; by apply Hvisit in H.
Qed.

End not_found.

End Kas.

(** ** The claims on the examples *)

(** C1: every visit returns the documents of its lock sibling (if one is
    visited), then, include by include in listed order, all the documents
    of the recursive visit of that include, and the visited document last;
    [get_config] strings the visits of its top files together in order.  In
    the scenario ([a.yml] includes the local [b.yml] and [c.yml] of
    repository [x]) this gives [[b, a]] and missing repos [["x"]] while [x]
    is unknown, and [[b, c, a]] with no missing repos once [x] is known. *)
Theorem C1_children_before_parent
        file_version compatible_file_version schema_valid int_of_str
        sys repos fuel self file repo_path il ie configs missing self' :
  let visit := _internal_include_handler file_version compatible_file_version
                                         schema_valid int_of_str sys repos in
  (visit (S fuel) self file repo_path il ie = Ok (configs, missing, self') ->
   exists current lock_block includes blocks repo_path',
     ConfigFile_init file_version compatible_file_version schema_valid int_of_str
                     sys file il ie
       = Ok current
     /\ (if use_lock self && path_exists sys (lock_sibling file)
         then exists rep self1,
                visit fuel self (lock_sibling file) repo_path true ie
                  = Ok (lock_block, rep, self1)
         else lock_block = [])
     /\ header_includes (config current) = Ok includes
     /\ Forall2 (include_block sys repos (visit fuel) current repo_path' ie)
                includes blocks
     /\ configs = lock_block ++ concat blocks ++ [current])
  /\ (resolve file_version compatible_file_version schema_valid int_of_str
               sys repos fuel self
        = Ok (configs, missing, self') ->
      exists blocks,
        Forall2 (fun file block =>
                   exists self0 reps self1,
                     visit fuel self0 file (top_repo_path self0) false false
                       = Ok (block, reps, self1))
                (top_files self) blocks
        /\ configs = concat blocks)
  /\ ((compatible_file_version <= 14 <= file_version)%Z ->
      schema_valid Scenario.a = true ->
      schema_valid Scenario.b = true ->
      schema_valid Scenario.c = true ->
      resolve file_version compatible_file_version schema_valid int_of_str
              Scenario.sys Scenario.no_repos (S (S fuel)) Scenario.handler
        = Ok ([Scenario.doc_b; Scenario.doc_a], [VStr "x"], Scenario.handler)
      /\ resolve file_version compatible_file_version schema_valid int_of_str
                 Scenario.sys Scenario.known_repos (S (S fuel)) Scenario.handler
         = Ok ([Scenario.doc_b; Scenario.doc_c; Scenario.doc_a], [], Scenario.handler)).
Proof.
  intros visit. split; [ | split ].
  - apply visit_children_before_parent.
  - unfold resolve. intros H. apply top_files_loop_blocks in H as (blocks & Hb & Hc).
    exists blocks. split; [ exact Hb | exact Hc ].
  - apply scenario_resolve.
Qed.

Lemma C1_witness :
  (exists blocks,
      Forall2 (fun file block =>
                 exists self0 reps self1,
                   _internal_include_handler 14 1 example_schema example_int Scenario.sys
                     Scenario.known_repos 2 self0 file (top_repo_path self0) false false
                   = Ok (block, reps, self1))
              ["a.yml"] blocks
      /\ [Scenario.doc_b; Scenario.doc_c; Scenario.doc_a] = concat blocks)
  /\ resolve 14 1 example_schema example_int Scenario.sys Scenario.no_repos 3 Scenario.handler
     = Ok ([Scenario.doc_b; Scenario.doc_a], [VStr "x"], Scenario.handler).
Proof.
  destruct (C1_children_before_parent 14 1 example_schema example_int Scenario.sys Scenario.known_repos
              1 Scenario.handler "a.yml" (VStr "/work") false false
              [Scenario.doc_b; Scenario.doc_c; Scenario.doc_a] [] Scenario.handler)
    as (Hvisit & _ & Hscenario).
  destruct (C1_children_before_parent 14 1 example_schema example_int Scenario.sys Scenario.known_repos
              2 Scenario.handler "a.yml" (VStr "/work") false false
              [Scenario.doc_b; Scenario.doc_c; Scenario.doc_a] [] Scenario.handler)
    as (_ & Hresolve & _).
  split.
  - apply Hresolve. vm_compute. reflexivity.
  - assert (Hv := Hvisit ltac:(vm_compute; reflexivity)).
    apply Hscenario; [ lia | reflexivity | reflexivity | reflexivity ].
Defined.

(** C4: a top file [/work/missing.yml] that does not exist.  The visit
    does not end in [LoadConfigException]: the [except FileNotFoundError]
    clause reads [current_config.filename] while [current_config] is
    unbound. *)
Theorem C4_missing_file_raises_UnboundLocalError :
  exists e,
    _internal_include_handler 14 1 example_schema example_int Scenario.sys Scenario.no_repos 1
                              Scenario.handler "/work/missing.yml" (VStr "/work")
                              false false = Raise e
    /\ e = UnboundLocalError "current_config"
    /\ is_LoadConfigError e = false
    /\ recognized_extension "/work/missing.yml" = true
    /\ stat Scenario.sys "/work/missing.yml" = NoEntry.
Proof. eexists. repeat split. Qed.

(** With [use_lock] on, [a.yml] brings in its lock sibling and the lock
    sibling of that one. *)
Example lock_chain_resolve :
  resolve 14 1 example_schema example_int LockChain.sys ∅ 3 LockChain.handler
  = Ok ([LockChain.doc "/work/a.lock.lock.yml" (LockChain.pins "BBB") true;
         LockChain.doc "/work/a.lock.yml" (LockChain.pins "AAA") true;
         LockChain.doc "/work/a.yml" LockChain.plain false],
        [], LockChain.handler).
Proof. vm_compute. reflexivity. Qed.

(** C5, as the specification words it, fails on [a.yml], [a.lock.yml] and
    [a.lock.lock.yml]: the visit of the lock document [a.lock.yml] brings in
    [a.lock.lock.yml]. *)
Lemma C5_counterexample : ~ lock_sibling_never_visited 14 1 example_schema example_int.
Proof.
  intros Hclaim.
  apply (Hclaim LockChain.sys ∅ 2 LockChain.handler "/work/a.lock.yml" (VStr "/work") false
           [LockChain.doc "/work/a.lock.lock.yml" (LockChain.pins "BBB") true;
            LockChain.doc "/work/a.lock.yml" (LockChain.pins "AAA") true]
           [] LockChain.handler);
    [ reflexivity | vm_compute; reflexivity | ].
  vm_compute. apply elem_of_cons. by left.
Qed.

Lemma C5_witness :
  exists cfg rep self1 rest doc,
    _internal_include_handler 14 1 example_schema example_int LockChain.sys ∅ 1 LockChain.handler
      (lock_sibling "/work/a.lock.yml") (VStr "/work") true false = Ok (cfg, rep, self1)
    /\ [LockChain.doc "/work/a.lock.lock.yml" (LockChain.pins "BBB") true;
        LockChain.doc "/work/a.lock.yml" (LockChain.pins "AAA") true] = cfg ++ rest
    /\ doc ∈ cfg /\ filename_of doc = lock_sibling "/work/a.lock.yml"
    /\ is_lockfile doc = true.
Proof.
  apply (C5_lock_sibling_of_lock_document 14 1 example_schema example_int LockChain.sys ∅ 1
           LockChain.handler "/work/a.lock.yml" (VStr "/work") false
           [LockChain.doc "/work/a.lock.lock.yml" (LockChain.pins "BBB") true;
            LockChain.doc "/work/a.lock.yml" (LockChain.pins "AAA") true]
           [] LockChain.handler);
    [ reflexivity | vm_compute; reflexivity | vm_compute; reflexivity ].
Defined.

Lemma C6_witness :
  _load_config 14 1 example_schema example_int Versions.sys "/work/current.yml"
  = Ok (Versions.versioned (VInt 14), VNone)
  /\ _load_config 14 1 example_schema example_int Versions.sys "/work/later.yml"
     = Raise (LoadConfigException (IncompatibleVersion 99) "/work/later.yml")
  /\ _load_config 14 1 example_schema example_int Versions.sys "/work/first.yml"
     = Ok (Versions.versioned (VStr "0.10"), VNone)
  /\ _load_config 14 2 example_schema example_int Versions.sys "/work/first.yml"
     = Raise (LoadConfigException (IncompatibleVersion 1) "/work/first.yml").
Proof.
  split; [ | split; [ | split ] ].
  - refine (proj2 (C6_version_window 14 1 example_schema example_int Versions.sys
                     "/work/current.yml"
                     [("header", VDict [("version", VInt 14)]);
                      ("machine", VStr "qemux86-64")]
                     [("version", VInt 14)] (VInt 14) 14 _ _ _ _ _ _) _);
      [ reflexivity | reflexivity | reflexivity | reflexivity | reflexivity
      | left; reflexivity | lia ].
  - refine (proj1 (C6_version_window 14 1 example_schema example_int Versions.sys
                     "/work/later.yml"
                     [("header", VDict [("version", VInt 99)]);
                      ("machine", VStr "qemux86-64")]
                     [("version", VInt 99)] (VInt 99) 99 _ _ _ _ _ _) _);
      [ reflexivity | reflexivity | reflexivity | reflexivity | reflexivity
      | left; reflexivity | lia ].
  - refine (proj2 (C6_version_window 14 1 example_schema example_int Versions.sys
                     "/work/first.yml"
                     [("header", VDict [("version", VStr "0.10")]);
                      ("machine", VStr "qemux86-64")]
                     [("version", VStr "0.10")] (VStr "0.10") 1 _ _ _ _ _ _) _);
      [ reflexivity | reflexivity | reflexivity | reflexivity | reflexivity
      | right; right; exists "0.10"; split; reflexivity | lia ].
  - refine (proj1 (C6_version_window 14 2 example_schema example_int Versions.sys
                     "/work/first.yml"
                     [("header", VDict [("version", VStr "0.10")]);
                      ("machine", VStr "qemux86-64")]
                     [("version", VStr "0.10")] (VStr "0.10") 1 _ _ _ _ _ _) _);
      [ reflexivity | reflexivity | reflexivity | reflexivity | reflexivity
      | right; right; exists "0.10"; split; reflexivity | lia ].
Defined.

(** An include [{repo: x}] without [file]: deferred while [x] is unknown,
    an error once [x] is known. *)
Example include_without_file_deferred :
  get_config 14 1 example_schema example_int Incomplete.sys ∅ 1 (Incomplete.handler ["/work/a.yml"])
  = Ok (Incomplete.a, [VStr "x"], Incomplete.handler ["/work/a.yml"])
  /\ get_config 14 1 example_schema example_int Incomplete.sys Incomplete.known_x 1
                (Incomplete.handler ["/work/a.yml"])
     = Raise (IncludeException "file is not specified").
Proof. split; vm_compute; reflexivity. Qed.

(** C7, as the specification words it, fails on a top file whose only
    include is [{repo: x}] while [x] is not among the known repos: the visit
    returns, with [x] among the missing repos. *)
Lemma C7_counterexample : ~ include_without_file_always_fails 14 1 example_schema example_int.
Proof.
  intros Hclaim.
  destruct (Hclaim Incomplete.sys ∅ (Incomplete.handler ["/work/a.yml"]) "/work/a.yml"
              (VStr "/work") false false (Incomplete.doc "/work/a.yml" Incomplete.a)
              [] [("repo", VStr "x")] [] eq_refl eq_refl eq_refl)
    as (fuel & message & Hraise).
  destruct fuel as [ | fuel ]; [ discriminate | ].
  vm_compute in Hraise. discriminate.
Qed.

Lemma C7_witness :
  _internal_include_handler 14 1 example_schema example_int Incomplete.sys Incomplete.known_x 1
    (Incomplete.handler ["/work/a.yml"]) "/work/a.yml" (VStr "/work") false false
  = Raise (IncludeException "file is not specified").
Proof.
  apply (C7_missing_file_key 14 1 example_schema example_int Incomplete.sys Incomplete.known_x 0
           (Incomplete.handler ["/work/a.yml"]) "/work/a.yml" (VStr "/work") false false
           (Incomplete.doc "/work/a.yml" Incomplete.a)
           [] [] (Incomplete.handler ["/work/a.yml"]) (VStr "/work")
           [] [("repo", VStr "x")] []
           [] [] (Incomplete.handler ["/work/a.yml"])
           eq_refl eq_refl eq_refl eq_refl eq_refl eq_refl) with (includedir := "/path").
  vm_compute. reflexivity.
Defined.


Lemma C9_witness : merge_configs [Scenario.doc_a; Scenario.doc_a] = Ok Scenario.a.
Proof.
  apply (C9_merge_idempotent Scenario.doc_a); vm_compute; reflexivity.
Defined.

Lemma C2_witness :
  (exists merged,
      _internal_dict_merge Scenario.b Scenario.a = Ok (VDict merged)
      /\ dict_get "machine" merged = Some (VStr "qemux86-64")
      /\ dict_get "distro" merged = Some (VStr "poky"))
  /\ (exists merged,
        reduce_merge [Scenario.b; Scenario.c; Scenario.a] = Ok (VDict merged)
        /\ "target" ∈ dict_keys merged).
Proof.
  pose (b := [("header", VDict [("version", VInt 14)]);
              ("machine", VStr "qemuarm"); ("distro", VStr "poky")]).
  pose (a := [("header",
               VDict [("version", VInt 14);
                      ("includes",
                       VList [VStr "b.yml";
                              VDict [("repo", VStr "x"); ("file", VStr "c.yml")]])]);
              ("machine", VStr "qemux86-64")]).
  pose (c := [("header", VDict [("version", VInt 14)]);
              ("target", VList [VStr "core-image-minimal"])]).
  assert (Hnd : NoDup (dict_keys a)).
  { apply (bool_decide_unpack _). vm_compute. exact I. }
  destruct (C2_merge_step_and_key_union b a [] Hnd) as [(merged & Hm & Hrule & Hframe) _].
  destruct (C2_merge_step_and_key_union b a [c; a] Hnd) as [_ (folded & Hf & Hkeys)].
  split.
  - exists merged. split; [ exact Hm | ]. split.
    + destruct (Hrule "machine" (VStr "qemux86-64") eq_refl) as (v' & Hget & Hv').
      simpl in Hv'. by subst v'.
    + by rewrite (Hframe "distro" eq_refl).
  - exists folded. split; [ exact Hf | ].
    apply Hkeys. exists c. split.
    + apply elem_of_cons. right. apply elem_of_cons. by left.
    + vm_compute. apply elem_of_cons. right. apply elem_of_cons. by left.
Defined.

Lemma C3_witness :
  exists st,
    Lock._update_lockfile Lock.plugin (Lock.lock_at "/work/a.lock.yml") [("r1", Lock.r1)]
      = Ok st
    /\ Lock.pin (Lock.table st) "r1" = Some (VStr "BBB")
    /\ Lock.changed st = true
    /\ "r1" ∉ dict_keys (Lock.returned st).
Proof.
  assert (Hnd : NoDup (dict_keys [("r1", Lock.r1)])).
  { apply (bool_decide_unpack _). vm_compute. exact I. }
  assert (Hrecords : Lock.records_pins [("r1", VDict [("commit", VStr "AAA")])]).
  { intros key v. cbn [dict_get]. destruct (String.eqb "r1" key); [ | discriminate ].
    intros [= <-]. by exists [("commit", VStr "AAA")], (VStr "AAA"). }
  destruct (C3_lock_reconciliation Lock.plugin (Lock.lock_at "/work/a.lock.yml")
              [("r1", Lock.r1)] [("r1", VDict [("commit", VStr "AAA")])]
              "r1" Lock.r1 (VStr "AAA") Hnd eq_refl Hrecords eq_refl eq_refl)
    as (st & Hpass & Hupdate & _ & Hgone & _).
  destruct (Hupdate eq_refl eq_refl) as (Hpin & Hchanged & _).
  exists st. split; [ exact Hpass | ].
  split; [ exact Hpin | ]. split; [ exact Hchanged | exact Hgone ].
Defined.

Lemma C10_witness :
  (exists new_objects,
      Heap._internal_dict_merge 2 Heap.example (Heap.RObj 0) (Heap.RObj 2)
        = Ok (Heap.example ++ new_objects, Heap.RObj 4))
  /\ (exists new_objects merged,
        Heap.reduce_merge 2 Heap.example [Heap.RObj 0; Heap.RObj 2]
          = Ok (Heap.example ++ new_objects, merged)
        /\ Heap.reify 2 (Heap.example ++ new_objects) (Heap.RObj 0)
           = Heap.reify 2 Heap.example (Heap.RObj 0)
        /\ Heap.reify 2 (Heap.example ++ new_objects) (Heap.RObj 2)
           = Heap.reify 2 Heap.example (Heap.RObj 2)).
Proof.
  assert (Hbodies : Forall (fun body => Heap.is_Mapping Heap.example body = true
                                        /\ is_Some (Heap.reify 2 Heap.example body))
                           [Heap.RObj 2]).
  { repeat constructor. vm_compute. eauto. }
  destruct (C10_merge_never_mutates_inputs 2 Heap.example (Heap.RObj 0) (Heap.RObj 2) []
              eq_refl Hbodies)
    as [(new_objects & Hmerge & _) (folded & merged & Hfold & _ & Hsame)].
  split.
  - exists new_objects. exact Hmerge.
  - exists folded, merged. split; [ exact Hfold | ]. split.
    + apply (Hsame (Heap.RObj 0) 2); [ apply elem_of_cons; by left | ].
      vm_compute. reflexivity.
    + apply (Hsame (Heap.RObj 2) 2); [ apply elem_of_cons; right; apply elem_of_cons; by left | ].
      vm_compute. reflexivity.
Defined.

(** The store-based merger and the merger on trees agree on the example. *)
Example heap_merge_agrees :
  exists h r a b merged,
    Heap._internal_dict_merge 2 Heap.example (Heap.RObj 0) (Heap.RObj 2) = Ok (h, r)
    /\ Heap.reify 2 Heap.example (Heap.RObj 0) = Some a
    /\ Heap.reify 2 Heap.example (Heap.RObj 2) = Some b
    /\ _internal_dict_merge a b = Ok merged
    /\ Heap.reify 2 h r = Some merged.
Proof. do 5 eexists. repeat split; vm_compute; reflexivity. Qed.

(** The two passes of the specification's lock scenario: a lock document
    of the project is rewritten and dumped, one inside the checkout of the
    managed repository [r1] is left alone with a warning. *)
Example lock_scenario :
  Lock._update_lockfile Lock.plugin (Lock.lock_at "/work/a.lock.yml") [("r1", Lock.r1)]
  = Ok {| Lock.table := [("r1", VDict [("commit", VStr "BBB")])];
          Lock.repos_to_lock := [];
          Lock.changed := true;
          Lock.log :=
            [Lock.InfoUpdating "r1" (VStr "AAA") (Some "BBB");
             Lock.InfoUpdatingLockfile "/work/a.lock.yml";
             Lock.Dumped "/work/a.lock.yml"
               (Lock.with_table Lock.pins_AAA [("r1", VDict [("commit", VStr "BBB")])])
               "yaml"] |}
  /\ Lock._update_lockfile Lock.plugin (Lock.lock_at "/work/build/r1/a.lock.yml")
                           [("r1", Lock.r1)]
     = Ok {| Lock.table := [("r1", VDict [("commit", VStr "AAA")])];
             Lock.repos_to_lock := [];
             Lock.changed := false;
             Lock.log := [Lock.WarningRemoteLockfile "r1" "/work/build/r1/a.lock.yml"] |}.
Proof. split; vm_compute; reflexivity. Qed.


(** ** The further properties at work *)

Lemma X2_witness :
  exists merged,
    _internal_dict_merge Scenario.c Scenario.a = Ok (VDict merged)
    /\ dict_keys merged = ["header"; "target"; "machine"].
Proof.
  pose (c := [("header", VDict [("version", VInt 14)]);
              ("target", VList [VStr "core-image-minimal"])]).
  pose (a := [("header",
               VDict [("version", VInt 14);
                      ("includes",
                       VList [VStr "b.yml";
                              VDict [("repo", VStr "x"); ("file", VStr "c.yml")]])]);
              ("machine", VStr "qemux86-64")]).
  assert (Hnd : NoDup (dict_keys a)).
  { apply (bool_decide_unpack _). vm_compute. exact I. }
  destruct (_internal_dict_merge_total a c) as [merged Hm].
  exists merged. split; [ exact Hm | ].
  rewrite (X2_merge_key_order c a merged Hnd Hm). reflexivity.
Defined.

Lemma X3_witness :
  _internal_dict_merge (VDict [("machine", VStr "qemuarm")])
                       (VDict [("distro", VStr "poky"); ("target", VStr "image")])
  = Ok (VDict [("machine", VStr "qemuarm"); ("distro", VStr "poky");
               ("target", VStr "image")]).
Proof.
  apply (X3_merge_disjoint_appends [("machine", VStr "qemuarm")]
           [("distro", VStr "poky"); ("target", VStr "image")]).
  - apply (bool_decide_unpack _). vm_compute. exact I.
  - intros k Hk. cbn [dict_keys map fst] in Hk.
    apply list_elem_of_singleton in Hk. subst k.
    apply (proj1 (bool_decide_eq_false _)). vm_compute. reflexivity.
Defined.

Lemma X4_witness :
  Forall (fun d => is_external d = true)
         [Checkout.doc "/path/c.lock.yml" (LockChain.pins "AAA") true true;
          Checkout.doc "/path/d.lock.yml" (LockChain.pins "BBB") true true;
          Checkout.doc "/path/d.yml" Checkout.plain false true;
          Checkout.doc "/path/c.yml" Checkout.c false true].
Proof.
  apply (X4_external_visit_marks_every_document 14 1 example_schema example_int
           Checkout.sys Checkout.known_x 3 (Checkout.handler "/work/top.yml" "/work")
           "/path/c.yml" (VStr "/path") false
           [Checkout.doc "/path/c.lock.yml" (LockChain.pins "AAA") true true;
            Checkout.doc "/path/d.lock.yml" (LockChain.pins "BBB") true true;
            Checkout.doc "/path/d.yml" Checkout.plain false true;
            Checkout.doc "/path/c.yml" Checkout.c false true]
           [] (Checkout.handler "/work/top.yml" "/work")).
  vm_compute. reflexivity.
Defined.

Lemma X5_witness :
  handler_moved (Checkout.handler "/work/generated.yml" "/work")
                [{| filename := "/work/generated.yml"; config := Checkout.generated;
                    src_dir := VStr "/src"; is_lockfile := false; is_external := false |}]
                (Checkout.handler "/work/generated.yml" "/src").
Proof.
  apply (X5_top_repo_path_moves_only_to_a_source_dir 14 1 example_schema example_int
           Checkout.sys Checkout.known_x 1 (Checkout.handler "/work/generated.yml" "/work")
           [{| filename := "/work/generated.yml"; config := Checkout.generated;
               src_dir := VStr "/src"; is_lockfile := false; is_external := false |}]
           [] (Checkout.handler "/work/generated.yml" "/src")).
  vm_compute. reflexivity.
Defined.

Lemma X6_witness :
  Forall (fun k => repos_get Checkout.known_x k = Ok None) [VStr "y"].
Proof.
  apply (X6_missing_repos_are_unknown 14 1 example_schema example_int
           Checkout.sys Checkout.known_x 4 (Checkout.handler "/work/top.yml" "/work")
           (VDict [("header", Checkout.top_header);
                   ("overrides",
                    VDict [("repos", VDict [("r1", VDict [("commit", VStr "BBB")])])])])
           [VStr "y"] (Checkout.handler "/work/top.yml" "/work")).
  vm_compute. reflexivity.
Defined.

Lemma X7_witness :
  get_config 14 1 example_schema example_int Incomplete.sys {[ "y" := "/elsewhere" ]} 1
             (Incomplete.handler ["/work/a.yml"])
  = Ok (Incomplete.a, [VStr "x"], Incomplete.handler ["/work/a.yml"]).
Proof.
  apply (X7_result_stable_when_repos_grow 14 1 example_schema example_int Incomplete.sys
           ∅ {[ "y" := "/elsewhere" ]}).
  - intros k dir H. by rewrite lookup_empty in H.
  - vm_compute. reflexivity.
  - intros k Hk. apply list_elem_of_singleton in Hk. injection Hk as ->.
    vm_compute. reflexivity.
Defined.

Lemma X8_witness : "file is not specified" = "file is not specified".
Proof.
  apply (X8_visit_raises_no_other_IncludeException 14 1 example_schema example_int
           Incomplete.sys Incomplete.known_x 1 (Incomplete.handler ["/work/a.yml"])
           "/work/a.yml" (VStr "/work") false false).
  vm_compute. reflexivity.
Defined.

Lemma X9_witness :
  exists config,
    get_config 14 1 example_schema example_int Scenario.sys Scenario.known_repos 2 Scenario.handler
    = Ok (VDict config, [], Scenario.handler).
Proof.
  apply (proj2 (X9_get_config_returns_once_resolved 14 1 example_schema example_int
                  Scenario.sys Scenario.known_repos 2 Scenario.handler)
               [Scenario.doc_b; Scenario.doc_c; Scenario.doc_a]).
  - discriminate.
  - vm_compute. reflexivity.
Defined.

Lemma X10_witness :
  _internal_include_handler 14 1 example_schema example_int loop_sys ∅ 1000
    {| top_files := ["/work/loop.yml"]; top_repo_path := VStr "/work"; use_lock := true |}
    "/work/loop.yml" (VStr "/work") false false
  = OutOfFuel.
Proof.
  apply (X10_self_include_never_returns 14 1 example_schema example_int loop_sys ∅ _
           "/work/loop.yml" (VStr "/work") false
           {| filename := "/work/loop.yml"; config := loop_doc; src_dir := VNone;
              is_lockfile := false; is_external := false |}
           "loop.yml" []);
    vm_compute; reflexivity.
Defined.

Lemma X11_witness :
  exists merged,
    reduce_merge [Scenario.b; Scenario.c; Scenario.a] = Ok (VDict merged)
    /\ dict_get "machine" merged = Some (VStr "qemux86-64").
Proof.
  pose (b := [("header", VDict [("version", VInt 14)]);
              ("machine", VStr "qemuarm"); ("distro", VStr "poky")]).
  pose (c := [("header", VDict [("version", VInt 14)]);
              ("target", VList [VStr "core-image-minimal"])]).
  pose (a := [("header",
               VDict [("version", VInt 14);
                      ("includes",
                       VList [VStr "b.yml";
                              VDict [("repo", VStr "x"); ("file", VStr "c.yml")]])]);
              ("machine", VStr "qemux86-64")]).
  apply (X11_last_setting_wins [b; c] [] a "machine" (VStr "qemux86-64")).
  - repeat constructor; apply (bool_decide_unpack _); vm_compute; exact I.
  - reflexivity.
  - constructor.
  - left. reflexivity.
Defined.

Lemma X12_witness :
  exists st,
    Lock._update_lockfile Lock.plugin (Lock.lock_at "/work/a.lock.yml")
                          [("r1", Lock.r1); ("r2", r2)] = Ok st
    /\ Lock.returned st = [("r2", r2)].
Proof.
  eexists. split; [ vm_compute; reflexivity | ].
  apply (X12_pass_returns_the_uncovered Lock.plugin (Lock.lock_at "/work/a.lock.yml")
           [("r1", Lock.r1); ("r2", r2)] [("r1", VDict [("commit", VStr "AAA")])]).
  - apply (bool_decide_unpack _). vm_compute. exact I.
  - reflexivity.
  - vm_compute. reflexivity.
Defined.

Lemma X13_witness :
  exists st,
    Lock._update_lockfile Lock.plugin (Lock.lock_at "/work/a.lock.yml")
                          [("r1", Lock.r1); ("r2", r2)] = Ok st
    /\ dict_keys (Lock.table st) = ["r1"].
Proof.
  eexists. split; [ vm_compute; reflexivity | ].
  apply (X13_pass_only_assigns_commits Lock.plugin (Lock.lock_at "/work/a.lock.yml")
           [("r1", Lock.r1); ("r2", r2)] [("r1", VDict [("commit", VStr "AAA")])]).
  - reflexivity.
  - vm_compute. reflexivity.
Defined.

Lemma X14_witness :
  exists st,
    Lock._update_lockfile Lock.plugin (Lock.lock_at "/work/build/r1/a.lock.yml")
                          [("r1", Lock.r1)] = Ok st
    /\ Lock.table st = [("r1", VDict [("commit", VStr "AAA")])]
    /\ Lock.changed st = false.
Proof.
  eexists. split; [ vm_compute; reflexivity | ].
  destruct (X14_external_lock_document_is_left_alone Lock.plugin
              (Lock.lock_at "/work/build/r1/a.lock.yml") [("r1", Lock.r1)]
              [("r1", VDict [("commit", VStr "AAA")])]
              {| Lock.table := [("r1", VDict [("commit", VStr "AAA")])];
                 Lock.repos_to_lock := [];
                 Lock.changed := false;
                 Lock.log := [Lock.WarningRemoteLockfile "r1" "/work/build/r1/a.lock.yml"] |})
    as (Htable & Hchanged & _); [ vm_compute; reflexivity .. | ].
  split; [ exact Htable | exact Hchanged ].
Defined.

Lemma X15_witness :
  exists st earlier,
    Lock._update_lockfile Lock.plugin (Lock.lock_at "/work/a.lock.yml") [("r1", Lock.r1)]
    = Ok st
    /\ Lock.log st
       = earlier ++ [Lock.InfoUpdatingLockfile "/work/a.lock.yml";
                     Lock.Dumped "/work/a.lock.yml"
                       (Lock.with_table Lock.pins_AAA (Lock.table st)) "yaml"].
Proof.
  eexists.
  destruct (X15_dumped_exactly_when_changed Lock.plugin (Lock.lock_at "/work/a.lock.yml")
              [("r1", Lock.r1)] [("r1", VDict [("commit", VStr "AAA")])]
              {| Lock.table := [("r1", VDict [("commit", VStr "BBB")])];
                 Lock.repos_to_lock := [];
                 Lock.changed := true;
                 Lock.log :=
                   [Lock.InfoUpdating "r1" (VStr "AAA") (Some "BBB");
                    Lock.InfoUpdatingLockfile "/work/a.lock.yml";
                    Lock.Dumped "/work/a.lock.yml"
                      (Lock.with_table Lock.pins_AAA [("r1", VDict [("commit", VStr "BBB")])])
                      "yaml"] |})
    as (_ & Hdump); [ reflexivity | vm_compute; reflexivity | ].
  destruct (Hdump eq_refl) as (earlier & Hlog & _).
  exists earlier. split; [ vm_compute; reflexivity | exact Hlog ].
Defined.

Lemma X16_witness :
  exists passes,
    update_locks Lock.plugin [Lock.lock_at "/work/a.lock.yml"]
                 [("r1", Lock.r1); ("r2", r2)] []
    = Ok (passes, [("r2", r2)])
    /\ length passes = 1.
Proof.
  eexists. split; [ vm_compute; reflexivity | ].
  eapply (X16_locks_hand_on_the_uncovered Lock.plugin [Lock.lock_at "/work/a.lock.yml"]
            [[("r1", VDict [("commit", VStr "AAA")])]] [("r1", Lock.r1); ("r2", r2)]).
  - apply (bool_decide_unpack _). vm_compute. exact I.
  - repeat constructor.
  - vm_compute. reflexivity.
Defined.

Lemma X17_witness :
  exists st,
    add_new_locks Lock.plugin (Lock.lock_at "/work/a.lock.yml") [("r2", r2)] = Ok st
    /\ Lock.returned st = []
    /\ Lock.pin (Lock.table st) "r2" = Some (VStr "CCC")
    /\ Lock.pin (Lock.table st) "r1" = Some (VStr "AAA").
Proof.
  destruct (X17_uncovered_repos_get_locked Lock.plugin (Lock.lock_at "/work/a.lock.yml")
              [("r2", r2)] [("r1", VDict [("commit", VStr "AAA")])])
    as (st & Hrun & Hempty & Hpinned & Hkept).
  - apply (bool_decide_unpack _). vm_compute. exact I.
  - reflexivity.
  - intros key v. cbn [dict_get]. destruct (String.eqb "r1" key); [ | discriminate ].
    intros [= <-]. by exists [("commit", VStr "AAA")], (VStr "AAA").
  - vm_compute. reflexivity.
  - exists st. split; [ exact Hrun | ]. split; [ exact Hempty | ]. split.
    + apply (Hpinned "r2" r2). reflexivity.
    + rewrite (Hkept "r1"); [ reflexivity | ].
      intros Hin. apply list_elem_of_singleton in Hin. discriminate.
Defined.

Lemma X19_witness :
  exists st',
    Lock._update_lockfile Lock.plugin
      {| filename := "/work/a.lock.yml";
         config := Lock.with_table Lock.pins_AAA [("r1", VDict [("commit", VStr "BBB")])];
         src_dir := VNone; is_lockfile := true; is_external := false |}
      [("r1", Lock.r1)] = Ok st'
    /\ Lock.table st' = [("r1", VDict [("commit", VStr "BBB")])]
    /\ Lock.changed st' = false.
Proof.
  destruct (X19_second_pass_assigns_nothing Lock.plugin (Lock.lock_at "/work/a.lock.yml")
              [("r1", Lock.r1)] [("r1", VDict [("commit", VStr "AAA")])]
              {| Lock.table := [("r1", VDict [("commit", VStr "BBB")])];
                 Lock.repos_to_lock := [];
                 Lock.changed := true;
                 Lock.log :=
                   [Lock.InfoUpdating "r1" (VStr "AAA") (Some "BBB");
                    Lock.InfoUpdatingLockfile "/work/a.lock.yml";
                    Lock.Dumped "/work/a.lock.yml"
                      (Lock.with_table Lock.pins_AAA [("r1", VDict [("commit", VStr "BBB")])])
                      "yaml"] |})
    as (st' & Hpass & Htable & Hchanged & _).
  - apply (bool_decide_unpack _). vm_compute. exact I.
  - reflexivity.
  - vm_compute. reflexivity.
  - exists st'. split; [ exact Hpass | ]. split; [ exact Htable | exact Hchanged ].
Defined.

Lemma X20_witness :
  exists lockfile,
    get_lockfile Scenario.handler (Some "/work/a.yml") = Ok lockfile
    /\ (os_path.splitext lockfile).2 = ".yml"
    /\ recognized_extension lockfile = true
    /\ lockfile <> "/work/a.yml".
Proof.
  apply (X20_lock_sibling_keeps_the_extension Scenario.handler "/work/a.yml").
  vm_compute. reflexivity.
Defined.

Lemma X18_witness :
  exists merged,
    _internal_dict_merge Scenario.b Scenario.a = Ok merged
    /\ _internal_dict_merge merged Scenario.a = Ok merged.
Proof.
  destruct (_internal_dict_merge Scenario.b Scenario.a) as [ merged | | ] eqn:Hmerge;
    [ | vm_compute in Hmerge; discriminate | vm_compute in Hmerge; discriminate ].
  exists merged. split; [ reflexivity | ].
  apply (X18_merging_again_changes_nothing Scenario.b Scenario.a merged);
    [ vm_compute; reflexivity | exact Hmerge ].
Defined.

Lemma X21_witness :
  exists new_objects merged,
    Heap._internal_dict_merge 2 Heap.example (Heap.RObj 1) (Heap.RObj 0)
      = Ok (Heap.example ++ new_objects, Heap.RObj 4)
    /\ (Heap.example ++ new_objects) !! 4 = Some (Heap.ODict merged)
    /\ dict_get "a" merged = Some (Heap.RObj 1)
    /\ dict_get "x" merged = Some (Heap.RInt 1).
Proof.
  destruct (X21_merged_mapping_shares_its_values 1 Heap.example 1 0
              [("x", Heap.RInt 1)] [("a", Heap.RObj 1); ("b", Heap.RInt 1)])
    as (new_objects & merged & Hmerge & Hnew & Hupd & Hdest).
  - reflexivity.
  - reflexivity.
  - apply (bool_decide_unpack _). vm_compute. exact I.
  - vm_compute. eauto.
  - intros key l. cbn [dict_get]. destruct (String.eqb "x" key); discriminate.
  - exists new_objects, merged. split; [ exact Hmerge | ]. split; [ exact Hnew | ]. split.
    + apply Hupd; reflexivity.
    + rewrite Hdest; [ reflexivity | ].
      apply (proj1 (bool_decide_eq_false _)). vm_compute. reflexivity.
Defined.

Lemma X22_witness :
  exists new_objects merged,
    Heap._internal_dict_merge 2 Heap.example (Heap.RObj 0) (Heap.RObj 2)
      = Ok (Heap.example ++ new_objects, Heap.RObj 4)
    /\ _internal_dict_merge
         (VDict [("a", VDict [("x", VInt 1)]); ("b", VInt 1)])
         (VDict [("a", VDict [("y", VInt 2)])]) = Ok (VDict merged)
    /\ Heap.reify 2 (Heap.example ++ new_objects) (Heap.RObj 4) = Some (VDict merged).
Proof.
  destruct (X22_store_merge_computes_tree_merge 2 Heap.example (Heap.RObj 0) (Heap.RObj 2)
              [("a", VDict [("x", VInt 1)]); ("b", VInt 1)]
              [("a", VDict [("y", VInt 2)])])
    as (new_objects & merged & Hstore & Htree & Hreads & _).
  - intros l entries Hl.
    do 4 (destruct l as [ | l ];
          [ injection Hl as <-; apply (bool_decide_unpack _); vm_compute; exact I | ]).
    discriminate.
  - reflexivity.
  - reflexivity.
  - exists new_objects, merged. split; [ exact Hstore | ]. split; [ exact Htree | exact Hreads ].
Defined.

Lemma X24_witness :
  Forall (fun d => ConfigFile_init 14 1 example_schema example_int Scenario.sys
                     (filename d) (is_lockfile d) (is_external d) = Ok d)
         [Scenario.doc_b; Scenario.doc_c; Scenario.doc_a].
Proof.
  apply (X24_resolved_documents_are_loaded_files 14 1 example_schema example_int
           Scenario.sys Scenario.known_repos 2 Scenario.handler
           [Scenario.doc_b; Scenario.doc_c; Scenario.doc_a] [] Scenario.handler).
  vm_compute. reflexivity.
Defined.

Lemma X25_witness :
  Forall (fun d => is_lockfile d = false)
         [LockChain.doc "/work/a.yml" LockChain.plain false].
Proof.
  apply (X25_no_lock_documents_without_use_lock 14 1 example_schema example_int
           LockChain.sys ∅ 1
           {| top_files := ["/work/a.yml"]; top_repo_path := VStr "/work";
              use_lock := false |}
           [LockChain.doc "/work/a.yml" LockChain.plain false] []
           {| top_files := ["/work/a.yml"]; top_repo_path := VStr "/work";
              use_lock := false |}).
  - reflexivity.
  - vm_compute. reflexivity.
Defined.

